(** * BoneMarrowTransplantApp.c: the donor-file merge and the donor filter

    A shallow embedding of [createDatabase], [getPotentialDonors] and their
    helpers, of [countMismatches] and of the unit file names that [main]
    builds, together with the part of the C library they rely on
    ([strcmp], [isdigit], [isspace], [fscanf] for the two format strings
    of the program, [%d] of a non-negative [int]).

    Modelling conventions.
    - A [string] value stands for the contents of a NUL-terminated [char]
      array, i.e. the bytes before the terminator.  Text streams hold no
      NUL byte.
    - A [FILE] is the unread remainder of an input stream.
    - The output file is the sequence of [fprintf] calls made on it;
      [render] turns it into the bytes written.
    - An [int] used as a counter is a [Z]; an [int] that is an index or the
      sentinel [-1] is an [option nat] ([None] for [-1]).  The array
      [processedIDs] and its count [numProcessed] are the list of the
      entries written, whose length is the count.
    - Automatic storage that the program reads before writing it (the
      [currentPersons] array, the [current] record) is an explicit
      argument: its contents are whatever the stack held.
    - A write past the end of a fixed-size array stops the run with an
      out-of-bounds result. *)

From Stdlib Require Import ZArith Ascii String Lia Bool.
From Stdlib Require DecimalString DecimalNat.
From stdpp Require Import base list strings sorting.

Local Open Scope string_scope.
Local Open Scope list_scope.

(** ** C library *)

Module Libc.

Definition char_code (c : ascii) : Z := Z.of_N (N_of_ascii c).

(** [isdigit] and [isspace] in the "C" locale. *)
Definition isdigit (c : ascii) : bool :=
  ((48 <=? char_code c) && (char_code c <=? 57))%Z.

Definition isspace (c : ascii) : bool :=
  ((char_code c =? 32) || ((9 <=? char_code c) && (char_code c <=? 13)))%Z.

(** [strcmp]: the bytes are compared as unsigned values; only the sign of
    the result is specified, and only the sign is used by the program. *)
Definition strcmp (a b : string) : Z :=
  match String.compare a b with
  | Eq => 0
  | Lt => -1
  | Gt => 1
  end%Z.

(** The unread remainder of a stream. *)
Abbreviation FILE := string.

(** Reads at most [w] characters that satisfy [ok]; the first character
    that does not is left in the stream. *)
Fixpoint scan_while (ok : ascii -> bool) (w : nat) (f : FILE) : string * FILE :=
  match w, f with
  | S w', String c rest =>
      if ok c then
        let '(s, f') := scan_while ok w' rest in (String c s, f')
      else ("", f)
  | _, _ => ("", f)
  end.

Fixpoint skip_space (f : FILE) : FILE :=
  match f with
  | String c rest => if isspace c then skip_space rest else f
  | EmptyString => f
  end.

(** The directives that occur in the program's format strings. *)
Inductive directive :=
| Conv_nondigits (w : nat)  (* %w[^0-9] *)
| Conv_s (w : nat)          (* %ws *)
| White.                    (* white space in the format *)

Record scan_result := {
  assigned : list string;   (* the values stored, in argument order *)
  rest : FILE;
  input_failure : bool      (* the stream ended before a conversion began *)
}.

Definition is_empty (s : string) : bool :=
  match s with EmptyString => true | String _ _ => false end.

Definition conv (ok : ascii -> bool) (w : nat) (f : FILE)
    (k : FILE -> scan_result) : scan_result :=
  let '(s, f') := scan_while ok w f in
  if is_empty s then
    {| assigned := []; rest := f; input_failure := is_empty f |}
  else
    let r := k f' in
    {| assigned := s :: assigned r; rest := rest r;
       input_failure := input_failure r |}.

Fixpoint vfscanf (fmt : list directive) (f : FILE) : scan_result :=
  match fmt with
  | [] => {| assigned := []; rest := f; input_failure := false |}
  | White :: fmt' => vfscanf fmt' (skip_space f)
  | Conv_nondigits w :: fmt' =>
      conv (fun c => negb (isdigit c)) w f (vfscanf fmt')
  | Conv_s w :: fmt' =>
      conv (fun c => negb (isspace c)) w (skip_space f) (vfscanf fmt')
  end.

Definition EOF : Z := (-1)%Z.

(** The value [fscanf] returns: the number of items assigned, or [EOF]
    when the input ended before the first conversion. *)
Definition scan_count (r : scan_result) : Z :=
  match assigned r with
  | [] => if input_failure r then EOF else 0%Z
  | vs => Z.of_nat (length vs)
  end.

(** [%-ws]: left-justified in a field of [w] columns, never truncated. *)
Definition pad_right (w : nat) (s : string) : string :=
  s +:+ string_of_list_ascii (repeat " "%char (w - String.length s)).

End Libc.

Import Libc.

(** ** The program *)

Definition MAX_PERSONS : nat := 1000.
Definition MAX_UNITS : nat := 100.

Record person := {
  name : string;          (* char name[31] *)
  id : string;            (* char id[10] *)
  genes : list string     (* char genes[5][22] *)
}.

Definition gene (p : person) (i : nat) : string := nth i (genes p) "".

Definition comparePersons (a b : person) : Z := strcmp (name a) (name b).

Fixpoint countGeneMatches_from (i n : nat) (donor patient : person)
    (matchCount : Z) : Z :=
  match n with
  | O => matchCount
  | S n' =>
      countGeneMatches_from (S i) n' donor patient
        (if (strcmp (gene donor i) (gene patient i) =? 0)%Z
         then (matchCount + 1)%Z else matchCount)
  end.

Definition countGeneMatches (donor patient : person) : Z :=
  countGeneMatches_from 0 5 donor patient 0.

(** The loop of [cleanName]: [i] is the index of the head of [s] in the
    name; the result is [lastCharIndex] when the loop ends. *)
Fixpoint cleanName_loop (s : string) (i : nat) (lastCharIndex : Z) : Z :=
  match s with
  | EmptyString => lastCharIndex
  | String c s' =>
      if isdigit c then lastCharIndex
      else cleanName_loop s' (S i)
             (if isspace c then lastCharIndex else Z.of_nat i)
  end.

(** [name[lastCharIndex + 1] = '\0'] keeps the first [lastCharIndex + 1]
    bytes. *)
Definition cleanName (nm : string) : string :=
  substring 0 (Z.to_nat (cleanName_loop nm 0 (-1) + 1)) nm.

Definition isDuplicate (i : string) (processedIDs : list string)
    (numProcessed : nat) : bool :=
  existsb (fun x => (strcmp i x =? 0)%Z) (take numProcessed processedIDs).

(** *** Reading one record *)

(** "%30[^0-9]%9s %21s %21s %21s %21s %21s" *)
Definition fmt_first : list directive :=
  [Conv_nondigits 30; Conv_s 9; White; Conv_s 21; White; Conv_s 21; White;
   Conv_s 21; White; Conv_s 21; White; Conv_s 21].

(** "%30[^0-9] %9s %21s %21s %21s %21s %21s" *)
Definition fmt_next : list directive :=
  [Conv_nondigits 30; White; Conv_s 9; White; Conv_s 21; White; Conv_s 21;
   White; Conv_s 21; White; Conv_s 21; White; Conv_s 21].

(** The arguments of the call are the seven fields of [p]; the fields for
    which no value was assigned keep what they held. *)
Definition store_fields (p : person) (vs : list string) : person :=
  {| name := default (name p) (vs !! 0);
     id := default (id p) (vs !! 1);
     genes := map (fun i => default (gene p i) (vs !! (2 + i))) (seq 0 5) |}.

Definition fscanf_person (fmt : list directive) (f : FILE) (p : person)
    : Z * person * FILE :=
  let r := vfscanf fmt f in
  (scan_count r, store_fields p (assigned r), rest r).

#[global] Arguments fscanf_person : simpl never.

Definition with_name (p : person) (nm : string) : person :=
  {| name := nm; id := id p; genes := genes p |}.

(** [memset(&p, 0, sizeof(person))] *)
Definition zero_person : person :=
  {| name := ""; id := ""; genes := repeat "" 5 |}.

(** *** createDatabase *)

(** One call of [fprintf] on the output file. *)
Inductive fprintf_call :=
| Newline                       (* "\n" *)
| Record_glued (p : person)     (* "%-30s%-9s %-21s %-21s %-21s %-21s %-21s" *)
| Record_spaced (p : person).   (* "%-30s %-9s %-21s %-21s %-21s %-21s %-21s" *)

Definition render_genes (p : person) : string :=
  pad_right 21 (gene p 0) +:+ " " +:+ pad_right 21 (gene p 1) +:+ " " +:+
  pad_right 21 (gene p 2) +:+ " " +:+ pad_right 21 (gene p 3) +:+ " " +:+
  pad_right 21 (gene p 4).

Definition render_call (c : fprintf_call) : string :=
  match c with
  | Newline => String (ascii_of_nat 10) ""
  | Record_glued p =>
      pad_right 30 (name p) +:+ pad_right 9 (id p) +:+ " " +:+ render_genes p
  | Record_spaced p =>
      pad_right 30 (name p) +:+ " " +:+ pad_right 9 (id p) +:+ " " +:+
      render_genes p
  end.

Definition render (out : list fprintf_call) : string :=
  foldr (fun c s => render_call c +:+ s) "" out.

(** What one iteration of the merge loop selected: a history variable,
    read by no code. *)
Record selection := {
  sel_unit : nat;        (* smallestIndex *)
  sel_person : person;   (* currentPersons[smallestIndex] *)
  sel_written : bool     (* the record was not a duplicate *)
}.

Record merge_state := {
  units : list FILE;
  currentPersons : list person;
  activeFiles : Z;
  processedIDs : list string;    (* the entries written so far *)
  lastFileIndex : option nat;
  outFile : list fprintf_call;
  history : list selection
}.

Definition numProcessed (st : merge_state) : nat := length (processedIDs st).

(** The first loop: one record is read from every unit.  [uninit i] is
    what [currentPersons[i]] holds before the call. *)
Fixpoint read_first (us : list FILE) (i : nat) (uninit : nat -> person)
    : list FILE * list person * Z :=
  match us with
  | [] => ([], [], 0%Z)
  | f :: us' =>
      let '(n, p, f') := fscanf_person fmt_first f (uninit i) in
      let '(fs, ps, active) := read_first us' (S i) uninit in
      if (n =? 7)%Z
      then (f' :: fs, with_name p (cleanName (name p)) :: ps, (active + 1)%Z)
      else (f' :: fs, p :: ps, active)
  end.

Definition valid (p : person) : bool := negb (is_empty (name p)).

(** The scan for the smallest record: [i] is the index of the head of
    [todo] in [cur]. *)
Fixpoint find_smallest (cur todo : list person) (i : nat)
    (smallestIndex : option nat) : option nat :=
  match todo with
  | [] => smallestIndex
  | p :: todo' =>
      find_smallest cur todo' (S i)
        (if valid p &&
            match smallestIndex with
            | None => true
            | Some s => (comparePersons p (nth s cur zero_person) <? 0)%Z
            end
         then Some i else smallestIndex)
  end.

Inductive outcome :=
| Continue (st : merge_state)
| Finished (st : merge_state)       (* the loop was left *)
| OutOfBounds (st : merge_state).   (* processedIDs[numProcessed], numProcessed >= capacity *)

Definition smallest (st : merge_state) : option nat :=
  find_smallest (currentPersons st) (currentPersons st) 0 None.

Definition current (st : merge_state) (k : nat) : person :=
  nth k (currentPersons st) zero_person.

Definition duplicate (st : merge_state) (k : nat) : bool :=
  isDuplicate (id (current st k)) (processedIDs st) (numProcessed st).

(** [newLine == 1]: the unit changed, and this is not the first
    iteration. *)
Definition newLine (st : merge_state) (k : nat) : bool :=
  negb (bool_decide (lastFileIndex st = Some k)) &&
  negb (bool_decide (lastFileIndex st = None)).

(** From the test of [smallestIndex != lastFileIndex] to the end of the
    second [fprintf]: the output file and [lastFileIndex]. *)
Definition write_record (k : nat) (st : merge_state) : merge_state :=
  let p := current st k in
  let dup := duplicate st k in
  let out1 :=
    if newLine st k && negb dup then outFile st ++ [Newline] else outFile st in
  let out2 :=
    if dup then out1
    else out1 ++ [if newLine st k then Record_glued p else Record_spaced p] in
  {| units := units st; currentPersons := currentPersons st;
     activeFiles := activeFiles st; processedIDs := processedIDs st;
     lastFileIndex := Some k; outFile := out2;
     history := history st ++
       [{| sel_unit := k; sel_person := p; sel_written := negb dup |}] |}.

(** [strcpy(processedIDs[numProcessed], id); numProcessed++] *)
Definition store_id (i : string) (st : merge_state) : merge_state :=
  {| units := units st; currentPersons := currentPersons st;
     activeFiles := activeFiles st; processedIDs := processedIDs st ++ [i];
     lastFileIndex := lastFileIndex st; outFile := outFile st;
     history := history st |}.

(** The second [fscanf] and the branch taken when it does not return 7:
    [cleanName] is called there, on a record that [memset] then clears. *)
Definition read_next (k : nat) (st : merge_state) : merge_state :=
  let '(n, q, f') := fscanf_person fmt_next (nth k (units st) "") (current st k) in
  if negb (n =? 7)%Z then
    let q' := with_name q (cleanName (name q)) in
    {| units := <[k := f']> (units st);
       currentPersons := <[k := zero_person]> (currentPersons st);
       activeFiles := (activeFiles st - 1)%Z;
       processedIDs := processedIDs st; lastFileIndex := lastFileIndex st;
       outFile := outFile st; history := history st |}
  else
    {| units := <[k := f']> (units st);
       currentPersons := <[k := q]> (currentPersons st);
       activeFiles := activeFiles st;
       processedIDs := processedIDs st; lastFileIndex := lastFileIndex st;
       outFile := outFile st; history := history st |}.

(** The [while] condition and one run of the loop body.  [capacity] is
    the first dimension of [processedIDs]. *)
Definition merge_step (capacity : nat) (st : merge_state) : outcome :=
  if (activeFiles st <=? 0)%Z then Finished st else
  match smallest st with
  | None => Finished st
  | Some k =>
      if duplicate st k then Continue (read_next k (write_record k st))
      else if (numProcessed st <? capacity)%nat then
        Continue (read_next k (store_id (id (current st k)) (write_record k st)))
      else OutOfBounds (write_record k st)
  end.

Fixpoint merge_loop (capacity fuel : nat) (st : merge_state) : option outcome :=
  match fuel with
  | O => None
  | S fuel' =>
      match merge_step capacity st with
      | Continue st' => merge_loop capacity fuel' st'
      | r => Some r
      end
  end.

Definition initial_state (us : list FILE) (uninit : nat -> person)
    : merge_state :=
  let '(fs, ps, active) := read_first us 0 uninit in
  {| units := fs; currentPersons := ps; activeFiles := active;
     processedIDs := []; lastFileIndex := None; outFile := [];
     history := [] |}.

(** Every iteration either consumes input or retires a unit, so this many
    iterations are enough (lemma [merge_loop_total]). *)
Definition merge_fuel (st : merge_state) : nat :=
  S (sum_list (map String.length (units st)) + Z.to_nat (activeFiles st)).

Definition createDatabase_cap (capacity : nat) (us : list FILE)
    (uninit : nat -> person) : option outcome :=
  let st := initial_state us uninit in
  merge_loop capacity (merge_fuel st) st.

Definition createDatabase : list FILE -> (nat -> person) -> option outcome :=
  createDatabase_cap MAX_UNITS.

Definition final_state (o : outcome) : merge_state :=
  match o with Continue st | Finished st | OutOfBounds st => st end.

(** The records written, in order. *)
Definition record_of (c : fprintf_call) : option person :=
  match c with
  | Newline => None
  | Record_glued p | Record_spaced p => Some p
  end.

Definition written (out : list fprintf_call) : list person :=
  omap record_of out.

(** *** getPotentialDonors *)

Inductive donors_result :=
| Donors (donors : list person) (size : Z)
| DonorsOutOfBounds.   (* donors[donorCount] with donorCount >= MAX_PERSONS *)

Fixpoint donors_loop (fuel : nat) (dbFile : FILE) (patient : person)
    (min_match : Z) (cur0 : person) (donors : list person)
    : option donors_result :=
  match fuel with
  | O => None
  | S fuel' =>
      let '(n, cur, f') := fscanf_person fmt_next dbFile cur0 in
      if (n =? 7)%Z then
        let matches := countGeneMatches cur patient in
        if (matches >=? min_match)%Z then
          if (length donors <? MAX_PERSONS)%nat then
            donors_loop fuel' f' patient min_match cur (donors ++ [cur])
          else Some DonorsOutOfBounds
        else donors_loop fuel' f' patient min_match cur donors
      else Some (Donors donors (Z.of_nat (length donors)))
  end.

(** [database] is the contents of the file that is opened; [cur0] is
    what the local record [current] holds before the first read. *)
Definition getPotentialDonors (database : FILE) (patient : person)
    (min_match : Z) (cur0 : person) : option donors_result :=
  donors_loop (S (String.length database)) database patient min_match
    cur0 [].

(** ** Vocabulary of the specification *)

(** The records that successive reads with the second format yield, up to
    the first read that does not return 7: the records [getPotentialDonors]
    parses from a database, and the records the merge loop loads from a
    unit after the first one.  [S (String.length f)] reads are enough
    (lemma [next_records_fuel]). *)
Fixpoint next_records (fuel : nat) (f : FILE) (cur0 : person) : list person :=
  match fuel with
  | O => []
  | S fuel' =>
      let '(n, cur, f') := fscanf_person fmt_next f cur0 in
      if (n =? 7)%Z then cur :: next_records fuel' f' cur else []
  end.

Definition db_records (f : FILE) (cur0 : person) : list person :=
  next_records (S (String.length f)) f cur0.

(** The records the merge loads from one unit: the first one as the first
    loop leaves it, the others as the merge loop leaves them. *)
Definition unit_records (f : FILE) (cur0 : person) : list person :=
  let '(n, p, f') := fscanf_person fmt_first f cur0 in
  if (n =? 7)%Z
  then
    let p1 := with_name p (cleanName (name p)) in
    p1 :: db_records f' p1
  else [].

Fixpoint all_records (us : list FILE) (i : nat) (uninit : nat -> person)
    : list person :=
  match us with
  | [] => []
  | f :: us' => unit_records f (uninit i) ++ all_records us' (S i) uninit
  end.

Fixpoint has_digit (s : string) : bool :=
  match s with
  | EmptyString => false
  | String c s' => isdigit c || has_digit s'
  end.

Fixpoint ends_with_space (s : string) : bool :=
  match s with
  | EmptyString => false
  | String c EmptyString => isspace c
  | String _ s' => ends_with_space s'
  end.

(** No non-whitespace character before the first digit. *)
Fixpoint blank_name (s : string) : bool :=
  match s with
  | EmptyString => true
  | String c s' => isdigit c || (isspace c && blank_name s')
  end.

(** Non-decreasing order of [name] under [strcmp]. *)
Fixpoint sorted_by_name (l : list person) : bool :=
  match l with
  | p :: (q :: _) as l' => (comparePersons p q <=? 0)%Z && sorted_by_name l'
  | _ => true
  end.

(** First-seen-wins on [id]: a record is kept when no earlier record of
    the sequence, and no identifier of [seen], has its [id]. *)
Fixpoint first_seen (seen : list string) (ps : list person) : list person :=
  match ps with
  | [] => []
  | p :: ps' =>
      if decide (id p ∈ seen) then first_seen seen ps'
      else p :: first_seen (id p :: seen) ps'
  end.

Definition selected (st : merge_state) : list person :=
  map sel_person (history st).

(** The unit of every record written, in order. *)
Definition written_units (st : merge_state) : list nat :=
  map sel_unit (filter (fun s => sel_written s = true) (history st)).

(** Whether each record written used the format without the space between
    the name and the identifier. *)
Definition glued (c : fprintf_call) : option bool :=
  match c with
  | Newline => None
  | Record_glued _ => Some true
  | Record_spaced _ => Some false
  end.

Definition glued_flags (out : list fprintf_call) : list bool := omap glued out.

(** The rule as the specification words it: the first record of every run
    of one unit is glued, the others are spaced. *)
Fixpoint run_starts (prev : option nat) (us : list nat) : list bool :=
  match us with
  | [] => []
  | u :: us' => negb (bool_decide (prev = Some u)) :: run_starts (Some u) us'
  end.

(** The rule the program follows: [prev] is the unit the preceding
    iteration selected, whether or not it wrote its record. *)
Fixpoint format_history (prev : option nat) (h : list selection)
    : list fprintf_call :=
  match h with
  | [] => []
  | s :: h' =>
      let changed :=
        negb (bool_decide (prev = Some (sel_unit s))) &&
        negb (bool_decide (prev = None)) in
      (if sel_written s then
         if changed then [Newline; Record_glued (sel_person s)]
         else [Record_spaced (sel_person s)]
       else []) ++ format_history (Some (sel_unit s)) h'
  end.

(** The match count as the specification words it. *)
Definition match_count (r query : person) : nat :=
  length (filter (fun i => gene r i = gene query i) (seq 0 5)).

Definition meets (query : person) (minMatches : Z) (r : person) : bool :=
  (minMatches <=? Z.of_nat (match_count r query))%Z.

(** Every unit's first read returns 7 and leaves a record whose name is
    not empty. *)
Fixpoint first_records_valid (us : list FILE) (i : nat)
    (uninit : nat -> person) : bool :=
  match us with
  | [] => true
  | f :: us' =>
      match unit_records f (uninit i) with
      | p :: _ => valid p
      | [] => false
      end && first_records_valid us' (S i) uninit
  end.

(** The records still to come from a unit whose current record is [p]. *)
Definition pending_of (p : person) (f : FILE) : list person :=
  if valid p then p :: db_records f p else [].

Definition pending (st : merge_state) : list person :=
  concat (zip_with pending_of (currentPersons st) (units st)).

Definition count_valid (ps : list person) : nat :=
  length (List.filter valid ps).

(** [a] does not come after [b] in the order of [comparePersons]. *)
Definition name_le (a b : person) : Prop := (comparePersons a b <= 0)%Z.

(** [k] is the first of the slots that hold a record with the smallest
    name, among the first [n] slots. *)
Definition least_at (cur : list person) (n k : nat) : Prop :=
  k < n /\ valid (nth k cur zero_person) = true /\
  forall j, j < n -> valid (nth j cur zero_person) = true ->
    (comparePersons (nth k cur zero_person) (nth j cur zero_person) <= 0)%Z /\
    (j < k ->
     (comparePersons (nth k cur zero_person) (nth j cur zero_person) < 0)%Z).

(** Slot [i] holds no record and unit [i] is not read. *)
Definition stuck (i : nat) (f' : FILE) (st : merge_state) : Prop :=
  exists p0,
    currentPersons st !! i = Some p0 /\ valid p0 = false /\
    units st !! i = Some f' /\
    Forall (fun s => sel_unit s <> i) (history st).

Definition sorted_inv (st : merge_state) : Prop :=
  StronglySorted name_le (selected st) /\
  Forall (StronglySorted name_le)
    (zip_with pending_of (currentPersons st) (units st)) /\
  (forall x p, x ∈ selected st -> p ∈ currentPersons st -> valid p = true ->
               name_le x p) /\
  length (units st) = length (currentPersons st).

(** The current record of every unit and the records still to be read
    from it are in order. *)
Definition loaded_in_order (st : merge_state) : bool :=
  forallb sorted_by_name (zip_with pending_of (currentPersons st) (units st)).

(** ** Statements of the specification *)


(** The filter returns the records that meet the threshold, in order, and
    reports their number. *)
Definition returns_all_matches (database : FILE) (query : person)
    (minMatches : Z) (cur0 : person) : Prop :=
  let l := List.filter (meets query minMatches) (db_records database cur0) in
  getPotentialDonors database query minMatches cur0 =
  Some (Donors l (Z.of_nat (length l))).

(** All the records that meet the threshold are returned, however many. *)
Definition returns_every_candidate (database : FILE) (query : person)
    (minMatches : Z) (cur0 : person) : Prop :=
  exists donors size,
    getPotentialDonors database query minMatches cur0 =
      Some (Donors donors size) /\
    forall r, r ∈ db_records database cur0 ->
              meets query minMatches r = true -> r ∈ donors.

(** Merge completeness: the run ends normally, every record of every unit
    is selected exactly once, a selected record is written exactly when
    its identifier was not selected before, and the number of records
    written is the number of records less the repeated identifiers. *)
Definition complete_output (us : list FILE) (uninit : nat -> person) : Prop :=
  exists st,
    createDatabase us uninit = Some (Finished st) /\
    selected st ≡ₚ all_records us 0 uninit /\
    written (outFile st) = first_seen [] (selected st) /\
    length (written (outFile st)) =
      length (remove_dups (map id (all_records us 0 uninit))).

(** The format rule as the specification states it. *)
Definition run_format (us : list FILE) (uninit : nat -> person) : Prop :=
  forall o,
    createDatabase us uninit = Some o ->
    glued_flags (outFile (final_state o)) =
    run_starts None (written_units (final_state o)).

(** The last clause of the statement on [processedIDs]: an input whose
    records hold more than [MAX_UNITS] different identifiers reaches the
    write outside the array. *)
Definition overrun_when_many_ids (us : list FILE) (uninit : nat -> person)
    : Prop :=
  MAX_UNITS < length (remove_dups (map id (all_records us 0 uninit))) ->
  exists st, createDatabase us uninit = Some (OutOfBounds st).

(** The names of the records of a unit after the cleanup. *)
Definition cleaned (p : person) : person := with_name p (cleanName (name p)).

(** ** Test data *)

Definition nl : string := String (ascii_of_nat 10) "".

Definition blank : person := zero_person.
Definition no_stack : nat -> person := fun _ => blank.

(** A unit with one record per line. *)
Fixpoint unit_of_lines (ls : list string) : FILE :=
  match ls with
  | [] => ""
  | [l] => l
  | l :: ls' => l +:+ nl +:+ unit_of_lines ls'
  end.

(** The record of every line, each line read by itself. *)
Definition line_records (ls : list string) : list person :=
  flat_map (fun l => unit_records l blank) ls.

(** The two sources of the specification's example. *)
Definition lines_A : list string :=
  ["Alice 111 X X X X X"; "Carol 333 Y Y Y Y Y"].
Definition lines_B : list string :=
  ["Bob 222 Z Z Z Z Z"; "Carol 333 Y Y Y Y Y"].

Definition unit_A : FILE := unit_of_lines lines_A.
Definition unit_B : FILE := unit_of_lines lines_B.


Definition unit_Alice : FILE := "Alice 111 X X X X X".

(** The second record has no name. *)
Definition unit_C : FILE :=
  "Alice 111 X X X X X" +:+ nl +:+ " 222 Y Y Y Y Y" +:+ nl +:+
  "Bob 333 Z Z Z Z Z".

(** The first record has no name. *)
Definition unit_D : FILE :=
  " 111 X X X X X" +:+ nl +:+ "Bob 222 Y Y Y Y Y".

(** The only record of the second unit has the identifier of the first
    record of the first unit, and a name between its two names. *)
Definition unit_Ann_Cid : FILE :=
  nl +:+ "Ann 111 X X X X X" +:+ nl +:+ "Cid 333 Y Y Y Y Y".
Definition unit_Bob_again : FILE := nl +:+ "Bob 111 Z Z Z Z Z".

(** A name and nothing else: the first read stores the name and fails. *)
Definition unit_Al : FILE := "Al".
Definition unit_Bob_222 : FILE := "Bob 222 Z Z Z Z Z".

Definition digit (n : nat) : ascii := ascii_of_nat (48 + n mod 10).

Definition decimal4 (n : nat) : string :=
  String (digit (n / 1000)) (String (digit (n / 100))
    (String (digit (n / 10)) (String (digit n) ""))).

(** [n] records on [n] lines, with the identifiers 1000, 1001, ... *)
Fixpoint donor_lines (n first : nat) : string :=
  match n with
  | O => ""
  | S n' =>
      "Ann " +:+ decimal4 first +:+ " X X X X X" +:+ nl +:+
      donor_lines n' (S first)
  end.

Definition patient_X : person :=
  {| name := ""; id := ""; genes := ["X"; "X"; "X"; "X"; "X"] |}.

(** A record without name, then 101 records: 102 identifiers. *)
Definition unit_blank_101 : FILE :=
  " 999 X X X X X" +:+ nl +:+ donor_lines 101 1000.

(** ** Invariants of the merge loop and auxiliary notions *)

Definition measure (st : merge_state) : nat :=
  sum_list (map String.length (units st)) + Z.to_nat (activeFiles st).

Definition running (o : outcome) : bool :=
  match o with Continue _ => true | _ => false end.

Definition ids_follow_output (st : merge_state) : Prop :=
  processedIDs st = map id (written (outFile st)) /\
  written (outFile st) = first_seen [] (selected st).

Definition last_unit (prev : option nat) (h : list selection) : option nat :=
  fold_left (fun _ s => Some (sel_unit s)) h prev.

Definition output_follows_history (st : merge_state) : Prop :=
  outFile st = format_history None (history st) /\
  lastFileIndex st = last_unit None (history st).

Definition within_capacity (cap : nat) (st : merge_state) : Prop :=
  ids_follow_output st /\ numProcessed st <= cap.

Definition capacity_outcome (cap : nat) (o : outcome) : Prop :=
  match o with
  | Continue _ => True
  | Finished st =>
      numProcessed st <= cap /\
      length (written (outFile st)) = numProcessed st
  | OutOfBounds st =>
      numProcessed st = cap /\ length (written (outFile st)) = S cap
  end.

Definition donors_outcome (l : list person) : donors_result :=
  if (length l <=? MAX_PERSONS)%nat then Donors l (Z.of_nat (length l))
  else DonorsOutOfBounds.

Definition complete_inv (all : list person) (st : merge_state) : Prop :=
  selected st ++ pending st ≡ₚ all /\
  activeFiles st = Z.of_nat (count_valid (currentPersons st)) /\
  length (units st) = length (currentPersons st).

(** ** Further functions and notions *)

(** [countMismatches]: the second argument is [Some s] while the index is
    within [patientGene] or at its terminator, [s] being what is left of
    the string, and [None] once the index is past the terminator, where a
    read is outside the string.  A byte of [donorGene] is not the
    terminator, so it differs from the terminator of [patientGene]. *)
Fixpoint countMismatches_loop (donorGene : string)
    (patientGene : option string) (mismatches : Z) : option Z :=
  match donorGene with
  | EmptyString => Some mismatches
  | String c d' =>
      match patientGene with
      | None => None
      | Some EmptyString => countMismatches_loop d' None (mismatches + 1)%Z
      | Some (String c' p') =>
          countMismatches_loop d' (Some p')
            (if Ascii.eqb c c' then mismatches else (mismatches + 1)%Z)
      end
  end.

Definition countMismatches (donorGene patientGene : string) : option Z :=
  countMismatches_loop donorGene (Some patientGene) 0.

(** The number of positions, within both strings, at which they differ. *)
Fixpoint differing (d p : string) : nat :=
  match d, p with
  | String c d', String c' p' =>
      (if Ascii.eqb c c' then 0 else 1) + differing d' p'
  | _, _ => 0
  end.

Fixpoint string_forall (ok : ascii -> bool) (s : string) : bool :=
  match s with
  | EmptyString => true
  | String c s' => ok c && string_forall ok s'
  end.

(** What the cleanup keeps of a name, by recursion on the name: nothing
    from the first digit on, and no white space that only white space
    follows. *)
Fixpoint kept (s : string) : string :=
  match s with
  | EmptyString => EmptyString
  | String c s' =>
      if isdigit c then EmptyString
      else
        let r := kept s' in
        if isspace c && is_empty r then EmptyString else String c r
  end.

(** A field read by [%ws]: not empty, at most [w] bytes, no white space. *)
Definition token (w : nat) (s : string) : bool :=
  negb (is_empty s) && (String.length s <=? w)%nat &&
  string_forall (fun c => negb (isspace c)) s.

(** A record whose fields fit the arrays of [person] and the conversions of
    the two formats. *)
Definition well_formed (p : person) : bool :=
  (String.length (name p) <=? 30)%nat && negb (has_digit (name p)) &&
  token 9 (id p) && (length (genes p) =? 5)%nat && forallb (token 21) (genes p).

Definition spaces (n : nat) : string :=
  string_of_list_ascii (repeat " "%char n).

(** The conversions of a format, with their widths and their sets. *)
Definition conversion (d : directive) : option (nat * (ascii -> bool)) :=
  match d with
  | Conv_nondigits w => Some (w, fun c => negb (isdigit c))
  | Conv_s w => Some (w, fun c => negb (isspace c))
  | White => None
  end.

Definition field_ok (s : string) (c : nat * (ascii -> bool)) : Prop :=
  is_empty s = false /\ String.length s <= fst c /\
  string_forall (snd c) s = true.

(** The output can be read back: every record is well formed, and its name
    fits in the 30 columns together with the white space before it, [lead]
    bytes left over from what was written before. *)
Fixpoint rereadable (lead : nat) (out : list fprintf_call) : bool :=
  match out with
  | [] => true
  | Newline :: out' => rereadable (S lead) out'
  | Record_glued p :: out' | Record_spaced p :: out' =>
      well_formed p && (lead + String.length (name p) <=? 30)%nat &&
      rereadable (21 - String.length (gene p 4)) out'
  end.

(** The records as they are read back: the name comes with the white space
    around it. *)
Fixpoint reread (lead : string) (out : list fprintf_call) : list person :=
  match out with
  | [] => []
  | Newline :: out' => reread (lead +:+ String (ascii_of_nat 10) "") out'
  | Record_glued p :: out' | Record_spaced p :: out' =>
      {| name := lead +:+ name p +:+
                 spaces (30 - String.length lead - String.length (name p));
         id := id p; genes := genes p |} ::
      reread (spaces (21 - String.length (gene p 4))) out'
  end.

(** What a record read back from the database has of the record written:
    identifier and genes, and a name of 30 bytes that holds the name
    written between white space. *)
Definition read_back (r p : person) : Prop :=
  id r = id p /\ genes r = genes p /\ String.length (name r) = 30 /\
  exists lead pad,
    string_forall isspace lead = true /\ string_forall isspace pad = true /\
    name r = lead +:+ name p +:+ pad.

(** The calls of [fprintf] of the merge of the specification's example. *)
Definition database_AB : list fprintf_call :=
  match createDatabase [unit_A; unit_B] no_stack with
  | Some o => outFile (final_state o)
  | None => []
  end.

(** A line break comes directly in front of every record written without
    the space, and nowhere else. *)
Fixpoint well_paired (out : list fprintf_call) : bool :=
  match out with
  | [] => true
  | Newline :: Record_glued _ :: out' => well_paired out'
  | Record_spaced _ :: out' => well_paired out'
  | _ => false
  end.

(** The first read of every unit returns 7. *)
Definition first_reads_ok (us : list FILE) : bool :=
  forallb (fun f => (scan_count (vfscanf fmt_first f) =? 7)%Z) us.

(** The records selected from unit [i], in the order selected. *)
Definition from_unit (i : nat) (st : merge_state) : list person :=
  map sel_person (List.filter (fun s => Nat.eqb (sel_unit s) i) (history st)).

(** The current record of unit [i] and the records still to be read from
    it. *)
Definition loaded (i : nat) (st : merge_state) : list person :=
  pending_of (current st i) (nth i (units st) "").

(** The number of bytes of a call of [fprintf] when every field fits its
    column. *)
Definition width (c : fprintf_call) : nat :=
  match c with
  | Newline => 1
  | Record_glued _ => 149
  | Record_spaced _ => 150
  end.

(** *** main: the names of the unit files *)

(** [%d] of an [int] that is not negative. *)
Definition decimal (n : nat) : string :=
  DecimalString.NilEmpty.string_of_uint (Nat.to_uint n).

(** [sprintf(fileName, "%s%d.txt", rootName, i + 1)] into [fileName[50]]:
    no name when the text and its terminator do not fit. *)
Definition unit_file_name (rootName : string) (i : nat) : option string :=
  let fileName := rootName +:+ decimal (i + 1) +:+ ".txt" in
  if (String.length fileName <? 50)%nat then Some fileName else None.

(** ** Reading consumes input *)

Lemma scan_while_length ok w f s f' :
  scan_while ok w f = (s, f') ->
  String.length f = String.length s + String.length f'.
Proof.
  revert f s f'. induction w as [|w IH]; intros f s f' H.
  - destruct f; inversion H; reflexivity.
  - destruct f as [|c r]; simpl in H.
    + inversion H; reflexivity.
    + destruct (ok c).
      * destruct (scan_while ok w r) as [s0 f0] eqn:E.
        inversion H; subst. simpl. rewrite (IH _ _ _ E). reflexivity.
      * inversion H; reflexivity.
Qed.

Lemma skip_space_length f : String.length (skip_space f) <= String.length f.
Proof.
  induction f as [|c r IH]; simpl; [lia|].
  destruct (isspace c); simpl; lia.
Qed.

Lemma is_empty_length s : is_empty s = false -> 0 < String.length s.
Proof. destruct s; simpl; [discriminate | lia]. Qed.

Lemma conv_rest ok w f k :
  (forall g, String.length (rest (k g)) <= String.length g) ->
  String.length (rest (conv ok w f k)) <= String.length f /\
  (assigned (conv ok w f k) <> [] ->
   String.length (rest (conv ok w f k)) < String.length f).
Proof.
  intros Hk. unfold conv.
  destruct (scan_while ok w f) as [s f'] eqn:E.
  apply scan_while_length in E.
  destruct (is_empty s) eqn:Es; simpl.
  - split; [lia | congruence].
  - apply is_empty_length in Es. specialize (Hk f'). split; intros; lia.
Qed.

Lemma vfscanf_rest fmt f :
  String.length (rest (vfscanf fmt f)) <= String.length f /\
  (assigned (vfscanf fmt f) <> [] ->
   String.length (rest (vfscanf fmt f)) < String.length f).
Proof.
  revert f. induction fmt as [|d fmt IH]; intros f; simpl.
  - split; [lia | congruence].
  - destruct d as [w|w|].
    + apply conv_rest. intros g. apply IH.
    + pose proof (skip_space_length f).
      destruct (conv_rest (fun c => negb (isspace c)) w (skip_space f)
                  (vfscanf fmt)) as [H1 H2]; [intros g; apply IH|].
      split; [lia|]. intros Hne. specialize (H2 Hne). lia.
    + pose proof (skip_space_length f).
      destruct (IH (skip_space f)) as [H1 H2].
      split; [lia|]. intros Hne. specialize (H2 Hne). lia.
Qed.

Lemma scan_count_assigned r : (0 < scan_count r)%Z -> assigned r <> [].
Proof.
  unfold scan_count. destruct (assigned r); [|discriminate].
  destruct (input_failure r); unfold EOF; lia.
Qed.

Lemma fscanf_person_rest fmt f p n q f' :
  fscanf_person fmt f p = (n, q, f') ->
  String.length f' <= String.length f /\
  ((0 < n)%Z -> String.length f' < String.length f).
Proof.
  unfold fscanf_person. intros H. inversion H; subst.
  destruct (vfscanf_rest fmt f) as [H1 H2]. split; [exact H1|].
  intros Hn. apply H2, scan_count_assigned, Hn.
Qed.

(** ** One iteration of the merge loop *)

Lemma read_next_frame k st :
  processedIDs (read_next k st) = processedIDs st /\
  lastFileIndex (read_next k st) = lastFileIndex st /\
  outFile (read_next k st) = outFile st /\
  history (read_next k st) = history st.
Proof.
  unfold read_next.
  destruct (fscanf_person fmt_next (nth k (units st) "") (current st k))
    as [[n q] f'].
  destruct (negb (n =? 7)%Z); simpl; auto.
Qed.

Lemma merge_step_cases cap st :
  merge_step cap st = Finished st \/
  exists k,
    smallest st = Some k /\ (0 < activeFiles st)%Z /\
    ((duplicate st k = true /\
      merge_step cap st = Continue (read_next k (write_record k st))) \/
     (duplicate st k = false /\ numProcessed st < cap /\
      merge_step cap st =
        Continue (read_next k
                    (store_id (id (current st k)) (write_record k st)))) \/
     (duplicate st k = false /\ cap <= numProcessed st /\
      merge_step cap st = OutOfBounds (write_record k st))).
Proof.
  unfold merge_step.
  destruct (activeFiles st <=? 0)%Z eqn:Ha; [left; reflexivity|].
  destruct (smallest st) as [k|]; [|left; reflexivity].
  right. exists k. split; [reflexivity|]. split; [lia|].
  destruct (duplicate st k); [left; auto|]. right.
  destruct (numProcessed st <? cap)%nat eqn:Hc.
  - left. apply Nat.ltb_lt in Hc. auto.
  - right. apply Nat.ltb_ge in Hc. auto.
Qed.

(** ** Termination of the merge loop *)

Lemma sum_insert (l : list FILE) k f' :
  String.length f' <= String.length (nth k l "") ->
  sum_list (map String.length (<[k := f']> l)) +
    String.length (nth k l "") =
  sum_list (map String.length l) + String.length f'.
Proof.
  revert k. induction l as [|f l IH]; intros k H.
  - destruct k; simpl in *; lia.
  - destruct k as [|k]; simpl in *; [lia|].
    specialize (IH k H). lia.
Qed.

Lemma read_next_measure k st :
  (0 < activeFiles st)%Z -> measure (read_next k st) < measure st.
Proof.
  intros Ha. unfold read_next, measure.
  destruct (fscanf_person fmt_next (nth k (units st) "") (current st k))
    as [[n q] f'] eqn:E.
  apply fscanf_person_rest in E as [Hle Hlt].
  pose proof (sum_insert (units st) k f' Hle) as Hs.
  destruct (n =? 7)%Z eqn:Hn; simpl.
  - apply Z.eqb_eq in Hn. assert (0 < n)%Z as Hpos by lia.
    specialize (Hlt Hpos). lia.
  - lia.
Qed.

Lemma merge_step_measure cap st st' :
  merge_step cap st = Continue st' -> measure st' < measure st.
Proof.
  intros H.
  destruct (merge_step_cases cap st) as [Hf|(k & _ & Ha & [[_ E]|[(_ & _ & E)|(_ & _ & E)]])];
    rewrite H in *; try discriminate; inversion E; subst.
  - exact (read_next_measure k (write_record k st) Ha).
  - exact (read_next_measure k (store_id _ (write_record k st)) Ha).
Qed.

Lemma merge_loop_total cap fuel st :
  measure st < fuel ->
  exists o, merge_loop cap fuel st = Some o /\ running o = false.
Proof.
  revert st. induction fuel as [|fuel IH]; intros st Hm; [lia|].
  simpl. destruct (merge_step cap st) as [st'|st'|st'] eqn:E.
  - apply IH. apply merge_step_measure in E. lia.
  - eexists; split; reflexivity.
  - eexists; split; reflexivity.
Qed.

Lemma createDatabase_cap_total cap us uninit :
  exists o, createDatabase_cap cap us uninit = Some o /\ running o = false.
Proof.
  unfold createDatabase_cap. apply merge_loop_total.
  unfold merge_fuel, measure. lia.
Qed.

(** A property kept by every iteration gives a property of the outcome. *)
Lemma merge_loop_invariant (I : merge_state -> Prop) (Q : outcome -> Prop) cap :
  (forall st st', I st -> merge_step cap st = Continue st' -> I st') ->
  (forall st o, I st -> merge_step cap st = o -> running o = false -> Q o) ->
  forall fuel st o, I st -> merge_loop cap fuel st = Some o -> Q o.
Proof.
  intros Hstep Hend. induction fuel as [|fuel IH]; intros st o HI H;
    [discriminate|].
  simpl in H. destruct (merge_step cap st) as [st'|st'|st'] eqn:E.
  - apply (IH st'); [|exact H]. apply (Hstep st _ HI E).
  - inversion H; subst. apply (Hend st _ HI E). reflexivity.
  - inversion H; subst. apply (Hend st _ HI E). reflexivity.
Qed.

(** ** Comparing strings *)

Lemma compare_refl (a : string) : String.compare a a = Eq.
Proof.
  induction a as [|c a IH]; simpl; [reflexivity|].
  unfold Ascii.compare. rewrite N.compare_refl. exact IH.
Qed.

Lemma strcmp_eq a b : strcmp a b = 0%Z <-> a = b.
Proof.
  unfold strcmp. split.
  - destruct (String.compare a b) eqn:E; try discriminate.
    intros _. apply String.compare_eq_iff, E.
  - intros ->. rewrite compare_refl. reflexivity.
Qed.

Lemma strcmp_eqb a b : (strcmp a b =? 0)%Z = bool_decide (a = b).
Proof.
  destruct (bool_decide (a = b)) eqn:E.
  - apply bool_decide_eq_true in E. apply Z.eqb_eq, strcmp_eq, E.
  - apply bool_decide_eq_false in E. apply Z.eqb_neq.
    intros H. apply E, strcmp_eq, H.
Qed.

Lemma ascii_compare_lt_trans x y z :
  Ascii.compare x y = Lt -> Ascii.compare y z = Lt -> Ascii.compare x z = Lt.
Proof. unfold Ascii.compare. rewrite !N.compare_lt_iff. lia. Qed.

Lemma compare_lt_trans a b c :
  String.compare a b = Lt -> String.compare b c = Lt ->
  String.compare a c = Lt.
Proof.
  revert b c. induction a as [|x a IH]; intros [|y b] [|z c]; simpl;
    try discriminate; try reflexivity.
  destruct (Ascii.compare x y) eqn:Exy; try discriminate;
    destruct (Ascii.compare y z) eqn:Eyz; try discriminate; intros H1 H2.
  - apply Ascii.compare_eq_iff in Exy, Eyz. subst.
    unfold Ascii.compare. rewrite N.compare_refl. apply (IH b c H1 H2).
  - apply Ascii.compare_eq_iff in Exy. subst. rewrite Eyz. reflexivity.
  - apply Ascii.compare_eq_iff in Eyz. subst. rewrite Exy. reflexivity.
  - rewrite (ascii_compare_lt_trans x y z Exy Eyz). reflexivity.
Qed.

Lemma strcmp_lt a b : (strcmp a b < 0)%Z <-> String.compare a b = Lt.
Proof. unfold strcmp. destruct (String.compare a b); split; (lia || congruence). Qed.

Lemma strcmp_le a b :
  (strcmp a b <= 0)%Z <-> String.compare a b = Lt \/ a = b.
Proof.
  unfold strcmp. destruct (String.compare a b) eqn:E.
  - apply String.compare_eq_iff in E. split; [auto | lia].
  - split; [auto | lia].
  - split; [lia|]. intros [H| ->]; [discriminate|].
    rewrite compare_refl in E. discriminate.
Qed.

Lemma strcmp_le_trans a b c :
  (strcmp a b <= 0)%Z -> (strcmp b c <= 0)%Z -> (strcmp a c <= 0)%Z.
Proof.
  rewrite !strcmp_le. intros [H1| ->] [H2| ->]; auto.
  left. apply (compare_lt_trans a b c H1 H2).
Qed.

Lemma strcmp_lt_le_trans a b c :
  (strcmp a b < 0)%Z -> (strcmp b c <= 0)%Z -> (strcmp a c < 0)%Z.
Proof.
  rewrite strcmp_le, !strcmp_lt. intros H1 [H2| <-]; [|exact H1].
  apply (compare_lt_trans a b c H1 H2).
Qed.

Lemma strcmp_total a b : (strcmp a b < 0)%Z \/ (strcmp b a <= 0)%Z.
Proof.
  unfold strcmp. rewrite (String.compare_antisym a b).
  destruct (String.compare b a); simpl; lia.
Qed.

Lemma strcmp_refl a : strcmp a a = 0%Z.
Proof. apply strcmp_eq. reflexivity. Qed.

#[local] Instance name_le_trans : Transitive name_le.
Proof. intros a b c. unfold name_le, comparePersons. apply strcmp_le_trans. Qed.

Lemma sorted_by_name_Sorted l :
  sorted_by_name l = true <-> StronglySorted name_le l.
Proof.
  split.
  - intros H. apply Sorted_StronglySorted; [apply name_le_trans|].
    induction l as [|p l IH]; [constructor|].
    destruct l as [|q l]; [repeat constructor|].
    simpl in H. apply andb_prop in H as [H1 H2].
    constructor; [apply IH, H2|]. constructor. apply Z.leb_le, H1.
  - intros H. apply StronglySorted_Sorted in H.
    induction H as [|p l Hs IH Hhd]; [reflexivity|].
    destruct l as [|q l]; [reflexivity|].
    simpl. inversion Hhd; subst. apply andb_true_intro.
    split; [apply Z.leb_le; assumption | exact IH].
Qed.

Lemma isDuplicate_elem i (ids : list string) :
  isDuplicate i ids (length ids) = true <-> i ∈ ids.
Proof.
  unfold isDuplicate. rewrite firstn_all. rewrite existsb_exists. split.
  - intros (x & Hx & E). apply Z.eqb_eq, strcmp_eq in E. subst.
    apply list_elem_of_In, Hx.
  - intros H. exists i. split; [apply list_elem_of_In, H|].
    apply Z.eqb_eq, strcmp_eq. reflexivity.
Qed.

Lemma duplicate_elem st k :
  duplicate st k = true <-> id (current st k) ∈ processedIDs st.
Proof. apply isDuplicate_elem. Qed.

(** ** What an iteration writes *)

Lemma written_app out1 out2 : written (out1 ++ out2) = written out1 ++ written out2.
Proof. unfold written. apply omap_app. Qed.

Lemma write_record_outFile k st :
  outFile (write_record k st) =
  outFile st ++
    (if duplicate st k then []
     else if newLine st k then [Newline; Record_glued (current st k)]
     else [Record_spaced (current st k)]).
Proof.
  unfold write_record; simpl.
  destruct (duplicate st k), (newLine st k); simpl;
    rewrite <- ?app_assoc, ?app_nil_r; reflexivity.
Qed.

Lemma write_record_written k st :
  written (outFile (write_record k st)) =
  written (outFile st) ++ (if duplicate st k then [] else [current st k]).
Proof.
  rewrite write_record_outFile, written_app.
  destruct (duplicate st k), (newLine st k); reflexivity.
Qed.

Lemma write_record_selected k st :
  selected (write_record k st) = selected st ++ [current st k].
Proof. unfold selected, write_record; simpl. rewrite map_app. reflexivity. Qed.

(** ** First-seen-wins *)

Lemma first_seen_ids seen ps :
  NoDup (map id (first_seen seen ps)) /\
  (forall p, p ∈ first_seen seen ps -> (id p ∉ seen) /\ (p ∈ ps)).
Proof.
  revert seen. induction ps as [|p ps IH]; intros seen; simpl.
  - split; [constructor | intros q Hq; inversion Hq].
  - destruct (decide (id p ∈ seen)) as [Hin|Hin].
    + destruct (IH seen) as [H1 H2]. split; [exact H1|].
      intros q Hq. destruct (H2 q Hq). split; [assumption|].
      apply elem_of_cons; auto.
    + destruct (IH (id p :: seen)) as [H1 H2]. split.
      * simpl. constructor; [|exact H1].
        intros Hc. apply list_elem_of_fmap in Hc as (q & Hq1 & Hq2).
        destruct (H2 q Hq2) as [Hn _]. apply Hn. rewrite <- Hq1. left.
      * intros q Hq. apply elem_of_cons in Hq as [->|Hq].
        -- split; [exact Hin | left].
        -- destruct (H2 q Hq) as [Hn Hm]. split; [|right; exact Hm].
           intros Hc. apply Hn. right. exact Hc.
Qed.

Lemma first_seen_snoc seen ps p :
  first_seen seen (ps ++ [p]) =
  first_seen seen ps ++
    (if decide (id p ∈ seen ++ map id (first_seen seen ps)) then [] else [p]).
Proof.
  revert seen. induction ps as [|q ps IH]; intros seen; simpl.
  - rewrite app_nil_r. destruct (decide (id p ∈ seen)); reflexivity.
  - destruct (decide (id q ∈ seen)) as [Hin|Hin]; [apply IH|].
    simpl. rewrite IH. f_equal. f_equal.
    apply decide_ext. rewrite !elem_of_app, !elem_of_cons.
    tauto.
Qed.

Lemma read_next_ids_follow_output k st :
  ids_follow_output st -> ids_follow_output (read_next k st).
Proof.
  unfold ids_follow_output, selected.
  destruct (read_next_frame k st) as (-> & _ & -> & ->). auto.
Qed.

Lemma first_seen_step st k :
  ids_follow_output st ->
  written (outFile (write_record k st)) =
  first_seen [] (selected (write_record k st)).
Proof.
  intros [Hids Hout].
  rewrite write_record_written, write_record_selected, first_seen_snoc.
  rewrite <- Hout. f_equal. simpl. rewrite <- Hids.
  destruct (duplicate st k) eqn:Hd.
  - apply duplicate_elem in Hd. rewrite decide_True; auto.
  - rewrite decide_False; [reflexivity|].
    intros Hc. apply duplicate_elem in Hc. congruence.
Qed.

Lemma merge_step_ids_follow_output cap st st' :
  ids_follow_output st -> merge_step cap st = Continue st' ->
  ids_follow_output st'.
Proof.
  intros HI H. pose proof (first_seen_step st) as Hfs.
  destruct (merge_step_cases cap st)
    as [Hf|(k & _ & _ & [[Hd E]|[(Hd & _ & E)|(_ & _ & E)]])];
    rewrite H in *; try discriminate; inversion E; subst;
    apply read_next_ids_follow_output; split; try exact (Hfs k HI).
  - destruct HI as [Hids _].
    change (processedIDs st = map id (written (outFile (write_record k st)))).
    rewrite write_record_written, Hd, app_nil_r. exact Hids.
  - destruct HI as [Hids _].
    change (processedIDs st ++ [id (current st k)] =
            map id (written (outFile (write_record k st)))).
    rewrite write_record_written, Hd, map_app, Hids. reflexivity.
Qed.

Lemma merge_step_first_seen cap st o :
  ids_follow_output st -> merge_step cap st = o -> running o = false ->
  written (outFile (final_state o)) = first_seen [] (selected (final_state o)).
Proof.
  intros HI <- Hr.
  destruct (merge_step_cases cap st)
    as [E|(k & _ & _ & [[Hd E]|[(Hd & _ & E)|(_ & _ & E)]])];
    rewrite E in *; try discriminate.
  - apply HI.
  - apply first_seen_step, HI.
Qed.

Lemma initial_state_fields us uninit :
  processedIDs (initial_state us uninit) = [] /\
  lastFileIndex (initial_state us uninit) = None /\
  outFile (initial_state us uninit) = [] /\
  history (initial_state us uninit) = [].
Proof.
  unfold initial_state. destruct (read_first us 0 uninit) as [[fs ps] a].
  simpl. auto.
Qed.

Lemma createDatabase_cap_first_seen cap us uninit o :
  createDatabase_cap cap us uninit = Some o ->
  written (outFile (final_state o)) = first_seen [] (selected (final_state o)).
Proof.
  apply (merge_loop_invariant ids_follow_output
           (fun o => written (outFile (final_state o)) =
                     first_seen [] (selected (final_state o))) cap).
  - apply merge_step_ids_follow_output.
  - apply merge_step_first_seen.
  - unfold ids_follow_output, selected.
    destruct (initial_state_fields us uninit) as (-> & _ & -> & ->).
    auto.
Qed.

(** ** The format of the records written *)

Lemma format_history_snoc prev h s :
  format_history prev (h ++ [s]) =
  format_history prev h ++ format_history (last_unit prev h) [s].
Proof.
  revert prev. induction h as [|s0 h IH]; intros prev.
  - reflexivity.
  - simpl format_history at 1 2. rewrite IH, <- app_assoc. reflexivity.
Qed.

Lemma last_unit_snoc prev h s :
  last_unit prev (h ++ [s]) = Some (sel_unit s).
Proof. unfold last_unit. rewrite fold_left_app. reflexivity. Qed.

Lemma write_record_follows_history k st :
  output_follows_history st -> output_follows_history (write_record k st).
Proof.
  intros [Hout Hlast]. split.
  - rewrite write_record_outFile. unfold write_record; simpl history.
    rewrite format_history_snoc, <- Hout, <- Hlast. f_equal.
    unfold newLine. simpl.
    destruct (duplicate st k); simpl; [reflexivity|].
    destruct (negb (bool_decide (lastFileIndex st = Some k)) &&
              negb (bool_decide (lastFileIndex st = None))); reflexivity.
  - unfold write_record; simpl. rewrite last_unit_snoc. reflexivity.
Qed.

Lemma read_next_follows_history k st :
  output_follows_history st -> output_follows_history (read_next k st).
Proof.
  unfold output_follows_history.
  destruct (read_next_frame k st) as (_ & -> & -> & ->). auto.
Qed.

Lemma merge_step_follows_history cap st o :
  output_follows_history st -> merge_step cap st = o ->
  output_follows_history (final_state o).
Proof.
  intros HI <-.
  destruct (merge_step_cases cap st)
    as [E|(k & _ & _ & [[Hd E]|[(Hd & _ & E)|(_ & _ & E)]])];
    rewrite E; simpl final_state.
  - exact HI.
  - apply read_next_follows_history, write_record_follows_history, HI.
  - apply read_next_follows_history.
    apply (write_record_follows_history k) in HI. exact HI.
  - apply write_record_follows_history, HI.
Qed.

Lemma createDatabase_cap_follows_history cap us uninit o :
  createDatabase_cap cap us uninit = Some o ->
  output_follows_history (final_state o).
Proof.
  apply (merge_loop_invariant output_follows_history
           (fun o => output_follows_history (final_state o)) cap).
  - intros st st' HI E. apply (merge_step_follows_history cap st _ HI E).
  - intros st o' HI E _. apply (merge_step_follows_history cap st _ HI E).
  - unfold output_follows_history.
    destruct (initial_state_fields us uninit) as (_ & -> & -> & ->).
    auto.
Qed.

Lemma glued_flags_app out1 out2 :
  glued_flags (out1 ++ out2) = glued_flags out1 ++ glued_flags out2.
Proof. unfold glued_flags. apply omap_app. Qed.

Lemma filter_all_written (h : list selection) :
  Forall (fun s => sel_written s = true) h ->
  filter (fun s => sel_written s = true) h = h.
Proof.
  induction 1 as [|s h Hs _ IH]; [reflexivity|].
  rewrite filter_cons, decide_True by exact Hs. f_equal. exact IH.
Qed.

(** When no record is dropped, the rule of the program and the rule of the
    specification agree after the first record. *)
Lemma glued_flags_run_starts v (h : list selection) :
  Forall (fun s => sel_written s = true) h ->
  glued_flags (format_history (Some v) h) =
  run_starts (Some v) (map sel_unit h).
Proof.
  intros H. revert v. induction H as [|s h Hs _ IH]; intros v;
    [reflexivity|].
  cbn [format_history map run_starts]. rewrite Hs, glued_flags_app, IH.
  destruct (bool_decide (Some v = Some (sel_unit s))); reflexivity.
Qed.

Lemma glued_flags_first_run (h : list selection) :
  Forall (fun s => sel_written s = true) h ->
  glued_flags (format_history None h) =
  match run_starts None (map sel_unit h) with
  | [] => []
  | _ :: flags => false :: flags
  end.
Proof.
  intros H. destruct H as [|s h Hs H]; [reflexivity|].
  cbn [format_history map run_starts]. rewrite Hs, glued_flags_app.
  rewrite (glued_flags_run_starts _ _ H). reflexivity.
Qed.

(** ** The capacity of [processedIDs] *)

Lemma read_next_numProcessed k st :
  numProcessed (read_next k st) = numProcessed st.
Proof.
  unfold numProcessed. destruct (read_next_frame k st) as (-> & _).
  reflexivity.
Qed.

Lemma store_id_numProcessed i st :
  numProcessed (store_id i st) = S (numProcessed st).
Proof. unfold numProcessed, store_id; simpl. rewrite length_app. simpl. lia. Qed.

Lemma merge_step_numProcessed cap st st' :
  merge_step cap st = Continue st' ->
  numProcessed st' = numProcessed st \/
  (numProcessed st < cap /\ numProcessed st' = S (numProcessed st)).
Proof.
  intros H.
  destruct (merge_step_cases cap st)
    as [E|(k & _ & _ & [[Hd E]|[(Hd & Hc & E)|(_ & _ & E)]])];
    rewrite H in E; try discriminate; inversion E; subst.
  - left. rewrite read_next_numProcessed. reflexivity.
  - right. split; [exact Hc|].
    rewrite read_next_numProcessed, store_id_numProcessed. reflexivity.
Qed.

Lemma merge_loop_numProcessed cap fuel st o :
  merge_loop cap fuel st = Some o ->
  numProcessed st <= numProcessed (final_state o).
Proof.
  revert st. induction fuel as [|fuel IH]; intros st H; [discriminate|].
  simpl in H. destruct (merge_step cap st) as [st1|st1|st1] eqn:E.
  - apply IH in H. apply merge_step_numProcessed in E. lia.
  - inversion H; subst.
    destruct (merge_step_cases cap st)
      as [E'|(k & _ & _ & [[_ E']|[(_ & _ & E')|(_ & _ & E')]])];
      rewrite E in E'; try discriminate; inversion E'; subst.
    simpl. lia.
  - inversion H; subst.
    destruct (merge_step_cases cap st)
      as [E'|(k & _ & _ & [[_ E']|[(_ & _ & E')|(_ & _ & E')]])];
      rewrite E in E'; try discriminate; inversion E'; subst.
    simpl. unfold numProcessed, write_record. simpl. lia.
Qed.

(** A run that finishes is the same run for every capacity that holds the
    identifiers it stored. *)
Lemma merge_step_capacity cap cap' st :
  (forall st', merge_step cap st = Continue st' -> numProcessed st' <= cap') ->
  (forall st', merge_step cap st <> OutOfBounds st') ->
  merge_step cap' st = merge_step cap st.
Proof.
  intros Hc Hn.
  destruct (merge_step_cases cap st)
    as [E|(k & Hk & Ha & [[Hd E]|[(Hd & Hlt & E)|(_ & _ & E)]])].
  - rewrite E. unfold merge_step in *.
    destruct (activeFiles st <=? 0)%Z; [reflexivity|].
    destruct (smallest st) as [k|]; [|reflexivity].
    destruct (duplicate st k); [discriminate|].
    destruct (numProcessed st <? cap)%nat; discriminate.
  - rewrite E. unfold merge_step.
    destruct (activeFiles st <=? 0)%Z eqn:Hz; [lia|].
    rewrite Hk, Hd. reflexivity.
  - specialize (Hc _ E).
    rewrite read_next_numProcessed, store_id_numProcessed in Hc.
    rewrite E. unfold merge_step.
    destruct (activeFiles st <=? 0)%Z eqn:Hz; [lia|].
    rewrite Hk, Hd.
    change (numProcessed (write_record k st)) with (numProcessed st) in Hc.
    destruct (numProcessed st <? cap')%nat eqn:Hlt'; [reflexivity|].
    apply Nat.ltb_ge in Hlt'. lia.
  - exfalso. apply (Hn _ E).
Qed.

Lemma merge_loop_capacity cap cap' fuel st st' :
  merge_loop cap fuel st = Some (Finished st') ->
  numProcessed st' <= cap' ->
  merge_loop cap' fuel st = Some (Finished st').
Proof.
  revert st. induction fuel as [|fuel IH]; intros st H Hle; [discriminate|].
  simpl in H |- *.
  assert (merge_step cap' st = merge_step cap st) as ->.
  { apply merge_step_capacity.
    - intros st1 E. rewrite E in H.
      apply merge_loop_numProcessed in H. simpl in H. lia.
    - intros st1 E. rewrite E in H. discriminate. }
  destruct (merge_step cap st) as [st1|st1|st1]; [|exact H|discriminate].
  apply IH; assumption.
Qed.

Lemma merge_step_within_capacity cap st st' :
  within_capacity cap st -> merge_step cap st = Continue st' ->
  within_capacity cap st'.
Proof.
  intros [HI Hle] E. split.
  - apply (merge_step_ids_follow_output cap st st' HI E).
  - apply merge_step_numProcessed in E. lia.
Qed.

Lemma merge_step_capacity_outcome cap st o :
  within_capacity cap st -> merge_step cap st = o -> running o = false ->
  capacity_outcome cap o.
Proof.
  intros [[Hids Hout] Hle] <- Hr.
  destruct (merge_step_cases cap st)
    as [E|(k & _ & _ & [[Hd E]|[(Hd & _ & E)|(Hd & Hc & E)]])];
    rewrite E in *; try discriminate; unfold capacity_outcome.
  - split; [exact Hle|]. unfold numProcessed. rewrite Hids, length_map.
    reflexivity.
  - change (numProcessed (write_record k st)) with (numProcessed st).
    split; [lia|]. rewrite write_record_written, Hd, length_app. simpl.
    unfold numProcessed in *. rewrite Hids, length_map in *. lia.
Qed.

Lemma createDatabase_cap_capacity_outcome cap us uninit o :
  createDatabase_cap cap us uninit = Some o -> capacity_outcome cap o.
Proof.
  apply (merge_loop_invariant (within_capacity cap) (capacity_outcome cap) cap).
  - apply merge_step_within_capacity.
  - apply merge_step_capacity_outcome.
  - unfold within_capacity, ids_follow_output, numProcessed, selected.
    destruct (initial_state_fields us uninit) as (-> & _ & -> & ->).
    simpl. repeat split; lia.
Qed.

(** With room for one identifier per iteration the store never fills. *)
Lemma merge_loop_large_capacity cap fuel st :
  numProcessed st + fuel <= cap ->
  forall st', merge_loop cap fuel st <> Some (OutOfBounds st').
Proof.
  revert st. induction fuel as [|fuel IH]; intros st Hle st' H; [discriminate|].
  simpl in H. destruct (merge_step cap st) as [st1|st1|st1] eqn:E.
  - apply (IH st1) in H; [exact H|].
    apply merge_step_numProcessed in E. lia.
  - discriminate.
  - destruct (merge_step_cases cap st)
      as [E'|(k & _ & _ & [[_ E']|[(_ & _ & E')|(_ & Hc & E')]])];
      rewrite E in E'; try discriminate. lia.
Qed.

Lemma createDatabase_large_capacity us uninit :
  exists st,
    createDatabase_cap (merge_fuel (initial_state us uninit)) us uninit =
    Some (Finished st).
Proof.
  destruct (createDatabase_cap_total
              (merge_fuel (initial_state us uninit)) us uninit)
    as ([st|st|st] & H & Hr); try discriminate.
  - exists st. exact H.
  - exfalso. unfold createDatabase_cap in H.
    apply merge_loop_large_capacity in H; [exact H|].
    unfold numProcessed.
    destruct (initial_state_fields us uninit) as (-> & _). simpl. lia.
Qed.

(** ** The donor filter *)

Lemma countGeneMatches_from_count i n donor patient acc :
  countGeneMatches_from i n donor patient acc =
  (acc + Z.of_nat
     (length (filter (fun j => gene donor j = gene patient j) (seq i n))))%Z.
Proof.
  revert i acc. induction n as [|n IH]; intros i acc; simpl.
  - lia.
  - rewrite IH, strcmp_eqb, filter_cons.
    destruct (decide (gene donor i = gene patient i)) as [E|E].
    + rewrite bool_decide_eq_true_2 by exact E. simpl length. lia.
    + rewrite bool_decide_eq_false_2 by exact E. lia.
Qed.

Lemma countGeneMatches_match_count r query :
  countGeneMatches r query = Z.of_nat (match_count r query).
Proof. unfold countGeneMatches. rewrite countGeneMatches_from_count. reflexivity. Qed.

Lemma threshold_meets r query m :
  (countGeneMatches r query >=? m)%Z = meets query m r.
Proof. unfold meets. rewrite countGeneMatches_match_count. apply Z.geb_leb. Qed.

Lemma donors_loop_spec fuel f patient m cur0 donors :
  String.length f < fuel -> length donors <= MAX_PERSONS ->
  donors_loop fuel f patient m cur0 donors =
  Some (donors_outcome
          (donors ++ List.filter (meets patient m) (next_records fuel f cur0))).
Proof.
  revert f cur0 donors.
  induction fuel as [|fuel IH]; intros f cur0 donors Hf Hd; [lia|].
  cbn [donors_loop next_records].
  destruct (fscanf_person fmt_next f cur0) as [[n cur] f'] eqn:E.
  apply fscanf_person_rest in E as [_ Hlt].
  destruct (n =? 7)%Z eqn:Hn.
  - apply Z.eqb_eq in Hn. assert (String.length f' < fuel) by lia.
    cbn [List.filter]. rewrite threshold_meets.
    destruct (meets patient m cur).
    + destruct (length donors <? MAX_PERSONS)%nat eqn:Hc.
      * apply Nat.ltb_lt in Hc. rewrite IH.
        -- rewrite <- app_assoc. reflexivity.
        -- assumption.
        -- rewrite length_app. simpl. lia.
      * apply Nat.ltb_ge in Hc. unfold donors_outcome.
        rewrite length_app. simpl length.
        destruct (_ <=? MAX_PERSONS)%nat eqn:Hc'; [|reflexivity].
        apply Nat.leb_le in Hc'. lia.
    + apply IH; assumption.
  - simpl. rewrite app_nil_r. unfold donors_outcome.
    destruct (_ <=? MAX_PERSONS)%nat eqn:Hc; [reflexivity|].
    apply Nat.leb_gt in Hc. lia.
Qed.

Lemma getPotentialDonors_spec database patient m cur0 :
  getPotentialDonors database patient m cur0 =
  Some (donors_outcome
          (List.filter (meets patient m) (db_records database cur0))).
Proof.
  unfold getPotentialDonors, db_records.
  rewrite donors_loop_spec; [reflexivity | lia | simpl; lia].
Qed.

Lemma out_of_bounds_is_no_list donors size :
  Some DonorsOutOfBounds <> Some (Donors donors size).
Proof. discriminate. Qed.

Lemma meets_threshold_mono query m1 m2 r :
  (m1 <= m2)%Z -> meets query m2 r = true -> meets query m1 r = true.
Proof. unfold meets. rewrite !Z.leb_le. lia. Qed.

Lemma filter_meets_sublist query m1 m2 (l : list person) :
  (m1 <= m2)%Z ->
  sublist (List.filter (meets query m2) l) (List.filter (meets query m1) l).
Proof.
  intros Hm. induction l as [|r l IH]; simpl; [constructor|].
  destruct (meets query m2 r) eqn:E2.
  - rewrite (meets_threshold_mono query m1 m2 r Hm E2).
    apply sublist_skip, IH.
  - destruct (meets query m1 r); [apply sublist_cons|]; exact IH.
Qed.

(** ** Selecting the smallest record *)

Lemma find_smallest_None cur todo i acc :
  find_smallest cur todo i acc = None ->
  acc = None /\ Forall (fun p => valid p = false) todo.
Proof.
  revert i acc. induction todo as [|p todo IH]; intros i acc H; simpl in H.
  - auto.
  - apply IH in H as [Hacc Hall].
    destruct (valid p) eqn:Hv; simpl in Hacc.
    + destruct acc as [s|]; [|discriminate].
      destruct (comparePersons p (nth s cur zero_person) <? 0)%Z; discriminate.
    + subst. auto.
Qed.

Lemma find_smallest_Some cur done todo acc k :
  cur = done ++ todo ->
  (forall s, acc = Some s ->
     s < length done /\ valid (nth s cur zero_person) = true) ->
  find_smallest cur todo (length done) acc = Some k ->
  k < length cur /\ valid (nth k cur zero_person) = true.
Proof.
  revert done acc. induction todo as [|p todo IH]; intros done acc Hcur Hacc H.
  - simpl in H. destruct (Hacc k H) as [Hk Hv]. split; [|exact Hv].
    rewrite Hcur, length_app. lia.
  - simpl in H.
    assert (cur = (done ++ [p]) ++ todo) as Hcur'
      by (rewrite <- app_assoc; exact Hcur).
    replace (S (length done)) with (length (done ++ [p])) in H
      by (rewrite length_app; simpl; lia).
    apply (IH _ _ Hcur') in H; [exact H|].
    intros s Hs. rewrite length_app. simpl.
    destruct (valid p) eqn:Hv; simpl in Hs.
    + destruct (match acc with
                | Some s0 => (comparePersons p (nth s0 cur zero_person) <? 0)%Z
                | None => true
                end).
      * inversion Hs; subst s. split; [lia|].
        rewrite Hcur, app_nth2, Nat.sub_diag by lia. exact Hv.
      * destruct (Hacc s Hs). split; [lia | assumption].
    + destruct (Hacc s Hs). split; [lia | assumption].
Qed.

Lemma smallest_valid st k :
  smallest st = Some k ->
  k < length (currentPersons st) /\ valid (current st k) = true.
Proof.
  unfold smallest, current. intros H.
  apply (find_smallest_Some _ [] (currentPersons st) None k);
    [reflexivity | discriminate | exact H].
Qed.

Lemma smallest_None st :
  smallest st = None -> Forall (fun p => valid p = false) (currentPersons st).
Proof. intros H. apply find_smallest_None in H as [_ H]. exact H. Qed.

Lemma find_smallest_least cur done todo acc k :
  cur = done ++ todo ->
  match acc with
  | Some s => least_at cur (length done) s
  | None => forall j, j < length done -> valid (nth j cur zero_person) = false
  end ->
  find_smallest cur todo (length done) acc = Some k ->
  least_at cur (length cur) k.
Proof.
  revert done acc. induction todo as [|p todo IH]; intros done acc Hcur Hacc H.
  - simpl in H. subst acc. rewrite Hcur, app_nil_r in *. exact Hacc.
  - simpl in H.
    assert (cur = (done ++ [p]) ++ todo) as Hcur'
      by (rewrite <- app_assoc; exact Hcur).
    assert (nth (length done) cur zero_person = p) as Hp
      by (rewrite Hcur, app_nth2, Nat.sub_diag by lia; reflexivity).
    replace (S (length done)) with (length (done ++ [p])) in H
      by (rewrite length_app; simpl; lia).
    apply (IH _ _ Hcur') in H; [exact H|]. clear H IH.
    rewrite length_app. simpl length.
    replace (length done + 1) with (S (length done)) by lia.
    destruct (valid p) eqn:Hv; simpl.
    + destruct acc as [s|].
      * destruct Hacc as (Hs & Hvs & Hleast).
        destruct (comparePersons p (nth s cur zero_person) <? 0)%Z eqn:Hlt.
        -- apply Z.ltb_lt in Hlt. rewrite <- Hp in Hlt.
           split; [lia|]. split; [rewrite Hp; exact Hv|].
           intros j Hj Hvj. destruct (decide (j = length done)) as [->|Hne].
           ++ split; [|lia]. unfold comparePersons. rewrite strcmp_refl. lia.
           ++ destruct (Hleast j ltac:(lia) Hvj) as [Hle _].
              unfold comparePersons in *.
              pose proof (strcmp_lt_le_trans _ _ _ Hlt Hle). split; [lia|auto].
        -- apply Z.ltb_ge in Hlt. split; [lia|]. split; [exact Hvs|].
           intros j Hj Hvj. destruct (decide (j = length done)) as [->|Hne].
           ++ rewrite Hp. split; [|lia]. unfold comparePersons in *.
              destruct (strcmp_total (name p) (name (nth s cur zero_person)));
                lia.
           ++ apply Hleast; [lia | exact Hvj].
      * split; [lia|]. split; [rewrite Hp; exact Hv|].
        intros j Hj Hvj. destruct (decide (j = length done)) as [->|Hne].
        -- split; [|lia]. unfold comparePersons. rewrite strcmp_refl. lia.
        -- rewrite Hacc in Hvj by lia. discriminate.
    + destruct acc as [s|].
      * destruct Hacc as (Hs & Hvs & Hleast).
        split; [lia|]. split; [exact Hvs|].
        intros j Hj Hvj. destruct (decide (j = length done)) as [->|Hne].
        -- rewrite Hp in Hvj. congruence.
        -- apply Hleast; [lia | exact Hvj].
      * intros j Hj. destruct (decide (j = length done)) as [->|Hne].
        -- rewrite Hp. exact Hv.
        -- apply Hacc. lia.
Qed.

Lemma smallest_least st k :
  smallest st = Some k ->
  least_at (currentPersons st) (length (currentPersons st)) k.
Proof.
  unfold smallest. intros H.
  apply (find_smallest_least _ [] (currentPersons st) None k);
    [reflexivity | simpl; intros; lia | exact H].
Qed.

(** ** The records of a unit *)

Lemma next_records_fuel n m f cur0 :
  String.length f < n -> String.length f < m ->
  next_records n f cur0 = next_records m f cur0.
Proof.
  revert m f cur0. induction n as [|n IH]; intros m f cur0 Hn Hm; [lia|].
  destruct m as [|m]; [lia|]. cbn [next_records].
  destruct (fscanf_person fmt_next f cur0) as [[c cur] f'] eqn:E.
  apply fscanf_person_rest in E as [_ Hlt].
  destruct (c =? 7)%Z eqn:Hc; [|reflexivity].
  apply Z.eqb_eq in Hc. f_equal. apply IH; lia.
Qed.

Lemma db_records_unfold f cur0 :
  db_records f cur0 =
  let '(n, cur, f') := fscanf_person fmt_next f cur0 in
  if (n =? 7)%Z then cur :: db_records f' cur else [].
Proof.
  unfold db_records at 1. cbn [next_records].
  destruct (fscanf_person fmt_next f cur0) as [[c cur] f'] eqn:E.
  apply fscanf_person_rest in E as [_ Hlt].
  destruct (c =? 7)%Z eqn:Hc; [|reflexivity].
  apply Z.eqb_eq in Hc. f_equal. apply next_records_fuel; lia.
Qed.

Lemma fscanf_person_valid fmt0 w f p n q f' :
  fscanf_person (Conv_nondigits w :: fmt0) f p = (n, q, f') ->
  (0 < n)%Z -> valid q = true.
Proof.
  unfold fscanf_person. cbn [vfscanf]. unfold conv.
  destruct (scan_while (fun c => negb (isdigit c)) w f) as [s f0].
  destruct (is_empty s) eqn:Es; intros H Hn; inversion H; subst.
  - unfold scan_count in Hn. simpl in Hn.
    destruct (is_empty f'); unfold EOF in Hn; lia.
  - unfold valid. simpl. rewrite Es. reflexivity.
Qed.

Lemma scan_while_nondigits w f s f' :
  scan_while (fun c => negb (isdigit c)) w f = (s, f') -> has_digit s = false.
Proof.
  revert f s f'. induction w as [|w IH]; intros f s f' H.
  - destruct f; inversion H; reflexivity.
  - destruct f as [|c r]; simpl in H; [inversion H; reflexivity|].
    destruct (isdigit c) eqn:Hc; simpl in H; [inversion H; reflexivity|].
    destruct (scan_while (fun c => negb (isdigit c)) w r) as [s0 f0] eqn:E.
    inversion H; subst. simpl. rewrite Hc. apply (IH _ _ _ E).
Qed.

(** A name that was read holds no digit: the conversion stops at the
    first one. *)
Lemma fscanf_person_no_digit fmt0 w f p n q f' :
  fscanf_person (Conv_nondigits w :: fmt0) f p = (n, q, f') ->
  (0 < n)%Z -> has_digit (name q) = false.
Proof.
  unfold fscanf_person. cbn [vfscanf]. unfold conv.
  destruct (scan_while (fun c => negb (isdigit c)) w f) as [s f0] eqn:Es.
  apply scan_while_nondigits in Es.
  destruct (is_empty s); intros H Hn; inversion H; subst.
  - unfold scan_count in Hn. simpl in Hn.
    destruct (is_empty f'); unfold EOF in Hn; lia.
  - simpl. exact Es.
Qed.

(** Reading the next record of unit [k] moves one record from the pending
    ones to the selected ones. *)
Lemma read_next_pending_of p f :
  valid p = true ->
  let '(n, q, f') := fscanf_person fmt_next f p in
  pending_of p f =
  p :: pending_of (if negb (n =? 7)%Z then zero_person else q) f'.
Proof.
  intros Hv. unfold pending_of at 1. rewrite Hv, db_records_unfold.
  destruct (fscanf_person fmt_next f p) as [[n q] f'] eqn:E.
  destruct (n =? 7)%Z eqn:Hn; simpl negb; cbv iota.
  - apply Z.eqb_eq in Hn. unfold pending_of.
    rewrite (fscanf_person_valid _ _ _ _ _ _ _ E) by lia. reflexivity.
  - reflexivity.
Qed.

Lemma pending_insert (ps : list person) (fs : list FILE) k p' f' :
  k < length ps -> length fs = length ps ->
  pending_of (nth k ps zero_person) (nth k fs "") =
    nth k ps zero_person :: pending_of p' f' ->
  concat (zip_with pending_of ps fs) ≡ₚ
  nth k ps zero_person ::
    concat (zip_with pending_of (<[k := p']> ps) (<[k := f']> fs)).
Proof.
  revert fs k. induction ps as [|p ps IH]; intros fs k Hk Hlen Hp;
    [simpl in Hk; lia|].
  destruct fs as [|f fs]; [discriminate|].
  destruct k as [|k]; simpl in *.
  - rewrite Hp. reflexivity.
  - rewrite (IH fs k) by (try lia; exact Hp).
    rewrite Permutation_middle. reflexivity.
Qed.

Lemma count_valid_insert (ps : list person) k p' :
  k < length ps ->
  count_valid (<[k := p']> ps) + (if valid (nth k ps zero_person) then 1 else 0) =
  count_valid ps + (if valid p' then 1 else 0).
Proof.
  unfold count_valid. revert k. induction ps as [|p ps IH]; intros k Hk;
    [simpl in Hk; lia|].
  destruct k as [|k]; simpl in *.
  - destruct (valid p), (valid p'); simpl; lia.
  - specialize (IH k ltac:(lia)). destruct (valid p); simpl; lia.
Qed.

Lemma count_valid_zero (ps : list person) :
  count_valid ps = 0 -> Forall (fun p => valid p = false) ps.
Proof.
  unfold count_valid. induction ps as [|p ps IH]; simpl; [constructor|].
  destruct (valid p) eqn:Hv; simpl; [lia|]. intros H. constructor; auto.
Qed.

Lemma pending_none (ps : list person) (fs : list FILE) :
  Forall (fun p => valid p = false) ps ->
  concat (zip_with pending_of ps fs) = [].
Proof.
  intros H. revert fs. induction H as [|p ps Hp _ IH]; intros fs;
    [reflexivity|].
  destruct fs as [|f fs]; [reflexivity|]. simpl.
  unfold pending_of at 1. rewrite Hp. apply IH.
Qed.

(** ** Completeness of the merge *)

Lemma read_next_complete k st :
  k < length (currentPersons st) -> valid (current st k) = true ->
  length (units st) = length (currentPersons st) ->
  activeFiles st = Z.of_nat (count_valid (currentPersons st)) ->
  pending st ≡ₚ current st k :: pending (read_next k st) /\
  activeFiles (read_next k st) =
    Z.of_nat (count_valid (currentPersons (read_next k st))) /\
  length (units (read_next k st)) = length (currentPersons (read_next k st)).
Proof.
  intros Hk Hv Hlen Ha. unfold pending, read_next.
  pose proof (read_next_pending_of _ (nth k (units st) "") Hv) as Hp.
  destruct (fscanf_person fmt_next (nth k (units st) "") (current st k))
    as [[n q] f'] eqn:E.
  pose proof (count_valid_insert (currentPersons st) k
                (if negb (n =? 7)%Z then zero_person else q) Hk) as Hc.
  fold (current st k) in Hc. rewrite Hv in Hc.
  destruct (n =? 7)%Z eqn:Hn; simpl negb in *; cbv iota in *; simpl.
  - apply Z.eqb_eq in Hn.
    rewrite (fscanf_person_valid _ _ _ _ _ _ _ E) in Hc by lia.
    split; [apply pending_insert; assumption|].
    rewrite !length_insert. split; [lia | assumption].
  - change (valid zero_person) with false in Hc. cbv iota in Hc.
    split; [apply pending_insert; assumption|].
    rewrite !length_insert. split; [lia | assumption].
Qed.

Lemma merge_step_Finished cap st st' :
  merge_step cap st = Finished st' ->
  st' = st /\ ((activeFiles st <= 0)%Z \/ smallest st = None).
Proof.
  unfold merge_step.
  destruct (activeFiles st <=? 0)%Z eqn:Ha.
  - intros H; inversion H; subst. split; [reflexivity|]. left.
    apply Z.leb_le, Ha.
  - destruct (smallest st) as [k|].
    + destruct (duplicate st k); [discriminate|].
      destruct (numProcessed st <? cap)%nat; discriminate.
    + intros H; inversion H; subst. auto.
Qed.

Lemma merge_step_complete cap all st st' :
  complete_inv all st -> merge_step cap st = Continue st' ->
  complete_inv all st'.
Proof.
  intros (Hperm & Ha & Hlen) H.
  destruct (merge_step_cases cap st)
    as [E|(k & Hk & _ & [[_ E]|[(_ & _ & E)|(_ & _ & E)]])];
    rewrite H in E; try discriminate; inversion E; subst;
    apply smallest_valid in Hk as [Hk Hv].
  - destruct (read_next_complete k (write_record k st) Hk Hv Hlen Ha)
      as (Hp & Ha' & Hlen').
    split; [|split; assumption].
    unfold selected. destruct (read_next_frame k (write_record k st))
      as (_ & _ & _ & ->).
    fold (selected (write_record k st)). rewrite write_record_selected.
    rewrite <- app_assoc. simpl. rewrite <- Hperm.
    apply Permutation_app_head. symmetry. exact Hp.
  - set (st1 := store_id (id (current st k)) (write_record k st)).
    destruct (read_next_complete k st1 Hk Hv Hlen Ha) as (Hp & Ha' & Hlen').
    split; [|split; assumption].
    unfold selected. destruct (read_next_frame k st1) as (_ & _ & _ & ->).
    change (history st1) with (history (write_record k st)).
    fold (selected (write_record k st)). rewrite write_record_selected.
    rewrite <- app_assoc. simpl. rewrite <- Hperm.
    apply Permutation_app_head. symmetry. exact Hp.
Qed.

Lemma merge_step_complete_Finished cap all st st' :
  complete_inv all st -> merge_step cap st = Finished st' ->
  selected st' ≡ₚ all.
Proof.
  intros (Hperm & Ha & Hlen) H.
  apply merge_step_Finished in H as [-> Hwhy].
  assert (Forall (fun p => valid p = false) (currentPersons st)) as Hnone.
  { destruct Hwhy as [Hz|Hs]; [|apply smallest_None, Hs].
    apply count_valid_zero. lia. }
  unfold pending in Hperm. rewrite (pending_none _ _ Hnone), app_nil_r in Hperm.
  exact Hperm.
Qed.

Lemma first_seen_covers seen ps p :
  p ∈ ps -> id p ∈ seen \/ id p ∈ map id (first_seen seen ps).
Proof.
  revert seen. induction ps as [|q ps IH]; intros seen Hp;
    [inversion Hp|].
  simpl. apply elem_of_cons in Hp as [->|Hp].
  - destruct (decide (id q ∈ seen)); [left; assumption|].
    right. simpl. left.
  - destruct (decide (id q ∈ seen)); [apply IH, Hp|].
    destruct (IH (id q :: seen) Hp) as [H|H].
    + apply elem_of_cons in H as [->|H]; [right; simpl; left | left; exact H].
    + right. simpl. right. exact H.
Qed.

Lemma first_seen_distinct (ps : list person) :
  length (first_seen [] ps) = length (remove_dups (map id ps)).
Proof.
  rewrite <- (length_map id (first_seen [] ps)).
  apply Permutation_length, NoDup_Permutation.
  - apply first_seen_ids.
  - apply NoDup_remove_dups.
  - intros i. rewrite elem_of_remove_dups. split.
    + intros H. apply list_elem_of_fmap in H as (p & -> & Hp).
      apply list_elem_of_fmap. exists p. split; [reflexivity|].
      apply (first_seen_ids [] ps), Hp.
    + intros H. apply list_elem_of_fmap in H as (p & -> & Hp).
      destruct (first_seen_covers [] ps p Hp) as [H|H]; [inversion H|exact H].
Qed.

Lemma remove_dups_length_Permutation (l1 l2 : list string) :
  l1 ≡ₚ l2 -> length (remove_dups l1) = length (remove_dups l2).
Proof.
  intros H. apply Permutation_length, NoDup_Permutation;
    try apply NoDup_remove_dups.
  intros x. rewrite !elem_of_remove_dups, H. reflexivity.
Qed.

Lemma merge_step_in_bounds cap all st st' :
  complete_inv all st -> ids_follow_output st ->
  length (remove_dups (map id all)) <= cap ->
  merge_step cap st <> OutOfBounds st'.
Proof.
  intros (Hperm & Ha & Hlen) [Hids Hout] Hcap H.
  destruct (merge_step_cases cap st)
    as [E|(k & Hk & _ & [[_ E]|[(_ & _ & E)|(Hd & Hc & E)]])];
    rewrite H in E; try discriminate.
  apply smallest_valid in Hk as [Hk Hv].
  destruct (read_next_complete k st Hk Hv Hlen Ha) as (Hp & _).
  assert (NoDup (id (current st k) :: processedIDs st)) as Hnd.
  { constructor.
    - intros Hin. apply duplicate_elem in Hin. congruence.
    - rewrite Hids, Hout. apply first_seen_ids. }
  assert (id (current st k) :: processedIDs st ⊆+ remove_dups (map id all))
    as Hsub.
  { apply NoDup_submseteq; [exact Hnd|]. intros i Hi.
    apply elem_of_remove_dups. rewrite <- Hperm, map_app, elem_of_app.
    apply elem_of_cons in Hi as [->|Hi].
    - right. apply list_elem_of_fmap. exists (current st k).
      split; [reflexivity|]. rewrite Hp. left.
    - left. rewrite Hids, Hout in Hi.
      apply list_elem_of_fmap in Hi as (p & -> & Hp').
      apply list_elem_of_fmap. exists p. split; [reflexivity|].
      apply (first_seen_ids [] (selected st)), Hp'. }
  apply submseteq_length in Hsub. simpl in Hsub. unfold numProcessed in Hc.
  lia.
Qed.

Lemma read_first_complete us i uninit fs ps a :
  read_first us i uninit = (fs, ps, a) ->
  first_records_valid us i uninit = true ->
  concat (zip_with pending_of ps fs) = all_records us i uninit /\
  a = Z.of_nat (count_valid ps) /\ length fs = length ps.
Proof.
  revert i fs ps a. induction us as [|f us IH]; intros i fs ps a H Hv.
  - inversion H; subst. simpl. auto.
  - cbn [read_first first_records_valid all_records] in *.
    unfold unit_records in *.
    destruct (fscanf_person fmt_first f (uninit i)) as [[n p] f'].
    destruct (read_first us (S i) uninit) as [[fs0 ps0] a0] eqn:E.
    destruct (n =? 7)%Z; [|discriminate].
    apply andb_prop in Hv as [Hp Hv].
    destruct (IH _ _ _ _ E Hv) as (H1 & H2 & H3).
    inversion H; subst. simpl. unfold pending_of at 1, count_valid.
    simpl. rewrite Hp. simpl. rewrite H1.
    repeat split; try lia.
Qed.

Lemma initial_state_complete us uninit :
  first_records_valid us 0 uninit = true ->
  complete_inv (all_records us 0 uninit) (initial_state us uninit).
Proof.
  intros Hv. unfold complete_inv, pending, selected, initial_state.
  destruct (read_first us 0 uninit) as [[fs ps] a] eqn:E.
  destruct (read_first_complete _ _ _ _ _ _ E Hv) as (H1 & H2 & H3).
  simpl. rewrite H1. auto.
Qed.

(** How a run ends when the first read of every unit gives a record with
    a name: normally, with every record selected, or at the write outside
    [processedIDs], and then the units hold more identifiers than the
    array has room for. *)
Lemma createDatabase_cap_complete_outcome cap us uninit o :
  first_records_valid us 0 uninit = true ->
  createDatabase_cap cap us uninit = Some o ->
  match o with
  | Continue _ => False
  | Finished st =>
      selected st ≡ₚ all_records us 0 uninit /\
      written (outFile st) = first_seen [] (selected st)
  | OutOfBounds _ =>
      cap < length (remove_dups (map id (all_records us 0 uninit)))
  end.
Proof.
  intros Hv. set (all := all_records us 0 uninit).
  apply (merge_loop_invariant
           (fun st => complete_inv all st /\ ids_follow_output st)
           (fun o =>
              match o with
              | Continue _ => False
              | Finished st =>
                  selected st ≡ₚ all /\
                  written (outFile st) = first_seen [] (selected st)
              | OutOfBounds _ => cap < length (remove_dups (map id all))
              end) cap).
  - intros st st' [Hc Hi] E. split.
    + apply (merge_step_complete _ _ _ _ Hc E).
    + apply (merge_step_ids_follow_output _ _ _ Hi E).
  - intros st [st'|st'|st'] [Hc Hi] E Hend.
    + discriminate Hend.
    + split; [apply (merge_step_complete_Finished _ _ _ _ Hc E)|].
      apply merge_step_Finished in E as [-> _]. apply Hi.
    + destruct (le_lt_dec (length (remove_dups (map id all))) cap)
        as [Hle|Hlt]; [|exact Hlt].
      destruct (merge_step_in_bounds cap all st st' Hc Hi Hle E).
  - split; [apply initial_state_complete, Hv|].
    unfold ids_follow_output, selected.
    destruct (initial_state_fields us uninit) as (-> & _ & -> & ->).
    auto.
Qed.

(** ** The order of the records selected *)

Lemma StronglySorted_sublist (l1 l2 : list person) :
  sublist l1 l2 -> StronglySorted name_le l2 -> StronglySorted name_le l1.
Proof.
  intros Hsub. induction Hsub as [|x l1 l2 Hsub IH|x l1 l2 Hsub IH];
    intros H; [constructor| |].
  - apply StronglySorted_cons in H as [Hall Hs].
    apply StronglySorted_cons. split; [|apply IH, Hs].
    apply Forall_forall. intros y Hy.
    apply (proj1 (Forall_forall _ _) Hall), (elem_of_sublist _ _ _ Hy Hsub).
  - apply StronglySorted_cons in H as [_ Hs]. apply IH, Hs.
Qed.

Lemma first_seen_sublist seen ps : sublist (first_seen seen ps) ps.
Proof.
  revert seen. induction ps as [|p ps IH]; intros seen; simpl; [constructor|].
  destruct (decide (id p ∈ seen)); [apply sublist_cons | apply sublist_skip];
    apply IH.
Qed.

Lemma elem_of_insert_inv (l : list person) k x p :
  p ∈ <[k := x]> l -> p = x \/ p ∈ l.
Proof.
  intros H. apply list_elem_of_lookup in H as [j Hj].
  apply list_lookup_insert_Some in Hj as [(_ & -> & _)|[_ Hj]]; [auto|].
  right. apply (list_elem_of_lookup_2 _ _ _ Hj).
Qed.

Lemma read_next_sorted k st :
  k < length (currentPersons st) -> valid (current st k) = true ->
  length (units st) = length (currentPersons st) ->
  Forall (StronglySorted name_le)
    (zip_with pending_of (currentPersons st) (units st)) ->
  (forall p, p ∈ currentPersons st -> valid p = true ->
             name_le (current st k) p) ->
  Forall (StronglySorted name_le)
    (zip_with pending_of (currentPersons (read_next k st))
       (units (read_next k st))) /\
  (forall p, p ∈ currentPersons (read_next k st) -> valid p = true ->
             name_le (current st k) p) /\
  length (units (read_next k st)) = length (currentPersons (read_next k st)).
Proof.
  intros Hk Hv Hlen Hall Hmin.
  destruct (lookup_lt_is_Some_2 (currentPersons st) k Hk) as [pk Hpk].
  destruct (lookup_lt_is_Some_2 (units st) k ltac:(lia)) as [f Hf].
  assert (current st k = pk) as Hcur by (apply nth_lookup_Some, Hpk).
  assert (nth k (units st) "" = f) as Hnth by (apply nth_lookup_Some, Hf).
  assert (StronglySorted name_le (pending_of pk f)) as Hs.
  { apply (Forall_lookup_1 _ _ k _ Hall).
    rewrite lookup_zip_with, Hpk, Hf. reflexivity. }
  rewrite Hcur in *.
  pose proof (read_next_pending_of pk f Hv) as Hp.
  unfold read_next. rewrite Hcur, Hnth.
  destruct (fscanf_person fmt_next f pk) as [[n q] f'] eqn:E.
  rewrite Hp in Hs. apply StronglySorted_cons in Hs as [Hhd Htl].
  assert (forall q', q' = (if negb (n =? 7)%Z then zero_person else q) ->
            Forall (StronglySorted name_le)
              (zip_with pending_of (<[k := q']> (currentPersons st))
                 (<[k := f']> (units st))) /\
            (forall p, p ∈ <[k := q']> (currentPersons st) ->
                       valid p = true -> name_le pk p) /\
            length (<[k := f']> (units st)) =
              length (<[k := q']> (currentPersons st))) as Hgoal.
  { intros q' ->. split; [|split].
    - rewrite <- insert_zip_with. apply Forall_insert; assumption.
    - intros p Hin Hvp. apply elem_of_insert_inv in Hin as [->|Hin];
        [|apply Hmin; assumption].
      apply (proj1 (Forall_forall _ _) Hhd).
      unfold pending_of. rewrite Hvp. left.
    - rewrite !length_insert. exact Hlen. }
  destruct (negb (n =? 7)%Z); simpl; apply Hgoal; reflexivity.
Qed.

Lemma smallest_min st k :
  smallest st = Some k ->
  forall p, p ∈ currentPersons st -> valid p = true -> name_le (current st k) p.
Proof.
  intros H p Hin Hv. apply smallest_least in H as (_ & _ & Hleast).
  apply list_elem_of_lookup in Hin as [j Hj].
  pose proof (lookup_lt_Some _ _ _ Hj) as Hlt.
  apply (nth_lookup_Some _ _ zero_person) in Hj.
  destruct (Hleast j Hlt) as [Hle _]; [rewrite Hj; exact Hv|].
  unfold name_le, current. rewrite Hj in Hle. exact Hle.
Qed.

Lemma write_record_sorted k st :
  sorted_inv st -> smallest st = Some k ->
  StronglySorted name_le (selected (write_record k st)) /\
  (forall x p, x ∈ selected (write_record k st) ->
     (forall p', p' ∈ currentPersons st -> valid p' = true ->
                 name_le (current st k) p') ->
     name_le (current st k) p -> name_le x p).
Proof.
  intros (Hs & _ & Hbound & _) Hk.
  destruct (smallest_valid st k Hk) as [Hlt Hv].
  assert (current st k ∈ currentPersons st) as Hin.
  { unfold current. destruct (lookup_lt_is_Some_2 _ _ Hlt) as [pk Hpk].
    rewrite (nth_lookup_Some _ _ _ _ Hpk).
    apply (list_elem_of_lookup_2 _ _ _ Hpk). }
  rewrite write_record_selected. split.
  - apply StronglySorted_app. split; [|split; [exact Hs | repeat constructor]].
    intros x y Hx Hy. apply list_elem_of_singleton in Hy as ->.
    apply (Hbound x _ Hx Hin Hv).
  - intros x p Hx _ Hp. apply elem_of_app in Hx as [Hx|Hx].
    + transitivity (current st k); [apply (Hbound x _ Hx Hin Hv) | exact Hp].
    + apply list_elem_of_singleton in Hx as ->. exact Hp.
Qed.

Lemma merge_step_sorted cap st st' :
  sorted_inv st -> merge_step cap st = Continue st' -> sorted_inv st'.
Proof.
  intros HI H. pose proof HI as (Hs & Hall & Hbound & Hlen).
  destruct (merge_step_cases cap st)
    as [E|(k & Hk & _ & [[_ E]|[(_ & _ & E)|(_ & _ & E)]])];
    rewrite H in E; try discriminate; inversion E; subst;
    destruct (smallest_valid st k Hk) as [Hlt Hv];
    pose proof (smallest_min st k Hk) as Hmin;
    destruct (write_record_sorted k st HI Hk) as [Hs' Hb'].
  - destruct (read_next_sorted k (write_record k st) Hlt Hv Hlen Hall Hmin)
      as (Hall' & Hmin' & Hlen').
    unfold sorted_inv, selected.
    destruct (read_next_frame k (write_record k st)) as (_ & _ & _ & ->).
    split; [exact Hs'|]. split; [exact Hall'|]. split; [|exact Hlen'].
    intros x p Hx Hp Hvp. apply (Hb' x p Hx Hmin), (Hmin' p Hp Hvp).
  - set (st1 := store_id (id (current st k)) (write_record k st)).
    destruct (read_next_sorted k st1 Hlt Hv Hlen Hall Hmin)
      as (Hall' & Hmin' & Hlen').
    unfold sorted_inv, selected.
    destruct (read_next_frame k st1) as (_ & _ & _ & ->).
    split; [exact Hs'|]. split; [exact Hall'|]. split; [|exact Hlen'].
    intros x p Hx Hp Hvp. apply (Hb' x p Hx Hmin), (Hmin' p Hp Hvp).
Qed.

Lemma merge_step_sorted_outcome cap st o :
  sorted_inv st -> merge_step cap st = o -> running o = false ->
  StronglySorted name_le (selected (final_state o)).
Proof.
  intros HI <- Hr.
  destruct (merge_step_cases cap st)
    as [E|(k & Hk & _ & [[_ E]|[(_ & _ & E)|(_ & _ & E)]])];
    rewrite E in *; try discriminate.
  - apply HI.
  - apply (write_record_sorted k st HI Hk).
Qed.

Lemma read_first_length us i uninit fs ps a :
  read_first us i uninit = (fs, ps, a) -> length fs = length ps.
Proof.
  revert i fs ps a. induction us as [|f us IH]; intros i fs ps a H.
  - inversion H. reflexivity.
  - cbn [read_first] in H.
    destruct (fscanf_person fmt_first f (uninit i)) as [[n p] f'].
    destruct (read_first us (S i) uninit) as [[fs0 ps0] a0] eqn:E.
    apply IH in E.
    destruct (n =? 7)%Z; inversion H; subst; simpl; lia.
Qed.

Lemma initial_state_sorted us uninit :
  loaded_in_order (initial_state us uninit) = true ->
  sorted_inv (initial_state us uninit).
Proof.
  unfold loaded_in_order, sorted_inv, selected, initial_state.
  destruct (read_first us 0 uninit) as [[fs ps] a] eqn:E. simpl.
  intros H. split; [constructor|]. split; [|split].
  - apply Forall_forall. intros l Hl. apply sorted_by_name_Sorted.
    apply (proj1 (forallb_forall _ _) H), list_elem_of_In, Hl.
  - intros x p Hx. inversion Hx.
  - apply (read_first_length _ _ _ _ _ _ E).
Qed.

(** What the loop does keep: when the current record of every unit and the
    records still to be read from it are in order of the names as loaded,
    the records written are in order of name. *)
Lemma merge_sorted_by_loaded_names us uninit :
  loaded_in_order (initial_state us uninit) = true ->
  exists o,
    createDatabase us uninit = Some o /\ running o = false /\
    sorted_by_name (written (outFile (final_state o))) = true.
Proof.
  intros Hl.
  destruct (createDatabase_cap_total MAX_UNITS us uninit) as (o & H & Hr).
  exists o. split; [exact H|]. split; [exact Hr|].
  apply sorted_by_name_Sorted.
  rewrite (createDatabase_cap_first_seen _ _ _ _ H).
  apply (StronglySorted_sublist _ _ (first_seen_sublist _ _)).
  apply (fun H1 H2 H3 =>
           merge_loop_invariant sorted_inv
             (fun o => StronglySorted name_le (selected (final_state o)))
             MAX_UNITS H1 H2 _ _ _ H3 H).
  - apply merge_step_sorted.
  - apply merge_step_sorted_outcome.
  - apply initial_state_sorted, Hl.
Qed.

(** The condition is met by the two units of the specification's example
    when each file begins with a line break, so that every name is loaded
    with one: the records are then written in the order Alice, Bob, Carol. *)
Example merge_sorted_by_loaded_names_example :
  loaded_in_order
    (initial_state [nl +:+ unit_A; nl +:+ unit_B] no_stack) = true /\
  exists st,
    createDatabase [nl +:+ unit_A; nl +:+ unit_B] no_stack =
      Some (Finished st) /\
    map id (written (outFile st)) = ["111"; "222"; "333"].
Proof.
  split; [vm_compute; reflexivity|].
  eexists. split; vm_compute; reflexivity.
Qed.

(** ** A unit whose first record has no name *)

Lemma cleanName_loop_blank s i last :
  blank_name s = true -> cleanName_loop s i last = last.
Proof.
  revert i. induction s as [|c s IH]; intros i H; simpl in *; [reflexivity|].
  destruct (isdigit c); [reflexivity|]. simpl in H.
  apply andb_prop in H as [Hc Hs]. rewrite Hc. apply IH, Hs.
Qed.

Lemma cleanName_blank s : blank_name s = true -> cleanName s = "".
Proof.
  intros H. unfold cleanName. rewrite (cleanName_loop_blank s 0 (-1) H).
  destruct s; reflexivity.
Qed.

Lemma read_first_lookup us j uninit fs ps a i f :
  read_first us j uninit = (fs, ps, a) -> us !! i = Some f ->
  let '(n, p, f') := fscanf_person fmt_first f (uninit (j + i)) in
  fs !! i = Some f' /\
  ps !! i = Some (if (n =? 7)%Z then with_name p (cleanName (name p)) else p).
Proof.
  revert j fs ps a i. induction us as [|f0 us IH]; intros j fs ps a i H Hi;
    [discriminate|].
  cbn [read_first] in H.
  destruct (fscanf_person fmt_first f0 (uninit j)) as [[n0 p0] f0'] eqn:E0.
  destruct (read_first us (S j) uninit) as [[fs0 ps0] a0] eqn:E.
  destruct i as [|i].
  - inversion Hi; subst f0. rewrite Nat.add_0_r, E0.
    destruct (n0 =? 7)%Z; inversion H; subst; auto.
  - simpl in Hi. specialize (IH _ _ _ _ i E Hi).
    replace (j + S i) with (S j + i) by lia.
    destruct (fscanf_person fmt_first f (uninit (S j + i))) as [[n p] f'].
    destruct (n0 =? 7)%Z; inversion H; subst; exact IH.
Qed.

Lemma read_next_other k i st :
  k <> i ->
  currentPersons (read_next k st) !! i = currentPersons st !! i /\
  units (read_next k st) !! i = units st !! i.
Proof.
  intros Hne. unfold read_next.
  destruct (fscanf_person fmt_next (nth k (units st) "") (current st k))
    as [[n q] f'].
  destruct (negb (n =? 7)%Z); simpl;
    rewrite !list_lookup_insert_ne by exact Hne; auto.
Qed.

Lemma merge_step_stuck cap i f' st o :
  stuck i f' st -> merge_step cap st = o -> stuck i f' (final_state o).
Proof.
  intros (p0 & Hp0 & Hv0 & Hf & Hh) <-.
  destruct (merge_step_cases cap st)
    as [E|(k & Hk & _ & Hcase)]; [rewrite E; exists p0; auto|].
  assert (k <> i) as Hne.
  { intros ->. apply smallest_valid in Hk as [_ Hv].
    unfold current in Hv. rewrite (nth_lookup_Some _ _ _ _ Hp0) in Hv.
    congruence. }
  assert (Forall (fun s => sel_unit s <> i) (history (write_record k st)))
    as Hh'.
  { unfold write_record; simpl. apply Forall_app. split; [exact Hh|].
    repeat constructor. exact Hne. }
  destruct Hcase as [[_ E]|[(_ & _ & E)|(_ & _ & E)]]; rewrite E;
    simpl final_state; exists p0.
  - destruct (read_next_other k i (write_record k st) Hne) as [-> ->].
    destruct (read_next_frame k (write_record k st)) as (_ & _ & _ & ->).
    auto.
  - set (st1 := store_id (id (current st k)) (write_record k st)).
    destruct (read_next_other k i st1 Hne) as [-> ->].
    destruct (read_next_frame k st1) as (_ & _ & _ & ->). auto.
  - auto.
Qed.

(** The part of C10 that the program does: when the first record of unit
    [i] is read with a name that has no character other than white space
    before its first digit, the cleanup leaves the empty name, the run
    still ends, no iteration selects unit [i], and the unit is left where
    the first read left it. *)
Lemma blank_first_name_stuck us uninit i f p f' :
  us !! i = Some f ->
  fscanf_person fmt_first f (uninit i) = (7%Z, p, f') ->
  blank_name (name p) = true ->
  cleanName (name p) = "" /\
  exists o,
    createDatabase us uninit = Some o /\ running o = false /\
    units (final_state o) !! i = Some f' /\
    Forall (fun s => sel_unit s <> i) (history (final_state o)).
Proof.
  intros Hi E Hb. pose proof (cleanName_blank _ Hb) as Hc.
  split; [exact Hc|].
  destruct (createDatabase_cap_total MAX_UNITS us uninit) as (o & H & Hr).
  exists o. split; [exact H|]. split; [exact Hr|].
  assert (stuck i f' (final_state o)) as (p0 & _ & _ & Hf & Hh).
  { apply (fun H1 H2 H3 =>
             merge_loop_invariant (stuck i f')
               (fun o => stuck i f' (final_state o))
               MAX_UNITS H1 H2 _ _ _ H3 H).
    - intros st st' HI Es. apply (merge_step_stuck _ _ _ _ _ HI Es).
    - intros st o' HI Es _. apply (merge_step_stuck _ _ _ _ _ HI Es).
    - unfold stuck, initial_state.
      destruct (read_first us 0 uninit) as [[fs ps] a] eqn:Er.
      pose proof (read_first_lookup _ _ _ _ _ _ _ _ Er Hi) as Hl.
      change (0 + i) with i in Hl. rewrite E in Hl.
      destruct Hl as [Hfs Hps]. simpl in Hps.
      eexists. simpl. split; [exact Hps|]. split; [|split; [exact Hfs|]].
      + unfold valid. simpl. rewrite Hc. reflexivity.
      + constructor. }
  auto.
Qed.

(** ** The claims *)

(** C1.  The merge does not keep the order of names.  The two units of the
    specification's own example, one record per line, are each sorted by
    name, yet the records are written in the order Alice, Carol, Bob: the
    second record of the first unit is loaded with the line break that
    precedes it as the first byte of its name, and so compares below
    "Bob".  The names written are out of order both as written and after
    the cleanup. *)
Theorem merge_output_out_of_order uninit :
  map name (line_records lines_A) = ["Alice"; "Carol"] /\
  map name (line_records lines_B) = ["Bob"; "Carol"] /\
  sorted_by_name (line_records lines_A) = true /\
  sorted_by_name (line_records lines_B) = true /\
  exists st,
    createDatabase [unit_A; unit_B] uninit = Some (Finished st) /\
    map name (written (outFile st)) = ["Alice"; nl +:+ "Carol "; "Bob"] /\
    map id (written (outFile st)) = ["111"; "333"; "222"] /\
    sorted_by_name (written (outFile st)) = false /\
    sorted_by_name (map cleaned (written (outFile st))) = false.
Proof.
  do 4 (split; [vm_compute; reflexivity|]).
  eexists. split; [vm_compute; reflexivity|].
  repeat split; vm_compute; reflexivity.
Qed.



(** C3.  The cleanup is not applied to every record read.  In the merge
    loop [cleanName] is called only when the read fails, and
    [getPotentialDonors] never calls it: the second record of a unit is
    written with the white space that follows its name, and the filter
    returns the first record of a database with that white space. *)
Theorem later_names_not_cleaned uninit cur0 :
  (exists st,
     createDatabase [unit_A] uninit = Some (Finished st) /\
     map name (written (outFile st)) = ["Alice"; nl +:+ "Carol "] /\
     map (fun p => ends_with_space (name p)) (written (outFile st)) =
       [false; true]) /\
  (exists r,
     getPotentialDonors unit_Alice patient_X 5 cur0 = Some (Donors [r] 1) /\
     name r = "Alice " /\ ends_with_space (name r) = true /\
     cleanName (name r) = "Alice").
Proof.
  split.
  - eexists. split; [vm_compute; reflexivity|].
    split; vm_compute; reflexivity.
  - eexists. split; [vm_compute; reflexivity|].
    repeat split; vm_compute; reflexivity.
Qed.

(** C4 as stated fails: of 1001 records that all meet the threshold 0 the
    filter stores 1000 and then writes past the end of [donors]. *)
Lemma filter_exceeds_buffer :
  ~ returns_all_matches (donor_lines 1001 1000) blank 0 blank.
Proof.
  unfold returns_all_matches. rewrite getPotentialDonors_spec.
  unfold donors_outcome.
  assert ((length (List.filter (meets blank 0)
                     (db_records (donor_lines 1001 1000) blank))
           <=? MAX_PERSONS)%nat = false) as E by (vm_compute; reflexivity).
  rewrite E. apply out_of_bounds_is_no_list.
Qed.

(** C4, amended.  When at most [MAX_PERSONS] records meet the threshold,
    the filter returns exactly the parsed records whose match count (the
    number of positions at which the genes are equal) is at least the
    threshold, in the order of the stream, and reports their number. *)
Theorem filter_returns_matches database query minMatches cur0 :
  length (List.filter (meets query minMatches) (db_records database cur0))
    <= MAX_PERSONS ->
  returns_all_matches database query minMatches cur0.
Proof.
  intros H. unfold returns_all_matches. rewrite getPotentialDonors_spec.
  unfold donors_outcome. apply Nat.leb_le in H. rewrite H. reflexivity.
Qed.

Lemma filter_returns_matches_witness :
  length (List.filter (meets patient_X 5) (db_records unit_A blank))
    <= MAX_PERSONS /\
  returns_all_matches unit_A patient_X 5 blank.
Proof.
  assert (length (List.filter (meets patient_X 5) (db_records unit_A blank))
          <= MAX_PERSONS) as H by (apply Nat.leb_le; vm_compute; reflexivity).
  split; [exact H|]. apply (filter_returns_matches _ _ _ _ H).
Defined.

(** C5 as stated fails: 1001 records meet the threshold and no list is
    returned. *)
Lemma candidates_are_bounded :
  ~ returns_every_candidate (donor_lines 1001 1000) patient_X 5 blank.
Proof.
  intros (donors & size & H & _). rewrite getPotentialDonors_spec in H.
  unfold donors_outcome in H.
  assert ((length (List.filter (meets patient_X 5)
                     (db_records (donor_lines 1001 1000) blank))
           <=? MAX_PERSONS)%nat = false) as E by (vm_compute; reflexivity).
  rewrite E in H. exact (out_of_bounds_is_no_list _ _ H).
Qed.

(** C5, amended.  The candidate list is a buffer of [MAX_PERSONS] records
    written without a check: when [K <= MAX_PERSONS] records meet the
    threshold all [K] are returned, and when more do the write of record
    number [MAX_PERSONS + 1] is out of bounds. *)
Theorem candidates_capacity database query minMatches cur0 :
  let l := List.filter (meets query minMatches) (db_records database cur0) in
  getPotentialDonors database query minMatches cur0 =
  Some (if (length l <=? MAX_PERSONS)%nat
        then Donors l (Z.of_nat (length l))
        else DonorsOutOfBounds).
Proof. apply getPotentialDonors_spec. Qed.

(** C6 as stated fails, in three ways.  The first record of [unit_D] has
    no name: the cleanup leaves it the empty name, which marks a slot
    without record, and the loop ends at once with nothing written.  A unit
    of 101 records with 101 identifiers overruns [processedIDs].  And the
    first read of [unit_Al] fails after it stored a name: the slot is not
    marked as empty, its contents are written as a record, and when the
    next read of that unit fails the count of active units drops to zero
    with the record of the other unit unwritten. *)
Lemma merge_incomplete :
  ~ complete_output [unit_D] no_stack /\
  ~ complete_output [donor_lines 101 1000] no_stack /\
  ~ complete_output [unit_Al; unit_Bob_222] no_stack.
Proof.
  split; [|split].
  - intros (st & H & Hperm & _).
    apply Permutation_length in Hperm.
    assert (createDatabase [unit_D] no_stack =
            Some (Finished (initial_state [unit_D] no_stack))) as E
      by (vm_compute; reflexivity).
    rewrite E in H. clear E. inversion H; subst st. clear H.
    vm_compute in Hperm. discriminate Hperm.
  - intros (st & H & _).
    assert (exists st', createDatabase [donor_lines 101 1000] no_stack =
                        Some (OutOfBounds st')) as (st' & E)
      by (eexists; vm_compute; reflexivity).
    rewrite E in H. clear E. discriminate H.
  - intros (st & H & Hperm & _).
    assert (exists st', createDatabase [unit_Al; unit_Bob_222] no_stack =
                        Some (Finished st') /\
                        map id (selected st') = [""])
      as (st' & E & Hsel)
      by (eexists; split; vm_compute; reflexivity).
    rewrite E in H. clear E. inversion H; subst st'. clear H.
    assert (map id (all_records [unit_Al; unit_Bob_222] 0 no_stack) = ["222"])
      as Hall by (vm_compute; reflexivity).
    apply (Permutation_map id) in Hperm. rewrite Hsel, Hall in Hperm.
    apply Permutation_length_1 in Hperm. discriminate Hperm.
Qed.

(** C6, amended.  When the first read of every unit succeeds and leaves a
    name that is not empty, and the units hold at most [MAX_UNITS]
    different identifiers, the run ends normally, every record of every
    unit is selected exactly once, a record is written exactly when its
    identifier was not selected before, and the number of records written
    is the number of different identifiers. *)
Theorem merge_complete us uninit :
  first_records_valid us 0 uninit = true ->
  length (remove_dups (map id (all_records us 0 uninit))) <= MAX_UNITS ->
  complete_output us uninit.
Proof.
  intros Hv Hcap. unfold complete_output.
  set (all := all_records us 0 uninit) in *.
  destruct (createDatabase_cap_total MAX_UNITS us uninit) as (o & H & Hr).
  pose (Q := fun o : outcome =>
          match o with
          | Finished st =>
              selected st ≡ₚ all /\
              written (outFile st) = first_seen [] (selected st)
          | _ => False
          end).
  assert (Q o) as Ho.
  { apply (fun H1 H2 H3 =>
             merge_loop_invariant
               (fun st => complete_inv all st /\ ids_follow_output st) Q
               MAX_UNITS H1 H2 _ _ _ H3 H).
    - intros st st' [Hc Hi] E. split.
      + apply (merge_step_complete _ _ _ _ Hc E).
      + apply (merge_step_ids_follow_output _ _ _ Hi E).
    - intros st [st'|st'|st'] [Hc Hi] E Hend.
      + discriminate.
      + split; [apply (merge_step_complete_Finished _ _ _ _ Hc E)|].
        apply merge_step_Finished in E as [-> _]. apply Hi.
      + apply (merge_step_in_bounds _ _ _ _ Hc Hi Hcap E).
    - split; [apply initial_state_complete, Hv|].
      unfold ids_follow_output, selected.
      destruct (initial_state_fields us uninit) as (-> & _ & -> & ->).
      auto. }
  unfold Q in Ho.
  destruct o as [st|st|st]; try contradiction.
  destruct Ho as [Hperm Hw]. exists st.
  split; [exact H|]. split; [exact Hperm|]. split; [exact Hw|].
  rewrite Hw, first_seen_distinct. apply remove_dups_length_Permutation.
  unfold selected in Hperm |- *. rewrite <- Hperm. reflexivity.
Qed.

Lemma merge_complete_witness :
  first_records_valid [unit_A; unit_B] 0 no_stack = true /\
  length (remove_dups (map id (all_records [unit_A; unit_B] 0 no_stack)))
    <= MAX_UNITS /\
  complete_output [unit_A; unit_B] no_stack.
Proof.
  assert (first_records_valid [unit_A; unit_B] 0 no_stack = true) as H1
    by (vm_compute; reflexivity).
  assert (length (remove_dups
                    (map id (all_records [unit_A; unit_B] 0 no_stack)))
          <= MAX_UNITS) as H2 by (apply Nat.leb_le; vm_compute; reflexivity).
  split; [exact H1|]. split; [exact H2|].
  apply (merge_complete _ _ H1 H2).
Defined.

(** C7 as stated fails in its last clause: units with more than
    [MAX_UNITS] identifiers need not reach the write outside
    [processedIDs].  The first record of [unit_blank_101] has no name, so
    the unit is never read and the run ends with nothing stored, though
    the unit holds 102 identifiers.  And the first read of [unit_Al] fails
    after it stored a name: one record is written, and the run ends with
    the 101 records of the other unit unread. *)
Lemma store_overrun_not_reached :
  ~ overrun_when_many_ids [unit_blank_101] no_stack /\
  ~ overrun_when_many_ids [unit_Al; donor_lines 101 1000] no_stack.
Proof.
  split.
  - intros H.
    assert (MAX_UNITS <
            length (remove_dups
                      (map id (all_records [unit_blank_101] 0 no_stack))))
      as Hn by (apply Nat.ltb_lt; vm_compute; reflexivity).
    destruct (H Hn) as [st E]. clear H Hn.
    assert (exists st', createDatabase [unit_blank_101] no_stack =
                        Some (Finished st')) as (st' & E')
      by (eexists; vm_compute; reflexivity).
    rewrite E' in E. clear E'. discriminate E.
  - intros H.
    assert (MAX_UNITS <
            length (remove_dups
                      (map id (all_records [unit_Al; donor_lines 101 1000]
                                 0 no_stack))))
      as Hn by (apply Nat.ltb_lt; vm_compute; reflexivity).
    destruct (H Hn) as [st E]. clear H Hn.
    assert (exists st', createDatabase [unit_Al; donor_lines 101 1000]
                          no_stack = Some (Finished st')) as (st' & E')
      by (eexists; vm_compute; reflexivity).
    rewrite E' in E. clear E'. discriminate E.
Qed.

(** C7, amended.  [processedIDs] has room for [MAX_UNITS] = 100
    identifiers, whatever the number of records, and is written without a
    check.  When the first read of every unit gives a record with a name,
    the run ends in one of two ways, decided by the number [n] of
    different identifiers that the units hold.  When [n <= MAX_UNITS] it
    ends normally, with [n] identifiers stored, one for every record
    written, and every store in bounds.  When [n > MAX_UNITS] it reaches
    the write to [processedIDs[MAX_UNITS]], with the store full and record
    number [MAX_UNITS + 1] already written. *)
Theorem processedIDs_capacity us uninit :
  first_records_valid us 0 uninit = true ->
  MAX_UNITS = 100 /\
  exists o,
    createDatabase us uninit = Some o /\
    match o with
    | Continue _ => False
    | Finished st =>
        length (remove_dups (map id (all_records us 0 uninit))) <= MAX_UNITS /\
        numProcessed st =
          length (remove_dups (map id (all_records us 0 uninit))) /\
        length (written (outFile st)) = numProcessed st
    | OutOfBounds st =>
        MAX_UNITS < length (remove_dups (map id (all_records us 0 uninit))) /\
        numProcessed st = MAX_UNITS /\
        length (written (outFile st)) = S MAX_UNITS
    end.
Proof.
  intros Hv. split; [reflexivity|].
  destruct (createDatabase_cap_total MAX_UNITS us uninit) as (o & H & _).
  exists o. split; [exact H|].
  pose proof (createDatabase_cap_complete_outcome _ _ _ _ Hv H) as Hc.
  pose proof (createDatabase_cap_capacity_outcome _ _ _ _ H) as Hb.
  destruct o as [st|st|st]; [exact Hc| |].
  - destruct Hc as [Hperm Hw]. destruct Hb as [Hle Hlen].
    assert (numProcessed st =
            length (remove_dups (map id (all_records us 0 uninit)))) as Hn.
    { rewrite <- Hlen, Hw, first_seen_distinct.
      apply remove_dups_length_Permutation.
      unfold selected in Hperm |- *. rewrite <- Hperm. reflexivity. }
    split; [rewrite <- Hn; exact Hle|]. split; [exact Hn | exact Hlen].
  - split; [exact Hc | exact Hb].
Qed.

Lemma processedIDs_capacity_witness :
  first_records_valid [donor_lines 101 1000] 0 no_stack = true /\
  MAX_UNITS = 100 /\
  exists o,
    createDatabase [donor_lines 101 1000] no_stack = Some o /\
    match o with
    | Continue _ => False
    | Finished st =>
        length (remove_dups
                  (map id (all_records [donor_lines 101 1000] 0 no_stack)))
          <= MAX_UNITS /\
        numProcessed st =
          length (remove_dups
                    (map id (all_records [donor_lines 101 1000] 0 no_stack))) /\
        length (written (outFile st)) = numProcessed st
    | OutOfBounds st =>
        MAX_UNITS <
          length (remove_dups
                    (map id (all_records [donor_lines 101 1000] 0 no_stack))) /\
        numProcessed st = MAX_UNITS /\
        length (written (outFile st)) = S MAX_UNITS
    end.
Proof.
  assert (first_records_valid [donor_lines 101 1000] 0 no_stack = true) as H
    by (vm_compute; reflexivity).
  split; [exact H|].
  apply (processedIDs_capacity [donor_lines 101 1000] no_stack H).
Defined.

(** The out-of-bounds write is reached by a unit of 101 records with 101
    identifiers. *)
Example processedIDs_overflow :
  exists st,
    createDatabase [donor_lines 101 1000] no_stack = Some (OutOfBounds st) /\
    numProcessed st = 100 /\ length (written (outFile st)) = 101.
Proof.
  eexists. split; [vm_compute; reflexivity|]. split; vm_compute; reflexivity.
Qed.

(** C8 as stated fails, in two ways.  A unit of one record gives one run,
    and its first record is written with the space.  And a record that is
    dropped as a duplicate still counts as a change of unit: the two
    records written here are both of unit 0, one run, and the second is
    written without the space because the iteration between them selected
    unit 1. *)
Lemma format_not_by_runs :
  ~ run_format [unit_Alice] no_stack /\
  ~ run_format [unit_Ann_Cid; unit_Bob_again] no_stack.
Proof.
  split; intros H.
  - assert (exists o, createDatabase [unit_Alice] no_stack = Some o /\
                      glued_flags (outFile (final_state o)) = [false] /\
                      written_units (final_state o) = [0])
      as (o & Ho & Hg & Hu).
    { eexists. split; [vm_compute; reflexivity|].
      split; vm_compute; reflexivity. }
    specialize (H o Ho). rewrite Hg, Hu in H. discriminate H.
  - assert (exists o,
              createDatabase [unit_Ann_Cid; unit_Bob_again] no_stack = Some o /\
              glued_flags (outFile (final_state o)) = [false; true] /\
              written_units (final_state o) = [0; 0])
      as (o & Ho & Hg & Hu).
    { eexists. split; [vm_compute; reflexivity|].
      split; vm_compute; reflexivity. }
    specialize (H o Ho). rewrite Hg, Hu in H. discriminate H.
Qed.

(** C8, amended.  Every run ends, and its output is the history of the
    iterations formatted by this rule: an iteration that drops its record
    writes nothing; an iteration that selects another unit than the
    iteration before it writes a line break and the record without the
    space; every other iteration, the first one included, writes the
    record with the space.  So when no record is dropped, the first record
    of every run of one unit is written without the space and the others
    with it, except the first record of the output, which is written with
    the space. *)
Theorem record_format us uninit :
  exists o,
    createDatabase us uninit = Some o /\ running o = false /\
    outFile (final_state o) = format_history None (history (final_state o)) /\
    (Forall (fun s => sel_written s = true) (history (final_state o)) ->
     glued_flags (outFile (final_state o)) =
     match run_starts None (written_units (final_state o)) with
     | [] => []
     | _ :: flags => false :: flags
     end).
Proof.
  destruct (createDatabase_cap_total MAX_UNITS us uninit) as (o & H & Hr).
  exists o. split; [exact H|]. split; [exact Hr|].
  destruct (createDatabase_cap_follows_history _ _ _ _ H) as [Hout _].
  split; [exact Hout|].
  intros Hall. unfold written_units.
  rewrite Hout, (filter_all_written _ Hall).
  apply glued_flags_first_run, Hall.
Qed.

(** C9.  For one database and one query, when the filter returns a list
    for the threshold [m1], it returns a list for every larger threshold
    [m2], and that list is a sublist of the first: every candidate for
    [m2] is a candidate for [m1], in the same order. *)
Theorem threshold_monotone database query m1 m2 cur0 l1 n1 :
  (m1 < m2)%Z ->
  getPotentialDonors database query m1 cur0 = Some (Donors l1 n1) ->
  exists l2 n2,
    getPotentialDonors database query m2 cur0 = Some (Donors l2 n2) /\
    sublist l2 l1 /\ (forall r, r ∈ l2 -> r ∈ l1).
Proof.
  intros Hm H. rewrite getPotentialDonors_spec in *.
  unfold donors_outcome in *.
  pose proof (filter_meets_sublist query m1 m2 (db_records database cur0)
                ltac:(lia)) as Hsub.
  destruct (_ <=? MAX_PERSONS)%nat eqn:E in H; [|discriminate].
  inversion H; subst l1 n1; clear H.
  apply Nat.leb_le in E. pose proof (sublist_length _ _ Hsub) as Hlen.
  destruct (length (List.filter (meets query m2) (db_records database cur0))
            <=? MAX_PERSONS)%nat eqn:E2.
  - eexists _, _. split; [reflexivity|]. split; [exact Hsub|].
    intros r Hr. apply (elem_of_sublist _ _ _ Hr Hsub).
  - apply Nat.leb_gt in E2. lia.
Qed.

Lemma threshold_monotone_witness :
  exists l1 l2 n2,
    getPotentialDonors unit_A patient_X 0 blank = Some (Donors l1 2) /\
    getPotentialDonors unit_A patient_X 5 blank = Some (Donors l2 n2) /\
    sublist l2 l1.
Proof.
  eexists.
  assert (getPotentialDonors unit_A patient_X 0 blank = Some (Donors _ 2))
    as H by (vm_compute; reflexivity).
  destruct (threshold_monotone unit_A patient_X 0 5 blank _ _
              ltac:(lia) H) as (l2 & n2 & H2 & Hsub & _).
  exists l2, n2. split; [exact H|]. split; [exact H2 | exact Hsub].
Defined.

(** C10.  A record without a name that is not the first of its unit is
    not held back.  The second record of the unit has an empty name after
    the cleanup, but the merge loop does not clean the records it reads:
    the record is selected with the name it was read with, it is written,
    and the unit is read on to its end. *)
Theorem later_blank_name_is_written uninit :
  exists st r1 r2 r3,
    createDatabase [unit_C] uninit = Some (Finished st) /\
    written (outFile st) = [r1; r2; r3] /\
    id r2 = "222" /\ blank_name (name r2) = true /\
    cleanName (name r2) = "" /\ valid r2 = true /\
    id r3 = "333".
Proof.
  do 4 eexists. split; [vm_compute; reflexivity|].
  split; [reflexivity|]. repeat split; vm_compute; reflexivity.
Qed.

(** * Further properties *)

(** ** Strings *)

Lemma append_nil_l (r : string) : "" +:+ r = r.
Proof. reflexivity. Qed.

Lemma append_cons c (s r : string) : String c s +:+ r = String c (s +:+ r).
Proof. reflexivity. Qed.

Lemma append_nil_r (s : string) : s +:+ "" = s.
Proof.
  induction s as [|c s IH]; [reflexivity|]. rewrite append_cons, IH.
  reflexivity.
Qed.

Lemma append_assoc (a b c : string) : (a +:+ b) +:+ c = a +:+ b +:+ c.
Proof.
  induction a as [|x a IH]; [reflexivity|].
  rewrite !append_cons, IH. reflexivity.
Qed.

Lemma length_append (a b : string) :
  String.length (a +:+ b) = String.length a + String.length b.
Proof.
  induction a as [|x a IH]; [reflexivity|].
  rewrite append_cons. simpl. rewrite IH. reflexivity.
Qed.

Lemma substring_prefix (a r : string) :
  substring 0 (String.length a) (a +:+ r) = a.
Proof.
  induction a as [|x a IH]; simpl.
  - destruct r; reflexivity.
  - rewrite IH. reflexivity.
Qed.

Lemma isspace_not_digit c : isspace c = true -> isdigit c = false.
Proof.
  unfold isspace, isdigit. intros H.
  apply orb_prop in H as [H|H].
  - apply Z.eqb_eq in H. rewrite H. reflexivity.
  - apply andb_prop in H as [H1 H2]. apply Z.leb_le in H1, H2.
    apply andb_false_intro1. apply Z.leb_gt. lia.
Qed.

(** ** cleanName *)

Lemma cleanName_loop_kept s i last :
  cleanName_loop s i last =
  if is_empty (kept s) then last
  else (Z.of_nat (i + String.length (kept s)) - 1)%Z.
Proof.
  revert i last. induction s as [|c s IH]; intros i last; simpl;
    [reflexivity|].
  destruct (isdigit c); [reflexivity|]. rewrite IH.
  destruct (kept s) as [|x r] eqn:E; simpl.
  - destruct (isspace c); simpl; [reflexivity|]. lia.
  - rewrite andb_false_r. simpl. lia.
Qed.

Lemma kept_prefix s : exists r, s = kept s +:+ r.
Proof.
  induction s as [|c s [r IH]]; simpl; [exists ""; reflexivity|].
  destruct (isdigit c); [eexists; reflexivity|].
  destruct (isspace c && is_empty (kept s)); [eexists; reflexivity|].
  exists r. rewrite append_cons, <- IH. reflexivity.
Qed.

Lemma cleanName_kept s : cleanName s = kept s.
Proof.
  unfold cleanName. rewrite cleanName_loop_kept.
  destruct (kept_prefix s) as [r Hr].
  destruct (kept s) as [|x k] eqn:E; simpl is_empty; cbv iota.
  - destruct s; reflexivity.
  - replace (Z.to_nat (Z.of_nat (0 + String.length (String x k)) - 1 + 1))
      with (String.length (String x k)) by lia.
    rewrite Hr. apply substring_prefix.
Qed.

Lemma kept_no_digit s : has_digit (kept s) = false.
Proof.
  induction s as [|c s IH]; simpl; [reflexivity|].
  destruct (isdigit c) eqn:Hc; [reflexivity|].
  destruct (isspace c && is_empty (kept s)); [reflexivity|].
  simpl. rewrite Hc. exact IH.
Qed.

Lemma kept_no_trailing_space s : ends_with_space (kept s) = false.
Proof.
  induction s as [|c s IH]; simpl; [reflexivity|].
  destruct (isdigit c); [reflexivity|].
  destruct (kept s) as [|x r] eqn:E; simpl.
  - destruct (isspace c) eqn:Hc; simpl; [reflexivity | exact Hc].
  - rewrite andb_false_r. simpl in IH |- *. exact IH.
Qed.

Lemma kept_blank_tail ws tail :
  string_forall isspace ws = true ->
  tail = "" \/ (exists d r, tail = String d r /\ isdigit d = true) ->
  kept (ws +:+ tail) = "".
Proof.
  intros Hws Htail. induction ws as [|c ws IH].
  - rewrite append_nil_l. destruct Htail as [->|(d & r & -> & Hd)];
      [reflexivity|]. simpl. rewrite Hd. reflexivity.
  - simpl in Hws. apply andb_prop in Hws as [Hc Hws].
    rewrite append_cons. simpl.
    rewrite (isspace_not_digit c Hc), Hc, (IH Hws). reflexivity.
Qed.

Lemma kept_name s ws tail :
  has_digit s = false -> ends_with_space s = false ->
  string_forall isspace ws = true ->
  tail = "" \/ (exists d r, tail = String d r /\ isdigit d = true) ->
  kept (s +:+ ws +:+ tail) = s.
Proof.
  intros Hd He Hws Htail. induction s as [|c s IH].
  - rewrite append_nil_l. apply kept_blank_tail; assumption.
  - simpl in Hd. apply orb_false_elim in Hd as [Hc Hd].
    rewrite append_cons. simpl. rewrite Hc.
    destruct s as [|x s'].
    + rewrite append_nil_l, (kept_blank_tail ws tail Hws Htail).
      simpl in He. rewrite He. reflexivity.
    + rewrite (IH Hd He). simpl. rewrite andb_false_r. reflexivity.
Qed.

(** X1.  What [cleanName] leaves is a prefix of the name it was given,
    holds no digit, does not end in white space, and is left as it is by a
    second cleanup. *)
Theorem cleanName_result s :
  (exists r, s = cleanName s +:+ r) /\
  has_digit (cleanName s) = false /\
  ends_with_space (cleanName s) = false /\
  cleanName (cleanName s) = cleanName s.
Proof.
  rewrite !cleanName_kept.
  split; [apply kept_prefix|]. split; [apply kept_no_digit|].
  split; [apply kept_no_trailing_space|].
  pose proof (kept_name (kept s) "" "" (kept_no_digit s)
                (kept_no_trailing_space s) eq_refl (or_introl eq_refl)) as H.
  rewrite !append_nil_r in H. exact H.
Qed.

(** X2.  [cleanName] gives back the name: of a name without digit that
    does not end in white space, followed by white space and then by
    nothing or by text that starts with a digit, it keeps exactly the
    name, inner and leading white space included. *)
Theorem cleanName_keeps_name s ws tail :
  has_digit s = false -> ends_with_space s = false ->
  string_forall isspace ws = true ->
  tail = "" \/ (exists d r, tail = String d r /\ isdigit d = true) ->
  cleanName (s +:+ ws +:+ tail) = s.
Proof. intros. rewrite cleanName_kept. apply kept_name; assumption. Qed.

Lemma cleanName_keeps_name_witness :
  cleanName (" Mary Ann" +:+ "  " +:+ "42 x") = " Mary Ann".
Proof.
  apply (cleanName_keeps_name " Mary Ann" "  " "42 x");
    [reflexivity | reflexivity | reflexivity |].
  right. exists "4"%char, "2 x". split; reflexivity.
Defined.

(** ** countGeneMatches *)

Lemma filter_length_all {A} (P : A -> Prop) `{forall x, Decision (P x)}
    (l : list A) :
  length (filter P l) = length l <-> Forall P l.
Proof.
  induction l as [|x l IH]; [split; [constructor | reflexivity]|].
  rewrite filter_cons. pose proof (length_filter P l) as Hle.
  destruct (decide (P x)) as [Hx|Hx]; simpl.
  - split.
    + intros Hl. constructor; [exact Hx|]. apply IH. lia.
    + intros Hall. inversion Hall; subst. f_equal. apply IH. assumption.
  - split; [lia|]. intros Hall. inversion Hall; subst. contradiction.
Qed.

(** X3.  The match count is between 0 and 5, and does not depend on which
    of the two records is the donor. *)
Theorem countGeneMatches_range donor patient :
  (0 <= countGeneMatches donor patient <= 5)%Z /\
  countGeneMatches donor patient = countGeneMatches patient donor.
Proof.
  rewrite !countGeneMatches_match_count. unfold match_count. split.
  - pose proof (length_filter
                  (fun i => gene donor i = gene patient i) (seq 0 5)) as H.
    rewrite length_seq in H. lia.
  - f_equal. f_equal. apply list_filter_iff. intros i. split; congruence.
Qed.

(** X4.  The match count is 5 exactly when the two records have the same
    gene at each of the five positions. *)
Theorem countGeneMatches_full donor patient :
  countGeneMatches donor patient = 5%Z <->
  forall i, i < 5 -> gene donor i = gene patient i.
Proof.
  rewrite countGeneMatches_match_count. unfold match_count.
  replace 5%Z with (Z.of_nat (length (seq 0 5))) by reflexivity.
  rewrite Nat2Z.inj_iff, filter_length_all, Forall_forall.
  split.
  - intros H i Hi. apply H, elem_of_seq. lia.
  - intros H i Hi. apply elem_of_seq in Hi. apply H. lia.
Qed.

(** ** countMismatches *)

Lemma countMismatches_loop_past d m :
  countMismatches_loop d None m = if is_empty d then Some m else None.
Proof. destruct d; reflexivity. Qed.

Lemma countMismatches_loop_None d p m :
  countMismatches_loop d (Some p) m = None <->
  S (String.length p) < String.length d.
Proof.
  revert p m. induction d as [|c d IH]; intros p m; simpl.
  - split; [discriminate | lia].
  - destruct p as [|c' p]; simpl.
    + rewrite countMismatches_loop_past. destruct d; simpl.
      * split; [discriminate | lia].
      * split; [lia | reflexivity].
    + rewrite IH. lia.
Qed.

Lemma countMismatches_loop_value d p m :
  String.length d <= String.length p ->
  countMismatches_loop d (Some p) m = Some (m + Z.of_nat (differing d p))%Z.
Proof.
  revert p m. induction d as [|c d IH]; intros p m Hlen; simpl.
  - f_equal. lia.
  - destruct p as [|c' p]; simpl in *; [lia|].
    rewrite IH by lia. f_equal. destruct (Ascii.eqb c c'); lia.
Qed.

Lemma differing_zero d p :
  String.length d <= String.length p ->
  differing d p = 0 <-> exists r, p = d +:+ r.
Proof.
  revert p. induction d as [|c d IH]; intros p Hlen.
  - split; [exists p; reflexivity | reflexivity].
  - destruct p as [|c' p]; simpl in *; [lia|].
    specialize (IH p ltac:(lia)).
    destruct (Ascii.eqb c c') eqn:E.
    + apply Ascii.eqb_eq in E. subst c'. simpl. rewrite IH. split.
      * intros [r ->]. exists r. reflexivity.
      * intros [r Hr]. rewrite append_cons in Hr. inversion Hr. eauto.
    + apply Ascii.eqb_neq in E. split; [discriminate|].
      intros [r Hr]. rewrite append_cons in Hr. inversion Hr. congruence.
Qed.

(** X5.  [countMismatches] stops only at the end of its first argument: it
    reads past the terminator of the second one exactly when the first is
    at least two bytes longer, and returns a count otherwise. *)
Theorem countMismatches_reads_past_end donorGene patientGene :
  countMismatches donorGene patientGene = None <->
  S (String.length patientGene) < String.length donorGene.
Proof. apply countMismatches_loop_None. Qed.

(** X6.  When the first string is not the longer one, [countMismatches]
    returns the number of positions within it at which the two strings
    differ, at most its length; the count is 0 exactly when the first
    string is a prefix of the second. *)
Theorem countMismatches_value donorGene patientGene :
  String.length donorGene <= String.length patientGene ->
  countMismatches donorGene patientGene =
    Some (Z.of_nat (differing donorGene patientGene)) /\
  differing donorGene patientGene <= String.length donorGene /\
  (countMismatches donorGene patientGene = Some 0%Z <->
   exists r, patientGene = donorGene +:+ r).
Proof.
  intros Hlen. unfold countMismatches.
  rewrite (countMismatches_loop_value _ _ 0 Hlen). simpl.
  split; [reflexivity|]. split.
  - clear Hlen. revert patientGene.
    induction donorGene as [|c d IH]; intros [|c' p]; simpl; try lia.
    specialize (IH p). destruct (Ascii.eqb c c'); lia.
  - rewrite <- (differing_zero _ _ Hlen). split.
    + intros H. inversion H. lia.
    + intros ->. reflexivity.
Qed.

Lemma countMismatches_value_witness :
  countMismatches "ACGT" "ACCTA" = Some (Z.of_nat (differing "ACGT" "ACCTA")).
Proof.
  apply (countMismatches_value "ACGT" "ACCTA"). simpl. lia.
Defined.

(** ** isDuplicate *)

(** X7.  [isDuplicate] answers 1 exactly when one of the first
    [numProcessed] entries of the list is the identifier; the entries from
    [numProcessed] on are not looked at. *)
Theorem isDuplicate_lookup i (ids : list string) numProcessed :
  isDuplicate i ids numProcessed = true <->
  exists k, k < numProcessed /\ ids !! k = Some i.
Proof.
  unfold isDuplicate. rewrite existsb_exists. split.
  - intros (x & Hx & E). apply Z.eqb_eq, strcmp_eq in E. subst x.
    apply list_elem_of_In, elem_of_take in Hx as (k & Hk & Hlt). eauto.
  - intros (k & Hlt & Hk). exists i. split.
    + apply list_elem_of_In, elem_of_take. eauto.
    + apply Z.eqb_eq, strcmp_eq. reflexivity.
Qed.

(** ** The fields that a read stores *)

Lemma scan_while_spec ok w f s f' :
  scan_while ok w f = (s, f') ->
  f = s +:+ f' /\ String.length s <= w /\ string_forall ok s = true.
Proof.
  revert f s f'. induction w as [|w IH]; intros f s f' H.
  - destruct f; inversion H; subst; simpl; auto.
  - destruct f as [|c r]; simpl in H; [inversion H; subst; simpl; auto with lia|].
    destruct (ok c) eqn:Hc; [|inversion H; subst; simpl; auto with lia].
    destruct (scan_while ok w r) as [s0 f0] eqn:E.
    destruct (IH _ _ _ E) as (-> & Hlen & Hall).
    inversion H; subst. simpl. rewrite Hc, Hall. auto with lia.
Qed.

Lemma vfscanf_fields fmt f :
  exists specs others,
    omap conversion fmt = specs ++ others /\
    Forall2 field_ok (assigned (vfscanf fmt f)) specs.
Proof.
  revert f. induction fmt as [|d fmt IH]; intros f.
  - exists [], []. split; [reflexivity | constructor].
  - assert (forall w ok g,
              conversion d = Some (w, ok) ->
              vfscanf (d :: fmt) f = conv ok w g (vfscanf fmt) ->
              exists specs others,
                omap conversion (d :: fmt) = specs ++ others /\
                Forall2 field_ok (assigned (vfscanf (d :: fmt) f)) specs)
      as Hconv.
    { intros w ok g Hd ->. simpl. rewrite Hd. unfold conv.
      destruct (scan_while ok w g) as [s f1] eqn:E.
      apply scan_while_spec in E as (_ & Hlen & Hall).
      destruct (is_empty s) eqn:Es; simpl.
      - exists [], ((w, ok) :: omap conversion fmt).
        split; [reflexivity | constructor].
      - destruct (IH f1) as (specs & others & Hsp & HF).
        exists ((w, ok) :: specs), others.
        split; [simpl; f_equal; exact Hsp|].
        constructor; [|exact HF]. repeat split; assumption. }
    destruct d as [w|w|].
    + apply (Hconv w (fun c => negb (isdigit c)) f); reflexivity.
    + apply (Hconv w (fun c => negb (isspace c)) (skip_space f)); reflexivity.
    + simpl. apply IH.
Qed.

Lemma string_forall_no_digit s :
  string_forall (fun c => negb (isdigit c)) s = negb (has_digit s).
Proof.
  induction s as [|c s IH]; simpl; [reflexivity|].
  rewrite IH. destruct (isdigit c), (has_digit s); reflexivity.
Qed.

Lemma scan_count_7 r :
  scan_count r = 7%Z ->
  exists v0 v1 v2 v3 v4 v5 v6, assigned r = [v0; v1; v2; v3; v4; v5; v6].
Proof.
  unfold scan_count.
  destruct (assigned r) as [|v0 [|v1 [|v2 [|v3 [|v4 [|v5 [|v6 [|v7 l]]]]]]]];
    simpl length; try (intros H; exfalso; lia).
  - destruct (input_failure r); unfold EOF; intros H; lia.
  - intros _. repeat eexists.
Qed.

Lemma token_intro w ok s :
  field_ok s (w, ok) ->
  (forall c, ok c = negb (isspace c)) -> token w s = true.
Proof.
  intros (Hne & Hlen & Hall) Hok. unfold token. simpl in *.
  rewrite Hne. apply Nat.leb_le in Hlen. rewrite Hlen. simpl.
  clear -Hall Hok. induction s as [|c s IH]; simpl in *; [reflexivity|].
  apply andb_prop in Hall as [Hc Hs]. rewrite <- Hok, Hc. apply IH, Hs.
Qed.

Lemma fscanf_person_well_formed fmt f p q f' :
  fmt = fmt_first \/ fmt = fmt_next ->
  fscanf_person fmt f p = (7%Z, q, f') ->
  well_formed q = true /\ valid q = true.
Proof.
  intros Hfmt H. unfold fscanf_person in H. inversion H as [[Hn Hq Hf]].
  destruct (scan_count_7 _ Hn) as (v0 & v1 & v2 & v3 & v4 & v5 & v6 & Hv).
  destruct (vfscanf_fields fmt f) as (specs & others & Hspecs & HF).
  rewrite Hv in HF |- *.
  assert (omap conversion fmt =
          [(30, fun c => negb (isdigit c)); (9, fun c => negb (isspace c));
           (21, fun c => negb (isspace c)); (21, fun c => negb (isspace c));
           (21, fun c => negb (isspace c)); (21, fun c => negb (isspace c));
           (21, fun c => negb (isspace c))]) as Hfmt'
    by (destruct Hfmt as [-> | ->]; reflexivity).
  rewrite Hfmt' in Hspecs.
  repeat (let x := fresh "c" in let H := fresh "Hc" in
          inversion HF as [|? x ? ? H HF']; subst; clear HF; rename HF' into HF;
          simpl in Hspecs; inversion Hspecs; subst; clear Hspecs;
          try match goal with Hs : _ = _ ++ _ |- _ => rename Hs into Hspecs end).
  unfold well_formed, valid. simpl.
  repeat match goal with
         | H : field_ok _ (_, fun c => negb (isspace c)) |- _ =>
             apply (fun H' => token_intro _ _ _ H' (fun c => eq_refl)) in H;
             rewrite H
         end.
  match goal with
  | H : field_ok v0 _ |- _ => destruct H as (Hne & Hlen & Hall)
  end.
  simpl in Hlen, Hall. rewrite string_forall_no_digit in Hall.
  apply Nat.leb_le in Hlen. rewrite Hlen, Hall, Hne. auto.
Qed.

(** ** A read that fails *)

Lemma skip_space_head f :
  skip_space f = "" \/
  exists c r, skip_space f = String c r /\ isspace c = false.
Proof.
  induction f as [|c f IH]; simpl; [left; reflexivity|].
  destruct (isspace c) eqn:Hc; [exact IH|]. right. eauto.
Qed.

Lemma scan_while_nothing ok w f f' :
  scan_while ok (S w) f = ("", f') ->
  f' = f /\ (f = "" \/ exists c r, f = String c r /\ ok c = false).
Proof.
  destruct f as [|c r]; simpl.
  - intros H; inversion H. auto.
  - destruct (ok c) eqn:Hc.
    + destruct (scan_while ok w r). discriminate.
    + intros H; inversion H. split; [reflexivity|]. right. eauto.
Qed.

(** After the name, a read fails only at the end of the stream. *)
Lemma vfscanf_tail_failure fmt f :
  Forall (fun d => d = White \/ exists w, d = Conv_s (S w)) fmt ->
  length (assigned (vfscanf fmt f)) = length (omap conversion fmt) \/
  rest (vfscanf fmt f) = "".
Proof.
  intros Hfmt. revert f. induction Hfmt as [|d fmt Hd _ IH]; intros f;
    [left; reflexivity|].
  destruct Hd as [->|[w ->]]; simpl; [apply IH|].
  unfold conv.
  destruct (scan_while (fun c => negb (isspace c)) (S w) (skip_space f))
    as [s f1] eqn:E.
  destruct s as [|c s]; simpl.
  - right. apply scan_while_nothing in E as [_ [E|(c & r & E & Hc)]];
      [exact E|].
    destruct (skip_space_head f) as [H|(c' & r' & H & Hc')]; [exact H|].
    rewrite H in E. inversion E; subst. rewrite Hc' in Hc. discriminate.
  - destruct (IH f1) as [H|H]; [left; f_equal; exact H | right; exact H].
Qed.

Lemma vfscanf_failure fmt w f :
  Forall (fun d => d = White \/ exists w, d = Conv_s (S w)) fmt ->
  let r := vfscanf (Conv_nondigits (S w) :: fmt) f in
  length (assigned r) = S (length (omap conversion fmt)) \/
  rest r = "" \/
  (rest r = f /\ exists c f0, f = String c f0 /\ isdigit c = true).
Proof.
  intros Hfmt. simpl. unfold conv.
  destruct (scan_while (fun c => negb (isdigit c)) (S w) f) as [s f1] eqn:E.
  destruct s as [|c s]; simpl.
  - right. apply scan_while_nothing in E as [_ [E|(c & r & E & Hc)]].
    + left. exact E.
    + right. split; [reflexivity|]. exists c, r. split; [exact E|].
      destruct (isdigit c); [reflexivity | discriminate].
  - destruct (vfscanf_tail_failure fmt f1 Hfmt) as [H|H].
    + left. f_equal. exact H.
    + right. left. exact H.
Qed.

Lemma record_fmt_shape fmt :
  fmt = fmt_first \/ fmt = fmt_next ->
  exists tail,
    fmt = Conv_nondigits 30 :: tail /\
    Forall (fun d => d = White \/ exists w, d = Conv_s (S w)) tail /\
    length (omap conversion tail) = 6.
Proof.
  intros [-> | ->]; eexists; (split; [reflexivity|]); split;
    try reflexivity;
    repeat (constructor; [first [left; reflexivity | right; eexists; reflexivity]|]);
    constructor.
Qed.

Lemma fscanf_person_at_end fmt p :
  fmt = fmt_first \/ fmt = fmt_next ->
  exists q, fscanf_person fmt "" p = (EOF, q, "").
Proof. intros [-> | ->]; eexists; reflexivity. Qed.

Lemma fscanf_person_at_digit fmt c f p :
  fmt = fmt_first \/ fmt = fmt_next -> isdigit c = true ->
  exists q, fscanf_person fmt (String c f) p = (0%Z, q, String c f).
Proof.
  intros Hfmt Hc.
  assert (forall k, conv (fun c => negb (isdigit c)) 30 (String c f) k =
            {| assigned := []; rest := String c f; input_failure := false |})
    as E.
  { intros k. unfold conv. cbn [scan_while]. rewrite Hc. reflexivity. }
  unfold fscanf_person.
  destruct Hfmt as [-> | ->]; cbn [vfscanf fmt_first fmt_next]; rewrite E;
    eexists; reflexivity.
Qed.

Lemma scan_count_length r :
  (0 < length (assigned r))%nat ->
  scan_count r = Z.of_nat (length (assigned r)).
Proof.
  unfold scan_count. destruct (assigned r); simpl; [lia | reflexivity].
Qed.

Lemma failed_read_again fmt fmt' f p n q f' p' :
  fmt = fmt_first \/ fmt = fmt_next ->
  fmt' = fmt_first \/ fmt' = fmt_next ->
  fscanf_person fmt f p = (n, q, f') -> n <> 7%Z ->
  exists n' q', fscanf_person fmt' f' p' = (n', q', f') /\ (n' <= 0)%Z.
Proof.
  intros Hfmt Hfmt' H Hn.
  destruct (record_fmt_shape fmt Hfmt) as (tail & -> & Htail & Hlen).
  unfold fscanf_person in H. injection H as Hc Hq Hf. clear Hq.
  pose proof (vfscanf_failure tail 29 f Htail) as Hr. cbn zeta in Hr.
  change (vfscanf (Conv_nondigits 30 :: tail) f)
    with (conv (fun c => negb (isdigit c)) 30 f (vfscanf tail)) in Hr.
  destruct Hr as [Hall|[Hend|(Hsame & c & f0 & -> & Hd)]].
  - exfalso. apply Hn. rewrite <- Hc, scan_count_length; rewrite Hall, Hlen;
      [reflexivity | lia].
  - rewrite <- Hf, Hend.
    destruct (fscanf_person_at_end fmt' p' Hfmt') as [q' E].
    exists EOF, q'. split; [exact E | unfold EOF; lia].
  - rewrite <- Hf, Hsame.
    destruct (fscanf_person_at_digit fmt' c f0 p' Hfmt' Hd) as [q' E].
    exists 0%Z, q'. split; [exact E | lia].
Qed.

(** X9.  A read that does not return 7 has either used up the stream or
    stopped in front of a digit without reading anything, and every later
    read of the stream fails in the same place: it reads nothing and
    returns 0 or [EOF].  A unit that is marked as exhausted has no further
    record. *)
Theorem failed_read_is_final fmt fmt' f p n q f' p' :
  fmt = fmt_first \/ fmt = fmt_next ->
  fmt' = fmt_first \/ fmt' = fmt_next ->
  fscanf_person fmt f p = (n, q, f') -> n <> 7%Z ->
  (exists n' q', fscanf_person fmt' f' p' = (n', q', f') /\ (n' <= 0)%Z) /\
  db_records f' p' = [].
Proof.
  intros Hfmt Hfmt' H Hn. split.
  - exact (failed_read_again fmt fmt' f p n q f' p' Hfmt Hfmt' H Hn).
  - destruct (failed_read_again fmt fmt_next f p n q f' p' Hfmt
                (or_intror eq_refl) H Hn) as (n' & q' & E & Hle).
    rewrite db_records_unfold, E.
    destruct (n' =? 7)%Z eqn:E7; [apply Z.eqb_eq in E7; lia | reflexivity].
Qed.

Lemma token_elim w s :
  token w s = true ->
  0 < String.length s <= w /\
  string_forall (fun c => negb (isspace c)) s = true.
Proof.
  unfold token. intros H.
  apply andb_prop in H as [H Hall]. apply andb_prop in H as [Hne Hlen].
  apply negb_true_iff, is_empty_length in Hne. apply Nat.leb_le in Hlen.
  auto.
Qed.

(** X8.  A read that returns 7 has stored seven fields that fit the arrays
    of [person]: a name of 1 to 30 bytes without a digit, an identifier
    of 1 to 9 bytes and five genes of 1 to 21 bytes each, identifier and
    genes without white space.  This holds for both formats and whatever
    the stream holds. *)
Theorem read_fields_fit fmt f p q f' :
  fmt = fmt_first \/ fmt = fmt_next ->
  fscanf_person fmt f p = (7%Z, q, f') ->
  0 < String.length (name q) <= 30 /\ has_digit (name q) = false /\
  0 < String.length (id q) <= 9 /\
  string_forall (fun c => negb (isspace c)) (id q) = true /\
  length (genes q) = 5 /\
  Forall (fun g => 0 < String.length g <= 21 /\
                   string_forall (fun c => negb (isspace c)) g = true)
         (genes q).
Proof.
  intros Hfmt H.
  destruct (fscanf_person_well_formed fmt f p q f' Hfmt H) as [Hwf Hv].
  unfold well_formed in Hwf. unfold valid in Hv.
  apply andb_prop in Hwf as [Hwf Hg]. apply andb_prop in Hwf as [Hwf Hl].
  apply andb_prop in Hwf as [Hwf Hi]. apply andb_prop in Hwf as [Hn Hd].
  apply Nat.leb_le in Hn. apply negb_true_iff in Hd.
  apply negb_true_iff, is_empty_length in Hv.
  apply Nat.eqb_eq in Hl. apply token_elim in Hi as [Hi1 Hi2].
  repeat split; try assumption; try lia.
  apply Forall_forall. intros g Hin.
  apply token_elim. rewrite forallb_forall in Hg. apply Hg.
  apply list_elem_of_In. exact Hin.
Qed.

Lemma read_fields_fit_witness :
  let q := {| name := "Alice "; id := "111";
              genes := ["X"; "X"; "X"; "X"; "X"] |} in
  0 < String.length (name q) <= 30 /\ has_digit (name q) = false /\
  0 < String.length (id q) <= 9 /\
  string_forall (fun c => negb (isspace c)) (id q) = true /\
  length (genes q) = 5 /\
  Forall (fun g => 0 < String.length g <= 21 /\
                   string_forall (fun c => negb (isspace c)) g = true)
         (genes q).
Proof.
  apply (read_fields_fit fmt_first unit_Alice blank _ "");
    [left; reflexivity | vm_compute; reflexivity].
Defined.

Lemma failed_read_is_final_witness :
  (exists n' q', fscanf_person fmt_next "7 Al" blank = (n', q', "7 Al") /\
                 (n' <= 0)%Z) /\
  db_records "7 Al" blank = [].
Proof.
  apply (failed_read_is_final fmt_first fmt_next "7 Al" blank 0%Z blank "7 Al");
    [left; reflexivity | right; reflexivity | vm_compute; reflexivity | lia].
Defined.

(** ** Reading back what was written *)

Lemma spaces_S n : spaces (S n) = String " " (spaces n).
Proof. reflexivity. Qed.

Lemma spaces_length n : String.length (spaces n) = n.
Proof. induction n as [|n IH]; [reflexivity|]. rewrite spaces_S. simpl. lia. Qed.

Lemma spaces_add a b : spaces (a + b) = spaces a +:+ spaces b.
Proof.
  induction a as [|a IH]; [reflexivity|].
  change (S a + b) with (S (a + b)). rewrite !spaces_S, IH. reflexivity.
Qed.

Lemma spaces_isspace n : string_forall isspace (spaces n) = true.
Proof. induction n as [|n IH]; [reflexivity|]. rewrite spaces_S. exact IH. Qed.

Lemma string_forall_app ok a b :
  string_forall ok (a +:+ b) = string_forall ok a && string_forall ok b.
Proof.
  induction a as [|c a IH]; [reflexivity|].
  rewrite append_cons. simpl. rewrite IH, andb_assoc. reflexivity.
Qed.

Lemma string_forall_impl (ok ok' : ascii -> bool) s :
  (forall c, ok c = true -> ok' c = true) ->
  string_forall ok s = true -> string_forall ok' s = true.
Proof.
  intros Himp. induction s as [|c s IH]; simpl; [reflexivity|].
  intros H. apply andb_prop in H as [H1 H2].
  rewrite (Himp c H1), (IH H2). reflexivity.
Qed.

Lemma isspace_nondigit s :
  string_forall isspace s = true ->
  string_forall (fun c => negb (isdigit c)) s = true.
Proof.
  apply string_forall_impl. intros c Hc.
  rewrite (isspace_not_digit c Hc). reflexivity.
Qed.

Lemma scan_while_exact ok t r :
  string_forall ok t = true ->
  scan_while ok (String.length t) (t +:+ r) = (t, r).
Proof.
  induction t as [|c t IH]; intros H.
  - destruct r; reflexivity.
  - simpl in H. apply andb_prop in H as [Hc Ht].
    rewrite append_cons. simpl. rewrite Hc, (IH Ht). reflexivity.
Qed.

Lemma scan_while_stop ok w t c r :
  string_forall ok t = true -> String.length t <= w -> ok c = false ->
  scan_while ok w (t +:+ String c r) = (t, String c r).
Proof.
  revert w. induction t as [|x t IH]; intros w H Hw Hc.
  - rewrite append_nil_l. destruct w; simpl; [reflexivity|].
    rewrite Hc. reflexivity.
  - simpl in H. apply andb_prop in H as [Hx Ht].
    destruct w as [|w]; [simpl in Hw; lia|].
    rewrite append_cons. simpl. rewrite Hx, (IH w Ht); [reflexivity| |exact Hc].
    simpl in Hw. lia.
Qed.

Lemma scan_while_token w t r :
  token w t = true ->
  scan_while (fun c => negb (isspace c)) w
    (t +:+ spaces (w - String.length t) +:+ r) =
  (t, spaces (w - String.length t) +:+ r).
Proof.
  intros H. apply token_elim in H as [[_ Hw] Hall].
  destruct (w - String.length t) as [|k] eqn:E.
  - replace w with (String.length t) by lia.
    apply scan_while_exact. exact Hall.
  - rewrite spaces_S, append_cons.
    apply scan_while_stop; [exact Hall | exact Hw | reflexivity].
Qed.

Lemma skip_space_app ws r :
  string_forall isspace ws = true -> skip_space (ws +:+ r) = skip_space r.
Proof.
  induction ws as [|c ws IH]; intros H; [reflexivity|].
  simpl in H. apply andb_prop in H as [Hc Hws].
  rewrite append_cons. simpl. rewrite Hc. exact (IH Hws).
Qed.

Lemma skip_space_token w t r :
  token w t = true -> skip_space (t +:+ r) = t +:+ r.
Proof.
  intros H. apply token_elim in H as [[Hne _] Hall].
  destruct t as [|c t]; [simpl in Hne; lia|].
  simpl in Hall. apply andb_prop in Hall as [Hc _].
  rewrite append_cons. simpl.
  destruct (isspace c); [discriminate Hc | reflexivity].
Qed.

Lemma skip_space_white ws :
  string_forall isspace ws = true -> skip_space ws = "".
Proof.
  intros H. rewrite <- (append_nil_r ws), (skip_space_app ws "" H).
  reflexivity.
Qed.

(** [%ws] on a token that white space precedes and its padding follows. *)
Lemma vfscanf_s w fmt ws t r :
  string_forall isspace ws = true -> token w t = true ->
  let r' := vfscanf fmt (spaces (w - String.length t) +:+ r) in
  vfscanf (Conv_s w :: fmt) (ws +:+ t +:+ spaces (w - String.length t) +:+ r) =
  {| assigned := t :: assigned r'; rest := rest r';
     input_failure := input_failure r' |}.
Proof.
  intros Hws Ht. cbn zeta. cbn [vfscanf]. unfold conv.
  rewrite (skip_space_app ws _ Hws), (skip_space_token w t _ Ht),
    (scan_while_token w t r Ht).
  apply token_elim in Ht as [[Hne _] _].
  destruct t; [simpl in Hne; lia | reflexivity].
Qed.

Lemma vfscanf_white_s w fmt ws t r :
  string_forall isspace ws = true -> token w t = true ->
  let r' := vfscanf fmt (spaces (w - String.length t) +:+ r) in
  vfscanf (White :: Conv_s w :: fmt)
    (ws +:+ t +:+ spaces (w - String.length t) +:+ r) =
  {| assigned := t :: assigned r'; rest := rest r';
     input_failure := input_failure r' |}.
Proof.
  intros Hws Ht. cbn zeta.
  change (vfscanf (White :: Conv_s w :: fmt)
            (ws +:+ t +:+ spaces (w - String.length t) +:+ r))
    with (vfscanf (Conv_s w :: fmt)
            (skip_space (ws +:+ t +:+ spaces (w - String.length t) +:+ r))).
  rewrite (skip_space_app ws _ Hws), (skip_space_token w t _ Ht).
  exact (vfscanf_s w fmt "" t r eq_refl Ht).
Qed.

Lemma vfscanf_white_s2 w fmt ws sep t r :
  string_forall isspace ws = true -> string_forall isspace sep = true ->
  token w t = true ->
  let r' := vfscanf fmt (spaces (w - String.length t) +:+ r) in
  vfscanf (White :: Conv_s w :: fmt)
    (ws +:+ sep +:+ t +:+ spaces (w - String.length t) +:+ r) =
  {| assigned := t :: assigned r'; rest := rest r';
     input_failure := input_failure r' |}.
Proof.
  intros Hws Hsep Ht. rewrite <- (append_assoc ws sep).
  apply vfscanf_white_s; [|exact Ht].
  rewrite string_forall_app, Hws, Hsep. reflexivity.
Qed.

(** [%30[^0-9]] on a name without a digit that [lead] precedes and its
    padding follows: 30 bytes are read, and [lead] bytes of the padding
    are left. *)
Lemma vfscanf_name fmt lead nm r :
  string_forall isspace lead = true -> has_digit nm = false ->
  String.length lead + String.length nm <= 30 ->
  let r' := vfscanf fmt (spaces (String.length lead) +:+ r) in
  vfscanf (Conv_nondigits 30 :: fmt)
    (lead +:+ nm +:+ spaces (30 - String.length nm) +:+ r) =
  {| assigned :=
       (lead +:+ nm +:+
        spaces (30 - String.length lead - String.length nm)) :: assigned r';
     rest := rest r'; input_failure := input_failure r' |}.
Proof.
  intros Hlead Hnm Hfit. cbn zeta. cbn [vfscanf]. unfold conv.
  set (pad := spaces (30 - String.length lead - String.length nm)).
  set (N := lead +:+ nm +:+ pad).
  assert (String.length N = 30) as HN.
  { unfold N, pad. rewrite !length_append, spaces_length. lia. }
  assert (lead +:+ nm +:+ spaces (30 - String.length nm) +:+ r =
          N +:+ spaces (String.length lead) +:+ r) as ->.
  { unfold N, pad.
    replace (30 - String.length nm)
      with (30 - String.length lead - String.length nm + String.length lead)
      by lia.
    rewrite spaces_add, !append_assoc. reflexivity. }
  assert (string_forall (fun c => negb (isdigit c)) N = true) as Hall.
  { unfold N, pad. rewrite !string_forall_app.
    rewrite (isspace_nondigit lead Hlead), string_forall_no_digit, Hnm.
    rewrite (isspace_nondigit _ (spaces_isspace _)). reflexivity. }
  rewrite <- HN at 1. rewrite (scan_while_exact _ N _ Hall).
  destruct N; [simpl in HN; lia | reflexivity].
Qed.

Lemma pad_right_spaces w s :
  pad_right w s = s +:+ spaces (w - String.length s).
Proof. reflexivity. Qed.

Lemma well_formed_elim p :
  well_formed p = true ->
  String.length (name p) <= 30 /\ has_digit (name p) = false /\
  token 9 (id p) = true /\
  exists g0 g1 g2 g3 g4,
    genes p = [g0; g1; g2; g3; g4] /\
    token 21 g0 = true /\ token 21 g1 = true /\ token 21 g2 = true /\
    token 21 g3 = true /\ token 21 g4 = true.
Proof.
  unfold well_formed. intros H.
  apply andb_prop in H as [H Hg]. apply andb_prop in H as [H Hl].
  apply andb_prop in H as [H Hi]. apply andb_prop in H as [Hn Hd].
  apply Nat.leb_le in Hn. apply negb_true_iff in Hd.
  apply Nat.eqb_eq in Hl.
  repeat split; try assumption.
  destruct (genes p) as [|g0 [|g1 [|g2 [|g3 [|g4 [|g5 l]]]]]];
    try discriminate Hl.
  exists g0, g1, g2, g3, g4. split; [reflexivity|].
  simpl in Hg. repeat (apply andb_prop in Hg as [? Hg]). auto.
Qed.

(** One read of the second format on a record as either format of
    [fprintf] writes it, with [lead] left in front of it. *)
Lemma fscanf_person_reread lead c p r old :
  record_of c = Some p ->
  string_forall isspace lead = true -> well_formed p = true ->
  String.length lead + String.length (name p) <= 30 ->
  fscanf_person fmt_next (lead +:+ render_call c +:+ r) old =
  (7%Z,
   {| name := lead +:+ name p +:+
              spaces (30 - String.length lead - String.length (name p));
      id := id p; genes := genes p |},
   spaces (21 - String.length (gene p 4)) +:+ r).
Proof.
  intros Hc Hlead Hwf Hfit.
  destruct (well_formed_elim p Hwf)
    as (_ & Hd & Hi & g0 & g1 & g2 & g3 & g4 & Hg & H0 & H1 & H2 & H3 & H4).
  destruct p as [nm i gs]. simpl in Hd, Hi, Hg, Hfit. subst gs.
  unfold fscanf_person, fmt_next.
  destruct c as [|p'|p']; [discriminate Hc| |]; injection Hc as ->;
    unfold render_call, render_genes, gene; cbn [name id genes nth];
    rewrite !pad_right_spaces, !append_assoc.
  - rewrite (vfscanf_name _ lead nm _ Hlead Hd Hfit). cbn zeta.
    rewrite (vfscanf_white_s 9 _ _ i _ (spaces_isspace _) Hi). cbn zeta.
    rewrite (vfscanf_white_s2 21 _ _ " " g0 _ (spaces_isspace _) eq_refl H0).
    cbn zeta.
    rewrite (vfscanf_white_s2 21 _ _ " " g1 _ (spaces_isspace _) eq_refl H1).
    cbn zeta.
    rewrite (vfscanf_white_s2 21 _ _ " " g2 _ (spaces_isspace _) eq_refl H2).
    cbn zeta.
    rewrite (vfscanf_white_s2 21 _ _ " " g3 _ (spaces_isspace _) eq_refl H3).
    cbn zeta.
    rewrite (vfscanf_white_s2 21 _ _ " " g4 _ (spaces_isspace _) eq_refl H4).
    reflexivity.
  - rewrite (vfscanf_name _ lead nm _ Hlead Hd Hfit). cbn zeta.
    rewrite (vfscanf_white_s2 9 _ _ " " i _ (spaces_isspace _) eq_refl Hi).
    cbn zeta.
    rewrite (vfscanf_white_s2 21 _ _ " " g0 _ (spaces_isspace _) eq_refl H0).
    cbn zeta.
    rewrite (vfscanf_white_s2 21 _ _ " " g1 _ (spaces_isspace _) eq_refl H1).
    cbn zeta.
    rewrite (vfscanf_white_s2 21 _ _ " " g2 _ (spaces_isspace _) eq_refl H2).
    cbn zeta.
    rewrite (vfscanf_white_s2 21 _ _ " " g3 _ (spaces_isspace _) eq_refl H3).
    cbn zeta.
    rewrite (vfscanf_white_s2 21 _ _ " " g4 _ (spaces_isspace _) eq_refl H4).
    reflexivity.
Qed.

Lemma vfscanf_s_white w fmt f :
  string_forall isspace f = true ->
  assigned (vfscanf (White :: Conv_s w :: fmt) f) = [].
Proof.
  intros Hf.
  change (vfscanf (White :: Conv_s w :: fmt) f)
    with (conv (fun c => negb (isspace c)) w (skip_space (skip_space f))
            (vfscanf fmt)).
  rewrite (skip_space_white f Hf). unfold conv. destruct w; reflexivity.
Qed.

Lemma fscanf_person_white ws old :
  string_forall isspace ws = true ->
  exists n q f', fscanf_person fmt_next ws old = (n, q, f') /\ n <> 7%Z.
Proof.
  intros Hws. unfold fscanf_person, fmt_next.
  do 3 eexists. split; [reflexivity|].
  match goal with
  | |- scan_count (vfscanf (_ :: White :: Conv_s 9 :: ?fmt) ws) <> _ =>
      change (vfscanf (Conv_nondigits 30 :: White :: Conv_s 9 :: fmt) ws)
        with (conv (fun c => negb (isdigit c)) 30 ws
                (vfscanf (White :: Conv_s 9 :: fmt)));
      pose proof (vfscanf_s_white 9 fmt) as Hk;
      generalize dependent (vfscanf (White :: Conv_s 9 :: fmt))
  end.
  intros k Hk. unfold conv.
  destruct (scan_while (fun c => negb (isdigit c)) 30 ws) as [s f1] eqn:E.
  apply scan_while_spec in E as (E & _ & _).
  destruct s as [|c s]; cbn [is_empty]; unfold scan_count;
    cbn [assigned input_failure].
  - destruct (is_empty ws); unfold EOF; lia.
  - rewrite Hk; [cbn [length]; lia|].
    rewrite E, string_forall_app in Hws. apply andb_prop in Hws as [_ H].
    exact H.
Qed.

Lemma db_records_white ws cur0 :
  string_forall isspace ws = true -> db_records ws cur0 = [].
Proof.
  intros Hws. rewrite db_records_unfold.
  destruct (fscanf_person_white ws cur0 Hws) as (n & q & f' & -> & Hn).
  destruct (n =? 7)%Z eqn:E; [apply Z.eqb_eq in E; contradiction | reflexivity].
Qed.

Lemma render_cons c out : render (c :: out) = render_call c +:+ render out.
Proof. reflexivity. Qed.

Lemma db_records_render out : forall lead cur0,
  string_forall isspace lead = true ->
  rereadable (String.length lead) out = true ->
  db_records (lead +:+ render out) cur0 = reread lead out.
Proof.
  assert (forall c p out lead cur0,
    (forall lead cur0, string_forall isspace lead = true ->
       rereadable (String.length lead) out = true ->
       db_records (lead +:+ render out) cur0 = reread lead out) ->
    record_of c = Some p ->
    string_forall isspace lead = true ->
    well_formed p && (String.length lead + String.length (name p) <=? 30)%nat &&
      rereadable (21 - String.length (gene p 4)) out = true ->
    db_records (lead +:+ render (c :: out)) cur0 =
    {| name := lead +:+ name p +:+
               spaces (30 - String.length lead - String.length (name p));
       id := id p; genes := genes p |} ::
    reread (spaces (21 - String.length (gene p 4))) out) as Hrec.
  { clear out. intros c p out lead cur0 IH Hc Hlead H.
    apply andb_prop in H as [H Hout]. apply andb_prop in H as [Hwf Hfit].
    apply Nat.leb_le in Hfit.
    rewrite render_cons, db_records_unfold.
    rewrite (fscanf_person_reread lead c p _ cur0 Hc Hlead Hwf Hfit).
    change (7 =? 7)%Z with true. cbv iota. f_equal.
    apply IH; [apply spaces_isspace | rewrite spaces_length; exact Hout]. }
  induction out as [|c out IH]; intros lead cur0 Hlead H.
  - change (render []) with "". rewrite append_nil_r.
    apply db_records_white. exact Hlead.
  - destruct c as [|p|p].
    + rewrite render_cons. change (render_call Newline) with nl.
      rewrite <- append_assoc. cbn [reread rereadable] in *.
      apply IH.
      * rewrite string_forall_app, Hlead. reflexivity.
      * rewrite length_append. change (String.length nl) with 1.
        rewrite Nat.add_1_r. exact H.
    + exact (Hrec (Record_glued p) p out lead cur0 IH eq_refl Hlead H).
    + exact (Hrec (Record_spaced p) p out lead cur0 IH eq_refl Hlead H).
Qed.

Lemma reread_read_back out : forall lead,
  string_forall isspace lead = true ->
  rereadable (String.length lead) out = true ->
  Forall2 read_back (reread lead out) (written out).
Proof.
  assert (forall p out lead,
    (forall lead, string_forall isspace lead = true ->
       rereadable (String.length lead) out = true ->
       Forall2 read_back (reread lead out) (written out)) ->
    string_forall isspace lead = true ->
    well_formed p && (String.length lead + String.length (name p) <=? 30)%nat &&
      rereadable (21 - String.length (gene p 4)) out = true ->
    Forall2 read_back
      ({| name := lead +:+ name p +:+
                  spaces (30 - String.length lead - String.length (name p));
          id := id p; genes := genes p |} ::
       reread (spaces (21 - String.length (gene p 4))) out)
      (p :: written out)) as Hrec.
  { clear out. intros p out lead IH Hlead H.
    apply andb_prop in H as [H Hout]. apply andb_prop in H as [_ Hfit].
    apply Nat.leb_le in Hfit. constructor.
    - repeat split; cbn [name id genes].
      + rewrite !length_append, spaces_length. lia.
      + exists lead, (spaces (30 - String.length lead - String.length (name p))).
        split; [exact Hlead|]. split; [apply spaces_isspace | reflexivity].
    - apply IH; [apply spaces_isspace | rewrite spaces_length; exact Hout]. }
  induction out as [|c out IH]; intros lead Hlead H; [constructor|].
  destruct c as [|p|p].
  - cbn [reread rereadable] in *. change (written (Newline :: out)) with (written out).
    apply IH.
    + rewrite string_forall_app, Hlead. reflexivity.
    + rewrite length_append. change (String.length (String (ascii_of_nat 10) "")) with 1.
      rewrite Nat.add_1_r. exact H.
  - exact (Hrec p out lead IH Hlead H).
  - exact (Hrec p out lead IH Hlead H).
Qed.

Lemma meets_genes query m r p :
  genes r = genes p -> meets query m r = meets query m p.
Proof.
  intros H. unfold meets, match_count, gene. rewrite H. reflexivity.
Qed.

Lemma Forall2_filter_agree {A B} (R : A -> B -> Prop) f g l l' :
  (forall x y, R x y -> f x = g y) ->
  Forall2 R l l' -> Forall2 R (List.filter f l) (List.filter g l').
Proof.
  intros Hfg H. induction H as [|x y l l' HR _ IH]; [constructor|].
  cbn [List.filter]. rewrite (Hfg x y HR).
  destruct (g y); [constructor; assumption | exact IH].
Qed.

Lemma db_records_read_back out cur0 :
  rereadable 0 out = true ->
  Forall2 read_back (db_records (render out) cur0) (written out).
Proof.
  intros H.
  rewrite <- (append_nil_l (render out)), (db_records_render out "" cur0 eq_refl H).
  exact (reread_read_back out "" eq_refl H).
Qed.

(** X10.  Round trip through the database file.  When every record written
    is well formed and its name fits in 30 columns together with the white
    space left in front of it, reading the text of the calls of [fprintf]
    back with the second format gives one record per record written, in
    order, with the same identifier and genes; the name read is 30 bytes
    long: the white space left over, the name written and its padding. *)
Theorem database_read_back out cur0 :
  rereadable 0 out = true ->
  Forall2 read_back (db_records (render out) cur0) (written out).
Proof. apply db_records_read_back. Qed.

Lemma database_read_back_witness :
  Forall2 read_back (db_records (render database_AB) blank) (written database_AB).
Proof.
  apply (database_read_back database_AB blank). vm_compute. reflexivity.
Defined.

(** X11.  The donors found in a database that the merge wrote: under the
    same condition on the records written, and when at most [MAX_PERSONS]
    of them meet the threshold, [getPotentialDonors] returns one donor for
    each record written that meets the threshold, in the order written,
    with the identifier and the genes written, and the size is their
    number. *)
Theorem donors_of_written_database out query min_match cur0 :
  rereadable 0 out = true ->
  length (List.filter (meets query min_match) (written out)) <= MAX_PERSONS ->
  exists donors,
    getPotentialDonors (render out) query min_match cur0 =
      Some (Donors donors (Z.of_nat (length donors))) /\
    Forall2 read_back donors (List.filter (meets query min_match) (written out)).
Proof.
  intros H Hcap.
  pose proof (db_records_read_back out cur0 H) as Hrb.
  assert (Forall2 read_back
            (List.filter (meets query min_match) (db_records (render out) cur0))
            (List.filter (meets query min_match) (written out))) as Hf.
  { apply Forall2_filter_agree; [|exact Hrb].
    intros r p (_ & Hg & _). apply meets_genes. exact Hg. }
  eexists. split; [|exact Hf].
  rewrite getPotentialDonors_spec. unfold donors_outcome.
  rewrite (Forall2_length _ _ _ Hf).
  apply Nat.leb_le in Hcap. rewrite Hcap. reflexivity.
Qed.

Lemma donors_of_written_database_witness :
  exists donors,
    getPotentialDonors (render database_AB) patient_X 5 blank =
      Some (Donors donors (Z.of_nat (length donors))) /\
    Forall2 read_back donors
      (List.filter (meets patient_X 5) (written database_AB)).
Proof.
  apply (donors_of_written_database database_AB patient_X 5 blank);
    [vm_compute; reflexivity | vm_compute; lia].
Defined.

(** ** The record the merge selects *)

Lemma strcmp_asym a b : (strcmp a b <= 0)%Z -> (strcmp b a < 0)%Z -> False.
Proof.
  rewrite strcmp_le, strcmp_lt. intros [H| ->] H'.
  - pose proof (compare_lt_trans a b a H H') as Hc.
    rewrite compare_refl in Hc. discriminate Hc.
  - rewrite compare_refl in H'. discriminate H'.
Qed.

Lemma least_at_unique cur n k k' :
  least_at cur n k -> least_at cur n k' -> k = k'.
Proof.
  intros (Hk & Hv & Hl) (Hk' & Hv' & Hl').
  destruct (Nat.lt_trichotomy k k') as [Hlt|[Heq|Hlt]]; [|exact Heq|]; exfalso.
  - destruct (Hl k' Hk' Hv') as [Hle _]. destruct (Hl' k Hk Hv) as [_ Hs].
    exact (strcmp_asym _ _ Hle (Hs Hlt)).
  - destruct (Hl' k Hk Hv) as [Hle _]. destruct (Hl k' Hk' Hv') as [_ Hs].
    exact (strcmp_asym _ _ Hle (Hs Hlt)).
Qed.

(** X12.  The scan for the smallest record.  It finds no record exactly
    when no slot holds a record with a name, and it finds slot [k] exactly
    when [k] holds a record with a name that no other such record
    precedes under [strcmp], and that comes strictly before those of all
    such records in earlier slots: among equal names the first slot is
    taken. *)
Theorem smallest_is_first_least st :
  (smallest st = None <->
   Forall (fun p => valid p = false) (currentPersons st)) /\
  (forall k, smallest st = Some k <->
     least_at (currentPersons st) (length (currentPersons st)) k).
Proof.
  assert (forall k, least_at (currentPersons st) (length (currentPersons st)) k ->
            ~ Forall (fun p => valid p = false) (currentPersons st)) as Hno.
  { intros k (Hk & Hv & _) Hall.
    rewrite Forall_forall in Hall.
    assert (nth k (currentPersons st) zero_person ∈ currentPersons st) as Hin
      by (apply list_elem_of_In, nth_In; exact Hk).
    rewrite (Hall _ Hin) in Hv. discriminate Hv. }
  split.
  - split; [apply smallest_None|].
    intros Hall. destruct (smallest st) as [k|] eqn:E; [|reflexivity].
    destruct (Hno k (smallest_least st k E) Hall).
  - intros k. split; [apply smallest_least|].
    intros Hk. destruct (smallest st) as [k'|] eqn:E.
    + f_equal. exact (least_at_unique _ _ k' k (smallest_least st k' E) Hk).
    + destruct (Hno k Hk (smallest_None st E)).
Qed.

(** ** The merge: order, shape of the output, units *)

(** X13.  The merge is a correct merge on the names as they are loaded:
    when, for every unit, the current record and the records still to be
    read are in non-decreasing order of name after the first loop, the
    merge ends and the records written are in non-decreasing order of
    name. *)
Theorem merge_sorted_when_loaded_in_order us uninit :
  loaded_in_order (initial_state us uninit) = true ->
  exists o,
    createDatabase us uninit = Some o /\ running o = false /\
    sorted_by_name (written (outFile (final_state o))) = true.
Proof. apply merge_sorted_by_loaded_names. Qed.

Lemma merge_sorted_when_loaded_in_order_witness :
  exists o,
    createDatabase [nl +:+ unit_A; nl +:+ unit_B] no_stack = Some o /\
    running o = false /\
    sorted_by_name (written (outFile (final_state o))) = true.
Proof.
  apply (merge_sorted_when_loaded_in_order [nl +:+ unit_A; nl +:+ unit_B] no_stack).
  vm_compute. reflexivity.
Defined.

(** X14.  A unit whose first record has a name with nothing but white
    space before its first digit: the first loop cleans the name to the
    empty string, the merge ends, no iteration selects the unit, and the
    unit is left where its first read left it, so none of its records is
    written. *)
Theorem first_blank_name_retires_unit us uninit i f p f' :
  us !! i = Some f ->
  fscanf_person fmt_first f (uninit i) = (7%Z, p, f') ->
  blank_name (name p) = true ->
  cleanName (name p) = "" /\
  exists o,
    createDatabase us uninit = Some o /\ running o = false /\
    units (final_state o) !! i = Some f' /\
    Forall (fun s => sel_unit s <> i) (history (final_state o)).
Proof. apply blank_first_name_stuck. Qed.

Lemma first_blank_name_retires_unit_witness :
  cleanName " " = "" /\
  exists o,
    createDatabase [unit_D; unit_Alice] no_stack = Some o /\
    running o = false /\
    units (final_state o) !! 0 = Some (nl +:+ "Bob 222 Y Y Y Y Y") /\
    Forall (fun s => sel_unit s <> 0) (history (final_state o)).
Proof.
  apply (first_blank_name_retires_unit [unit_D; unit_Alice] no_stack 0 unit_D
           {| name := " "; id := "111"; genes := ["X"; "X"; "X"; "X"; "X"] |}
           (nl +:+ "Bob 222 Y Y Y Y Y"));
    vm_compute; reflexivity.
Defined.

Lemma well_paired_app out1 out2 :
  well_paired out1 = true -> well_paired out2 = true ->
  well_paired (out1 ++ out2) = true.
Proof.
  revert out1. fix IH 1. intros [|c out1] H1 H2; [exact H2|].
  destruct c as [|p|p]; simpl in H1 |- *; try discriminate H1.
  - destruct out1 as [|[|q|q] out1]; try discriminate H1.
    simpl. apply IH; assumption.
  - apply IH; assumption.
Qed.

Lemma format_history_paired prev h :
  well_paired (format_history prev h) = true.
Proof.
  revert prev. induction h as [|s h IH]; intros prev; [reflexivity|].
  cbn [format_history]. apply well_paired_app; [|apply IH].
  destruct (sel_written s); [|reflexivity].
  destruct (negb (bool_decide (prev = Some (sel_unit s))) &&
            negb (bool_decide (prev = None))); reflexivity.
Qed.

Lemma well_paired_last out :
  well_paired out = true -> last out <> Some Newline.
Proof.
  assert (forall n out, length out <= n -> well_paired out = true ->
            last out <> Some Newline) as H.
  { clear out. induction n as [|n IH]; intros out Hn Hp.
    - destruct out; [discriminate | simpl in Hn; lia].
    - destruct out as [|c out]; [discriminate|].
      destruct c as [|p|p]; simpl in Hp; try discriminate Hp.
      + destruct out as [|[|q|q] out]; try discriminate Hp.
        destruct out as [|c' out']; [discriminate|].
        change (last (Newline :: Record_glued q :: c' :: out'))
          with (last (c' :: out')).
        apply IH; [simpl in *; lia | exact Hp].
      + destruct out as [|c' out']; [discriminate|].
        change (last (Record_spaced p :: c' :: out')) with (last (c' :: out')).
        apply IH; [simpl in *; lia | exact Hp]. }
  apply (H (length out)). lia.
Qed.

(** X15.  The calls of [fprintf]: for every input and every capacity of
    [processedIDs], a line break is written only directly in front of a
    record written without the space, and such a record only directly
    after a line break.  The output never ends in a line break, and never
    holds two line breaks in a row. *)
Theorem line_breaks_precede_glued_records cap us uninit :
  exists o,
    createDatabase_cap cap us uninit = Some o /\ running o = false /\
    well_paired (outFile (final_state o)) = true /\
    last (outFile (final_state o)) <> Some Newline.
Proof.
  destruct (createDatabase_cap_total cap us uninit) as (o & E & Hr).
  exists o. split; [exact E|]. split; [exact Hr|].
  assert (well_paired (outFile (final_state o)) = true) as Hp.
  { destruct (createDatabase_cap_follows_history cap us uninit o E) as [-> _].
    apply format_history_paired. }
  split; [exact Hp | apply well_paired_last; exact Hp].
Qed.

(** ** What one iteration does to the slots and to the history *)

Lemma merge_step_Continue cap st st' :
  merge_step cap st = Continue st' ->
  exists k n q f',
    smallest st = Some k /\ (0 < activeFiles st)%Z /\
    fscanf_person fmt_next (nth k (units st) "") (current st k) = (n, q, f') /\
    history st' = history st ++
      [{| sel_unit := k; sel_person := current st k;
          sel_written := negb (duplicate st k) |}] /\
    units st' = <[k := f']> (units st) /\
    currentPersons st' =
      <[k := if (n =? 7)%Z then q else zero_person]> (currentPersons st).
Proof.
  intros H.
  assert (forall k st1,
    units st1 = units st -> currentPersons st1 = currentPersons st ->
    history st1 = history st ++
      [{| sel_unit := k; sel_person := current st k;
          sel_written := negb (duplicate st k) |}] ->
    exists n q f',
      fscanf_person fmt_next (nth k (units st) "") (current st k) = (n, q, f') /\
      history (read_next k st1) = history st ++
        [{| sel_unit := k; sel_person := current st k;
            sel_written := negb (duplicate st k) |}] /\
      units (read_next k st1) = <[k := f']> (units st) /\
      currentPersons (read_next k st1) =
        <[k := if (n =? 7)%Z then q else zero_person]> (currentPersons st))
    as Hread.
  { intros k st1 Hu Hc Hh. unfold read_next, current. rewrite Hu, Hc.
    fold (current st k).
    destruct (fscanf_person fmt_next (nth k (units st) "") (current st k))
      as [[n q] f'].
    exists n, q, f'. split; [reflexivity|].
    destruct (n =? 7)%Z; simpl; rewrite Hh; auto. }
  destruct (merge_step_cases cap st)
    as [E|(k & Hk & Ha & [[_ E]|[(_ & _ & E)|(_ & _ & E)]])];
    rewrite H in E; try discriminate E; injection E as ->.
  - destruct (Hread k (write_record k st) eq_refl eq_refl eq_refl)
      as (n & q & f' & E1 & E2 & E3 & E4).
    exists k, n, q, f'. repeat (split; [assumption|]). assumption.
  - destruct (Hread k (store_id (id (current st k)) (write_record k st))
                eq_refl eq_refl eq_refl)
      as (n & q & f' & E1 & E2 & E3 & E4).
    exists k, n, q, f'. repeat (split; [assumption|]). assumption.
Qed.

Lemma merge_step_OutOfBounds cap st st' :
  merge_step cap st = OutOfBounds st' ->
  exists k,
    smallest st = Some k /\ (0 < activeFiles st)%Z /\
    history st' = history st ++
      [{| sel_unit := k; sel_person := current st k; sel_written := true |}] /\
    units st' = units st /\ currentPersons st' = currentPersons st.
Proof.
  intros H.
  destruct (merge_step_cases cap st)
    as [E|(k & Hk & Ha & [[_ E]|[(_ & _ & E)|(Hd & _ & E)]])];
    rewrite H in E; try discriminate E; injection E as ->.
  exists k. split; [exact Hk|]. split; [exact Ha|].
  unfold write_record. cbn [history units currentPersons]. rewrite Hd. auto.
Qed.

(** ** The number of iterations *)

Lemma read_first_measure us i uninit fs ps a :
  read_first us i uninit = (fs, ps, a) ->
  sum_list (map String.length fs) <= sum_list (map String.length us) /\
  (0 <= a <= Z.of_nat (length us))%Z.
Proof.
  revert i fs ps a. induction us as [|f us IH]; intros i fs ps a H.
  - inversion H; subst. simpl. lia.
  - cbn [read_first] in H.
    destruct (fscanf_person fmt_first f (uninit i)) as [[n p] f'] eqn:E.
    destruct (read_first us (S i) uninit) as [[fs0 ps0] a0] eqn:E0.
    apply fscanf_person_rest in E as [Hle _].
    destruct (IH _ _ _ _ E0) as [H1 H2].
    destruct (n =? 7)%Z; inversion H; subst; simpl; lia.
Qed.

(** X16.  The merge loop ends for every input, whatever the units hold,
    and its body runs at most as many times as the unit files have bytes
    plus once per unit: every iteration reads at least one byte or retires
    a unit. *)
Theorem merge_iterations_bounded cap us uninit :
  exists o,
    createDatabase_cap cap us uninit = Some o /\ running o = false /\
    length (history (final_state o)) <=
      sum_list (map String.length us) + length us.
Proof.
  destruct (createDatabase_cap_total cap us uninit) as (o & E & Hr).
  exists o. split; [exact E|]. split; [exact Hr|].
  set (M := sum_list (map String.length us) + length us).
  revert E.
  apply (merge_loop_invariant
           (fun st => length (history st) + measure st <= M)
           (fun o => length (history (final_state o)) <= M) cap).
  - intros st st' HI Hs.
    pose proof (merge_step_measure cap st st' Hs) as Hm.
    destruct (merge_step_Continue cap st st' Hs)
      as (k & n & q & f' & _ & _ & _ & Hh & _).
    rewrite Hh, length_app. simpl. lia.
  - intros st o' HI Hs Hr'.
    destruct o' as [st'|st'|st']; [discriminate Hr'| |]; simpl.
    + apply merge_step_Finished in Hs as [-> _]. lia.
    + destruct (merge_step_OutOfBounds cap st st' Hs)
        as (k & _ & Ha & Hh & _).
      rewrite Hh, length_app. simpl. unfold measure in HI. lia.
  - unfold initial_state, measure, M.
    destruct (read_first us 0 uninit) as [[fs ps] a] eqn:E0.
    destruct (read_first_measure _ _ _ _ _ _ E0) as [H1 H2].
    simpl. lia.
Qed.

(** ** The records of one unit are selected in the order of the file *)

Lemma nth_insert_eq {A} (l : list A) k x d :
  k < length l -> nth k (<[k := x]> l) d = x.
Proof.
  intros Hk. rewrite nth_lookup, list_lookup_insert_eq by exact Hk.
  reflexivity.
Qed.

Lemma nth_insert_ne {A} (l : list A) k i x d :
  k <> i -> nth i (<[k := x]> l) d = nth i l d.
Proof.
  intros Hne. rewrite !nth_lookup, list_lookup_insert_ne by exact Hne.
  reflexivity.
Qed.

Lemma from_unit_snoc i st st' k p w :
  history st' = history st ++
    [{| sel_unit := k; sel_person := p; sel_written := w |}] ->
  from_unit i st' = from_unit i st ++ (if Nat.eqb k i then [p] else []).
Proof.
  intros H. unfold from_unit. rewrite H, List.filter_app, map_app.
  cbn [List.filter sel_unit]. destruct (Nat.eqb k i); reflexivity.
Qed.

Lemma all_invalid_loaded i st :
  Forall (fun p => valid p = false) (currentPersons st) -> loaded i st = [].
Proof.
  intros H. unfold loaded, pending_of, current.
  destruct (nth_lookup_or_length (currentPersons st) i zero_person) as [Hi|Hi].
  - rewrite Forall_forall in H.
    rewrite (H _ (list_elem_of_lookup_2 _ _ _ Hi)). reflexivity.
  - rewrite nth_overflow by lia. reflexivity.
Qed.

Lemma loaded_first us : forall j uninit fs ps a,
  read_first us j uninit = (fs, ps, a) ->
  first_records_valid us j uninit = true ->
  forall i f, us !! i = Some f ->
    pending_of (nth i ps zero_person) (nth i fs "") =
    unit_records f (uninit (j + i)).
Proof.
  induction us as [|f0 us IH]; intros j uninit fs ps a H Hv i f Hi;
    [discriminate Hi|].
  cbn [read_first first_records_valid] in H, Hv.
  apply andb_prop in Hv as [Hv0 Hv].
  destruct (read_first us (S j) uninit) as [[fs0 ps0] a0] eqn:E0.
  destruct i as [|i].
  - injection Hi as ->. rewrite Nat.add_0_r. unfold unit_records in *.
    destruct (fscanf_person fmt_first f (uninit j)) as [[n p] f'].
    destruct (n =? 7)%Z; [|discriminate Hv0].
    injection H as <- <- _. cbn [nth]. unfold pending_of. rewrite Hv0.
    reflexivity.
  - replace (j + S i) with (S j + i) by lia.
    rewrite <- (IH (S j) uninit fs0 ps0 a0 E0 Hv i f Hi).
    destruct (fscanf_person fmt_first f0 (uninit j)) as [[n p] f'].
    destruct (n =? 7)%Z; injection H as <- <- _; reflexivity.
Qed.

Lemma merge_step_unit_order cap (R : nat -> list person) st st' :
  length (units st) = length (currentPersons st) ->
  (forall i, from_unit i st ++ loaded i st = R i) ->
  merge_step cap st = Continue st' ->
  forall i, from_unit i st' ++ loaded i st' = R i.
Proof.
  intros Hlen HJ Hs i.
  destruct (merge_step_Continue cap st st' Hs)
    as (k & n & q & f' & Hk & _ & E & Hh & Hu & Hc).
  apply smallest_valid in Hk as [Hk Hv].
  rewrite (from_unit_snoc i st st' k _ _ Hh), <- (HJ i).
  unfold loaded, current. rewrite Hu, Hc.
  destruct (Nat.eqb k i) eqn:Eki.
  - apply Nat.eqb_eq in Eki. subst i.
    rewrite !nth_insert_eq by lia. rewrite <- app_assoc. f_equal.
    pose proof (read_next_pending_of _ (nth k (units st) "") Hv) as Hp.
    rewrite E in Hp. fold (current st k). rewrite Hp.
    destruct (n =? 7)%Z; reflexivity.
  - apply Nat.eqb_neq in Eki.
    rewrite !nth_insert_ne by exact Eki. rewrite app_nil_r. reflexivity.
Qed.

(** X17.  The file order of every unit is kept.  When the first read of
    every unit gives a record with a name, the records that the
    iterations select from unit [i] are, in the order selected, the first
    records of unit [i] in the order of the file; they are all its records
    when the loop is left by its condition or by [break]. *)
Theorem units_read_in_order cap us uninit :
  first_records_valid us 0 uninit = true ->
  exists o,
    createDatabase_cap cap us uninit = Some o /\ running o = false /\
    forall i f, us !! i = Some f ->
      from_unit i (final_state o) `prefix_of` unit_records f (uninit i) /\
      (forall st, o = Finished st ->
         from_unit i st = unit_records f (uninit i)).
Proof.
  intros Hv.
  destruct (createDatabase_cap_total cap us uninit) as (o & E & Hr).
  exists o. split; [exact E|]. split; [exact Hr|].
  set (R := fun i => loaded i (initial_state us uninit)).
  assert (forall i,
            from_unit i (final_state o) `prefix_of` R i /\
            (forall st, o = Finished st -> from_unit i st = R i)) as HQ.
  { revert E.
    apply (merge_loop_invariant
             (fun st => complete_inv (all_records us 0 uninit) st /\
                        forall i, from_unit i st ++ loaded i st = R i)
             (fun o => forall i,
                from_unit i (final_state o) `prefix_of` R i /\
                (forall st, o = Finished st -> from_unit i st = R i)) cap).
    - intros st st' [HC HJ] Hs. split.
      + exact (merge_step_complete cap _ st st' HC Hs).
      + destruct HC as (_ & _ & Hlen).
        exact (merge_step_unit_order cap R st st' Hlen HJ Hs).
    - intros st o' [HC HJ] Hs Hr' i.
      destruct o' as [st'|st'|st']; [discriminate Hr'| |]; cbn [final_state].
      + apply merge_step_Finished in Hs as [-> Hwhy].
        assert (loaded i st = []) as Hl.
        { apply all_invalid_loaded. destruct HC as (_ & Ha & _).
          destruct Hwhy as [H0|Hnone]; [|exact (smallest_None st Hnone)].
          apply count_valid_zero. lia. }
        pose proof (HJ i) as Hi. rewrite Hl, app_nil_r in Hi.
        split; [rewrite Hi; reflexivity|].
        intros st0 Hst0. injection Hst0 as <-. exact Hi.
      + split; [|intros st0 Hst0; discriminate Hst0].
        destruct (merge_step_OutOfBounds cap st st' Hs)
          as (k & Hk & _ & Hh & _).
        apply smallest_valid in Hk as [_ Hvk].
        rewrite (from_unit_snoc i st st' k _ _ Hh), <- (HJ i).
        destruct (Nat.eqb k i) eqn:Eki.
        * apply Nat.eqb_eq in Eki. subst i.
          unfold loaded, pending_of. rewrite Hvk.
          eexists. rewrite <- app_assoc. reflexivity.
        * exists (loaded i st). rewrite app_nil_r. reflexivity.
    - split; [exact (initial_state_complete us uninit Hv)|].
      intros i. unfold from_unit.
      destruct (initial_state_fields us uninit) as (_ & _ & _ & ->).
      reflexivity. }
  intros i f Hi.
  assert (R i = unit_records f (uninit i)) as <-; [|exact (HQ i)].
  unfold R, loaded, current, initial_state.
  destruct (read_first us 0 uninit) as [[fs ps] a] eqn:E0.
  cbn [currentPersons units].
  exact (loaded_first us 0 uninit fs ps a E0 Hv i f Hi).
Qed.

Lemma units_read_in_order_witness :
  exists o,
    createDatabase_cap MAX_UNITS [unit_A; unit_B] no_stack = Some o /\
    running o = false /\
    forall i f, [unit_A; unit_B] !! i = Some f ->
      from_unit i (final_state o) `prefix_of` unit_records f (no_stack i) /\
      (forall st, o = Finished st ->
         from_unit i st = unit_records f (no_stack i)).
Proof.
  apply (units_read_in_order MAX_UNITS [unit_A; unit_B] no_stack).
  vm_compute. reflexivity.
Defined.

(** ** The records written fit their columns *)

Lemma pad_right_length w s :
  String.length s <= w -> String.length (pad_right w s) = w.
Proof.
  intros H. rewrite pad_right_spaces, length_append, spaces_length. lia.
Qed.

Lemma render_call_width c :
  match record_of c with
  | Some p => well_formed p = true
  | None => True
  end ->
  String.length (render_call c) = width c.
Proof.
  destruct c as [|p|p]; [reflexivity| |]; cbn [record_of]; intros Hwf;
    destruct (well_formed_elim p Hwf)
      as (Hn & _ & Hi & g0 & g1 & g2 & g3 & g4 & Hg & H0 & H1 & H2 & H3 & H4);
    apply token_elim in Hi as [[_ Hi] _];
    apply token_elim in H0 as [[_ H0] _];
    apply token_elim in H1 as [[_ H1] _];
    apply token_elim in H2 as [[_ H2] _];
    apply token_elim in H3 as [[_ H3] _];
    apply token_elim in H4 as [[_ H4] _];
    unfold render_call, render_genes, gene; rewrite Hg; cbn [nth];
    rewrite !length_append, !pad_right_length by assumption; reflexivity.
Qed.

Lemma well_formed_cleaned q :
  well_formed q = true ->
  well_formed (with_name q (cleanName (name q))) = true.
Proof.
  unfold well_formed, with_name. cbn [name id genes]. intros H.
  apply andb_prop in H as [H Hg]. apply andb_prop in H as [H Hl].
  apply andb_prop in H as [H Hi]. apply andb_prop in H as [Hn _].
  rewrite Hg, Hl, Hi, !andb_true_r.
  rewrite cleanName_kept, kept_no_digit, andb_true_r.
  apply Nat.leb_le. apply Nat.leb_le in Hn.
  destruct (kept_prefix (name q)) as [r Hr].
  rewrite Hr, length_append in Hn. lia.
Qed.

Lemma read_first_well_formed us : forall i uninit fs ps a,
  first_reads_ok us = true ->
  read_first us i uninit = (fs, ps, a) ->
  Forall (fun p => well_formed p = true) ps.
Proof.
  induction us as [|f us IH]; intros i uninit fs ps a Hok H.
  - injection H as _ <- _. constructor.
  - cbn [read_first] in H. cbn [first_reads_ok forallb] in Hok.
    apply andb_prop in Hok as [H7 Hok].
    destruct (fscanf_person fmt_first f (uninit i)) as [[n p] f'] eqn:E.
    destruct (read_first us (S i) uninit) as [[fs0 ps0] a0] eqn:E0.
    assert (n = 7%Z) as ->.
    { unfold fscanf_person in E. injection E as <- _ _.
      apply Z.eqb_eq. exact H7. }
    change (7 =? 7)%Z with true in H. cbv iota in H. injection H as _ <- _.
    constructor; [|exact (IH _ _ _ _ _ Hok E0)].
    apply well_formed_cleaned.
    exact (proj1 (fscanf_person_well_formed fmt_first f _ p f'
                    (or_introl eq_refl) E)).
Qed.

(** X18.  When the first read of every unit returns 7, every record the
    merge writes fits the arrays of [person] and its columns: a name of 1
    to 30 bytes without a digit, an identifier of 1 to 9 bytes and five
    genes of 1 to 21 bytes.  Every record then takes 150 bytes of the
    output, or 149 when it is written without the space. *)
Theorem written_records_fit cap us uninit :
  first_reads_ok us = true ->
  exists o,
    createDatabase_cap cap us uninit = Some o /\ running o = false /\
    Forall (fun p => well_formed p = true /\ valid p = true)
      (written (outFile (final_state o))) /\
    Forall (fun c => String.length (render_call c) = width c)
      (outFile (final_state o)).
Proof.
  intros Hok.
  destruct (createDatabase_cap_total cap us uninit) as (o & E & Hr).
  exists o. split; [exact E|]. split; [exact Hr|].
  assert (Forall (fun p => well_formed p = true /\ valid p = true)
            (selected (final_state o))) as Hsel.
  { revert E.
    assert (forall st k, smallest st = Some k ->
              Forall (fun p => valid p = true -> well_formed p = true)
                (currentPersons st) ->
              well_formed (current st k) = true /\
              valid (current st k) = true) as Hcur.
    { intros st k Hk Hall. apply smallest_valid in Hk as [Hk Hv].
      split; [|exact Hv].
      exact (proj1 (Forall_nth _ zero_person _) Hall k Hk Hv). }
    apply (merge_loop_invariant
             (fun st =>
                Forall (fun p => valid p = true -> well_formed p = true)
                  (currentPersons st) /\
                Forall (fun p => well_formed p = true /\ valid p = true)
                  (selected st))
             (fun o => Forall (fun p => well_formed p = true /\ valid p = true)
                         (selected (final_state o))) cap).
    - intros st st' [Hc Hs] Hstep.
      destruct (merge_step_Continue cap st st' Hstep)
        as (k & n & q & f' & Hk & _ & Er & Hh & _ & Hc').
      split.
      + rewrite Hc'. apply Forall_insert; [exact Hc|].
        destruct (n =? 7)%Z eqn:En; [|intros Hz; discriminate Hz].
        apply Z.eqb_eq in En. subst n. intros _.
        exact (proj1 (fscanf_person_well_formed fmt_next _ _ q f'
                        (or_intror eq_refl) Er)).
      + unfold selected. rewrite Hh, map_app. apply Forall_app.
        split; [exact Hs|]. constructor; [|constructor].
        exact (Hcur st k Hk Hc).
    - intros st o' [Hc Hs] Hstep Hr'.
      destruct o' as [st'|st'|st']; [discriminate Hr'| |]; cbn [final_state].
      + apply merge_step_Finished in Hstep as [-> _]. exact Hs.
      + destruct (merge_step_OutOfBounds cap st st' Hstep)
          as (k & Hk & _ & Hh & _).
        unfold selected. rewrite Hh, map_app. apply Forall_app.
        split; [exact Hs|]. constructor; [|constructor].
        exact (Hcur st k Hk Hc).
    - unfold selected.
      destruct (initial_state_fields us uninit) as (_ & _ & _ & ->).
      split; [|constructor].
      unfold initial_state.
      destruct (read_first us 0 uninit) as [[fs ps] a] eqn:E0.
      cbn [currentPersons].
      apply (Forall_impl _ _ _ (read_first_well_formed us 0 uninit fs ps a Hok E0)).
      auto. }
  assert (Forall (fun p => well_formed p = true /\ valid p = true)
            (written (outFile (final_state o)))) as Hw.
  { rewrite (createDatabase_cap_first_seen cap us uninit o E).
    rewrite Forall_forall in Hsel. apply Forall_forall. intros p Hp.
    apply Hsel.
    exact (elem_of_sublist _ _ _ Hp (first_seen_sublist [] _)). }
  split; [exact Hw|].
  apply Forall_forall. intros c Hc. apply render_call_width.
  destruct (record_of c) as [p|] eqn:Ec; [|exact I].
  rewrite Forall_forall in Hw. apply Hw.
  apply list_elem_of_omap. exists c. auto.
Qed.

Lemma written_records_fit_witness :
  exists o,
    createDatabase_cap MAX_UNITS [unit_A; unit_B] no_stack = Some o /\
    running o = false /\
    Forall (fun p => well_formed p = true /\ valid p = true)
      (written (outFile (final_state o))) /\
    Forall (fun c => String.length (render_call c) = width c)
      (outFile (final_state o)).
Proof.
  apply (written_records_fit MAX_UNITS [unit_A; unit_B] no_stack).
  vm_compute. reflexivity.
Defined.

(** ** What the slots hold before the call *)

Lemma store_fields_all p p' r :
  scan_count r = 7%Z ->
  store_fields p (assigned r) = store_fields p' (assigned r).
Proof.
  intros H.
  destruct (scan_count_7 r H) as (v0 & v1 & v2 & v3 & v4 & v5 & v6 & ->).
  reflexivity.
Qed.

Lemma read_first_uninit us : forall i uninit uninit',
  first_reads_ok us = true ->
  read_first us i uninit = read_first us i uninit'.
Proof.
  induction us as [|f us IH]; intros i uninit uninit' Hok; [reflexivity|].
  cbn [first_reads_ok forallb] in Hok. apply andb_prop in Hok as [H7 Hok].
  cbn [read_first]. rewrite (IH (S i) uninit uninit' Hok).
  unfold fscanf_person. apply Z.eqb_eq in H7.
  rewrite (store_fields_all (uninit i) (uninit' i) _ H7). reflexivity.
Qed.

(** X19.  When the first read of every unit returns 7, the merge does not
    depend on what the array [currentPersons] holds before the call: the
    first loop overwrites every field of every slot. *)
Theorem merge_ignores_initial_slots cap us uninit uninit' :
  first_reads_ok us = true ->
  createDatabase_cap cap us uninit = createDatabase_cap cap us uninit'.
Proof.
  intros Hok. unfold createDatabase_cap, initial_state.
  rewrite (read_first_uninit us 0 uninit uninit' Hok). reflexivity.
Qed.

Lemma merge_ignores_initial_slots_witness :
  createDatabase_cap MAX_UNITS [unit_A; unit_B] no_stack =
  createDatabase_cap MAX_UNITS [unit_A; unit_B] (fun _ => patient_X).
Proof.
  apply (merge_ignores_initial_slots MAX_UNITS [unit_A; unit_B]).
  vm_compute. reflexivity.
Defined.

(** ** What the donor filter depends on *)

Lemma next_records_cur0 fuel f cur0 cur0' :
  next_records fuel f cur0 = next_records fuel f cur0'.
Proof.
  destruct fuel as [|fuel]; [reflexivity|].
  cbn [next_records]. unfold fscanf_person.
  destruct (scan_count (vfscanf fmt_next f) =? 7)%Z eqn:E; [|reflexivity].
  apply Z.eqb_eq in E.
  rewrite (store_fields_all cur0 cur0' _ E). reflexivity.
Qed.

Lemma meets_query_genes query query' m r :
  genes query = genes query' -> meets query m r = meets query' m r.
Proof.
  intros H. unfold meets, match_count, gene. rewrite H. reflexivity.
Qed.

(** X20.  The donor list depends on the patient only through the five
    genes, and not on what the local record [current] holds before the
    first read: [main] fills in the genes of the patient only, and
    [current] is not initialised. *)
Theorem donors_depend_on_genes database patient patient' min_match cur0 cur0' :
  genes patient = genes patient' ->
  getPotentialDonors database patient min_match cur0 =
  getPotentialDonors database patient' min_match cur0'.
Proof.
  intros Hg. rewrite !getPotentialDonors_spec. unfold db_records.
  rewrite (next_records_cur0 _ database cur0 cur0').
  do 2 f_equal. apply List.filter_ext. intros r.
  apply meets_query_genes. exact Hg.
Qed.

Lemma donors_depend_on_genes_witness :
  getPotentialDonors unit_A patient_X 5 blank =
  getPotentialDonors unit_A
    {| name := "Zoe"; id := "999"; genes := ["X"; "X"; "X"; "X"; "X"] |} 5
    patient_X.
Proof.
  apply (donors_depend_on_genes unit_A patient_X
           {| name := "Zoe"; id := "999"; genes := ["X"; "X"; "X"; "X"; "X"] |}
           5 blank patient_X).
  reflexivity.
Defined.

Lemma match_count_le r query : match_count r query <= 5.
Proof.
  unfold match_count.
  pose proof (length_filter (fun i => gene r i = gene query i) (seq 0 5)) as H.
  rewrite length_seq in H. exact H.
Qed.

Lemma filter_none {A} (f : A -> bool) l :
  (forall x, f x = false) -> List.filter f l = [].
Proof.
  intros H. induction l as [|x l IH]; [reflexivity|].
  cbn [List.filter]. rewrite (H x). exact IH.
Qed.

Lemma filter_all {A} (f : A -> bool) l :
  (forall x, f x = true) -> List.filter f l = l.
Proof.
  intros H. induction l as [|x l IH]; [reflexivity|].
  cbn [List.filter]. rewrite (H x), IH. reflexivity.
Qed.

(** X21.  With a threshold above 5 no record is a donor: the list is empty
    and the size is 0, and [donors] is not written, however many records
    the database holds. *)
Theorem no_donor_above_five database patient min_match cur0 :
  (5 < min_match)%Z ->
  getPotentialDonors database patient min_match cur0 = Some (Donors [] 0).
Proof.
  intros Hm. rewrite getPotentialDonors_spec, filter_none; [reflexivity|].
  intros r. unfold meets. apply Z.leb_gt.
  pose proof (match_count_le r patient). lia.
Qed.

Lemma no_donor_above_five_witness :
  getPotentialDonors unit_A patient_X 6 blank =
  Some (Donors [] 0).
Proof.
  apply (no_donor_above_five unit_A patient_X 6 blank). lia.
Defined.

(** X22.  With a threshold of 0 or less every record of the database is a
    donor: the list is the sequence of the records read, when there are
    at most [MAX_PERSONS] of them, and a write outside [donors]
    otherwise. *)
Theorem every_record_at_zero database patient min_match cur0 :
  (min_match <= 0)%Z ->
  getPotentialDonors database patient min_match cur0 =
  Some (if (length (db_records database cur0) <=? MAX_PERSONS)%nat
        then Donors (db_records database cur0)
               (Z.of_nat (length (db_records database cur0)))
        else DonorsOutOfBounds).
Proof.
  intros Hm. rewrite getPotentialDonors_spec, filter_all; [reflexivity|].
  intros r. unfold meets. apply Z.leb_le. lia.
Qed.

Lemma every_record_at_zero_witness :
  getPotentialDonors unit_A patient_X 0 blank =
  Some (if (length (db_records unit_A blank) <=? MAX_PERSONS)%nat
        then Donors (db_records unit_A blank)
               (Z.of_nat (length (db_records unit_A blank)))
        else DonorsOutOfBounds).
Proof.
  apply (every_record_at_zero unit_A patient_X 0 blank). lia.
Defined.

(** ** main: the names of the unit files *)

Lemma append_inj_r (a b c : string) : a +:+ c = b +:+ c -> a = b.
Proof.
  revert b. induction a as [|x a IH]; intros [|y b] H.
  - reflexivity.
  - apply (f_equal String.length) in H.
    rewrite !length_append in H. simpl in H. lia.
  - apply (f_equal String.length) in H.
    rewrite !length_append in H. simpl in H. lia.
  - rewrite !append_cons in H. injection H as -> H. f_equal. exact (IH b H).
Qed.

Lemma decimal_inj n m : decimal n = decimal m -> n = m.
Proof.
  unfold decimal. intros H.
  apply DecimalNat.Unsigned.to_uint_inj.
  apply (f_equal DecimalString.NilEmpty.uint_of_string) in H.
  rewrite !DecimalString.NilEmpty.usu in H. injection H as H. exact H.
Qed.

(** X23.  [main] opens unit [i] under the name made of the root name, the
    decimal digits of [i + 1] and [.txt].  Whenever the names of two
    units fit the 50 bytes of [fileName] and are the same name, the two
    units are the same unit: no file is opened for two slots of the
    merge. *)
Theorem unit_file_names_distinct rootName i j fileName :
  unit_file_name rootName i = Some fileName ->
  unit_file_name rootName j = Some fileName ->
  i = j /\ String.length fileName < 50.
Proof.
  unfold unit_file_name. intros Hi Hj.
  destruct (String.length (rootName +:+ decimal (i + 1) +:+ ".txt") <? 50)%nat
    eqn:Ei; [|discriminate Hi].
  destruct (String.length (rootName +:+ decimal (j + 1) +:+ ".txt") <? 50)%nat;
    [|discriminate Hj].
  injection Hi as Hi. injection Hj as Hj. apply Nat.ltb_lt in Ei.
  split; [|rewrite <- Hi; exact Ei].
  rewrite <- Hj in Hi. apply String.app_inj, append_inj_r, decimal_inj in Hi.
  lia.
Qed.

Lemma unit_file_names_distinct_witness :
  2 = 2 /\ String.length "unit3.txt" < 50.
Proof.
  apply (unit_file_names_distinct "unit" 2 2 "unit3.txt");
    vm_compute; reflexivity.
Defined.

(** ** The identifiers stored and the records written *)

(** X24.  [processedIDs] follows the output.  When the merge ends, the
    identifiers stored in [processedIDs] are the identifiers of the
    records written, in the order written, and no identifier is stored
    twice.  When it stops at the write outside [processedIDs], one more
    record has been written, with an identifier that is not stored. *)
Theorem processedIDs_follow_output cap us uninit :
  exists o,
    createDatabase_cap cap us uninit = Some o /\ running o = false /\
    NoDup (processedIDs (final_state o)) /\
    match o with
    | OutOfBounds st =>
        exists p,
          map id (written (outFile st)) = processedIDs st ++ [id p] /\
          id p ∉ processedIDs st
    | _ =>
        map id (written (outFile (final_state o))) =
        processedIDs (final_state o)
    end.
Proof.
  destruct (createDatabase_cap_total cap us uninit) as (o & E & Hr).
  exists o. split; [exact E|]. split; [exact Hr|].
  revert E.
  apply (merge_loop_invariant ids_follow_output
           (fun o =>
              NoDup (processedIDs (final_state o)) /\
              match o with
              | OutOfBounds st =>
                  exists p,
                    map id (written (outFile st)) = processedIDs st ++ [id p] /\
                    id p ∉ processedIDs st
              | _ =>
                  map id (written (outFile (final_state o))) =
                  processedIDs (final_state o)
              end) cap).
  - apply merge_step_ids_follow_output.
  - intros st o' [Hids Hout] <- Hr'.
    assert (NoDup (processedIDs st)) as Hnd
      by (rewrite Hids, Hout; apply first_seen_ids).
    destruct (merge_step_cases cap st)
      as [E|(k & _ & _ & [[_ E]|[(_ & _ & E)|(Hd & _ & E)]])];
      rewrite E in Hr' |- *; try discriminate Hr'; cbn [final_state].
    + split; [exact Hnd | symmetry; exact Hids].
    + change (processedIDs (write_record k st)) with (processedIDs st).
      split; [exact Hnd|]. exists (current st k).
      rewrite write_record_written, Hd, map_app, <- Hids.
      split; [reflexivity|].
      intros Hin. apply duplicate_elem in Hin. congruence.
  - unfold ids_follow_output, selected.
    destruct (initial_state_fields us uninit) as (-> & _ & -> & ->).
    auto.
Qed.

(** ** A name that does not fit *)

Lemma vfscanf_cut fmt lead a t r :
  string_forall isspace lead = true -> has_digit a = false ->
  String.length lead + String.length a = 30 -> token 9 t = true ->
  assigned (vfscanf (Conv_nondigits 30 :: White :: Conv_s 9 :: fmt)
              (lead +:+ a +:+ t +:+ String " " r)) =
  (lead +:+ a) :: t :: assigned (vfscanf fmt (String " " r)).
Proof.
  intros Hlead Ha Hlen Ht.
  assert (String.length (lead +:+ a) = 30) as HN
    by (rewrite length_append; exact Hlen).
  assert (string_forall (fun c => negb (isdigit c)) (lead +:+ a) = true) as Hall.
  { rewrite string_forall_app, (isspace_nondigit lead Hlead),
      string_forall_no_digit, Ha. reflexivity. }
  change (vfscanf (Conv_nondigits 30 :: White :: Conv_s 9 :: fmt)
            (lead +:+ a +:+ t +:+ String " " r))
    with (conv (fun c => negb (isdigit c)) 30
            (lead +:+ a +:+ t +:+ String " " r)
            (vfscanf (White :: Conv_s 9 :: fmt))).
  unfold conv at 1. rewrite <- (append_assoc lead a).
  rewrite <- HN at 1. rewrite (scan_while_exact _ _ _ Hall).
  destruct (lead +:+ a) as [|c s] eqn:E; [simpl in HN; lia|].
  cbn [is_empty assigned]. f_equal.
  change (vfscanf (White :: Conv_s 9 :: fmt) (t +:+ String " " r))
    with (conv (fun c => negb (isspace c)) 9
            (skip_space (skip_space (t +:+ String " " r))) (vfscanf fmt)).
  rewrite !(skip_space_token 9 t _ Ht). unfold conv.
  pose proof (token_elim 9 t Ht) as [[Hne Hw] Hns].
  rewrite (scan_while_stop _ 9 t " "%char r Hns Hw eq_refl).
  destruct t; [simpl in Hne; lia | reflexivity].
Qed.

(** X25.  A name that does not fit is cut.  When white space and name
    bytes without a digit fill the 30 bytes of the name conversion and the
    name goes on, the read stores those 30 bytes as the name and the rest
    of the word, up to the next white space, as the identifier.  So the
    condition of the round trip on the room in front of a name is
    needed. *)
Theorem long_name_is_cut lead a t r old :
  string_forall isspace lead = true -> has_digit a = false ->
  String.length lead + String.length a = 30 -> token 9 t = true ->
  exists n q f',
    fscanf_person fmt_next (lead +:+ a +:+ t +:+ String " " r) old =
      (n, q, f') /\
    (2 <= n)%Z /\ name q = lead +:+ a /\ id q = t.
Proof.
  intros Hlead Ha Hlen Ht. unfold fscanf_person, fmt_next.
  do 3 eexists. split; [reflexivity|].
  pose proof (vfscanf_cut
                [White; Conv_s 21; White; Conv_s 21; White; Conv_s 21; White;
                 Conv_s 21; White; Conv_s 21] lead a t r Hlead Ha Hlen Ht) as E.
  rewrite scan_count_length; rewrite E; cbn [length]; [|lia].
  split; [lia|]. split; reflexivity.
Qed.

Lemma long_name_is_cut_witness :
  exists n q f',
    fscanf_person fmt_next
      (spaces 20 +:+ "Christophe" +:+ "r" +:+
       String " " "Lee 123 X X X X X") blank = (n, q, f') /\
    (2 <= n)%Z /\ name q = spaces 20 +:+ "Christophe" /\ id q = "r".
Proof.
  apply (long_name_is_cut (spaces 20) "Christophe" "r" "Lee 123 X X X X X" blank);
    vm_compute; reflexivity.
Defined.
